(** * DropMate: ride lifecycle engine and live subscription registry

    A shallow embedding of the server core of the DropMate ride-hailing
    demo: the in-memory entity store ([MemStorage], server/storage.ts), the
    REST handlers for the ride lifecycle and the WebSocket handlers that
    keep the subscription registry ([registerRoutes], server/routes.ts),
    and the request schemas they rely on (shared/schema.ts).

    Modelling conventions.
    - A JavaScript [number] that the server only stores, copies, compares
      or counts with (coordinates, fares, time stamps, the rating of a
      call, [completedRides], [reputation], a draw of [Math.random]) is
      the rational [Q] that is its exact value.
      The numbers that come out of inexact arithmetic and are stored,
      [avgRating] and [balance], are binary64 floats ([Binary64]): their
      operations round as IEEE 754 prescribes, and [Number] is the double
      nearest to a rational, as for a literal or a number parsed from
      JSON. Two computations whose results no statement looks at stay on
      the rationals: the random offset of the first driver location in
      accept, and the distance of an available ride, for which
      [Math.sqrt] is a parameter.
    - A JavaScript [Map] whose values are iterated ([users], [rides]) is an
      association list in insertion order ([JsMap]); the registry maps,
      which are only probed by key, are [gmap]s, and a [Set<WebSocket>] is
      a [gset] of connection handles.
    - The clock, [randomUUID], [Math.random] and the [readyState] of the
      sockets are read from an explicit environment [Env], one per call.
    - A request body that a zod schema validates is taken at the schema's
      type; a body that is destructured without validation is kept as a
      raw JSON value ([JsVal]). *)

From Stdlib Require Import ZArith QArith Qround Qminmax Lqa.
From Stdlib Require Floats.
From stdpp Require Import base strings list sorting gmap.
Import PrimFloat.PrimFloatNotations.

(* ===================================================================== *)
(** ** JavaScript values and primitives *)
(* ===================================================================== *)

(** [Math.round]: nearest integer, halves towards plus infinity. *)
Definition Math_round (x : Q) : Q := inject_Z (Qfloor (x + 0.5)).

Definition Math_min (a b : Q) : Q := Qmin a b.

(** *** Binary64 numbers *)

Module Binary64.
Import PrimFloat SpecFloat FloatOps.

(** An integer as a binary number that is not rounded yet. *)
Definition Z2SF (z : Z) : spec_float :=
  match z with
  | Z0 => S754_zero false
  | Zpos p => S754_finite false p 0
  | Zneg p => S754_finite true p 0
  end.

(** The double nearest to [q], ties to even: the value of the literal
    that denotes [q], and [q] itself when [q] is the exact value of a
    double. *)
Definition Number (q : Q) : float :=
  let q := Qred q in
  SF2Prim (SFdiv prec emax (Z2SF (Qnum q)) (Z2SF (Zpos (Qden q)))).

(** The exact value of a finite double; [None] for NaN and the
    infinities. *)
Definition value (x : float) : option Q :=
  match Prim2SF x with
  | S754_zero _ => Some 0%Q
  | S754_finite s m e =>
      let v := match e with
               | Zneg k => (Zpos m # 2 ^ k)%Q
               | _ => inject_Z (Zpos m * 2 ^ e)
               end in
      Some (if s then Qopp v else v)
  | _ => None
  end.

(** An integer result of [Math.round] or [Math.floor] on [x]; a zero
    result keeps the sign of [x]. *)
Definition integral (x : float) (n : Z) : float :=
  if (n =? 0)%Z then (if get_sign x then neg_zero else zero)
  else Number (inject_Z n).

(** [Math.floor]; NaN and the infinities are returned as they are. *)
Definition Math_floor (x : float) : float :=
  match value x with
  | Some v => integral x (Qfloor v)
  | None => x
  end.

(** [Math.round]: the nearest integer, halves towards plus infinity,
    decided on the exact value of [x]. *)
Definition Math_round (x : float) : float :=
  match value x with
  | Some v => integral x (Qfloor (v + (1 # 2)))
  | None => x
  end.

(** Truthiness of a [number]: zero and NaN are falsy. *)
Definition truthy (x : float) : bool := negb (is_zero x || is_nan x).

(** A double that holds a count, read back as the rational it is. The
    server only does this with finite values; 0 stands for the others. *)
Definition rational (x : float) : Q :=
  match value x with Some v => v | None => 0%Q end.

End Binary64.

Arguments Binary64.Number : simpl never.

(** Truthiness of a [string | null | undefined]. *)
Definition truthy_str (s : string) : bool := negb (String.eqb s "").

Definition truthy_ostr (o : option string) : bool :=
  match o with Some s => truthy_str s | None => false end.

(** Truthiness of a [number | undefined]. *)
Definition truthy_num (o : option Q) : bool :=
  match o with Some q => negb (Qeq_bool q 0) | None => false end.

(** [x || null] on an optional string. *)
Definition or_null (o : option string) : option string :=
  if truthy_ostr o then o else None.

(** [x || d] on an optional string. *)
Definition or_else (o : option string) (d : string) : string :=
  match o with Some s => if truthy_str s then s else d | None => d end.

(** A field read from [req.body] without validation. Objects and arrays
    are left out: under [===] they behave like [JsUndefined] against the
    strings and nulls of the store. *)
Inductive JsVal : Type :=
  | JsUndefined
  | JsNull
  | JsString (s : string)
  | JsNumber (q : Q)
  | JsBool (b : bool).

(** The [===] operator. *)
Definition strict_eq (a b : JsVal) : bool :=
  match a, b with
  | JsUndefined, JsUndefined => true
  | JsNull, JsNull => true
  | JsString s, JsString t => String.eqb s t
  | JsNumber p, JsNumber q => Qeq_bool p q
  | JsBool x, JsBool y => Bool.eqb x y
  | _, _ => false
  end.

(** A stored [string] and a stored [string | null] as JavaScript values. *)
Definition js_string (s : string) : JsVal := JsString s.

Definition js_nullable (o : option string) : JsVal :=
  match o with Some s => JsString s | None => JsNull end.

(* ===================================================================== *)
(** ** Data model (shared/schema.ts) *)
(* ===================================================================== *)

Record Location : Type := {
  lat : Q;
  lng : Q;
  address : option string
}.

Inductive UserRole : Type := role_customer | role_driver.

Record User : Type := {
  user_id : string;
  walletAddress : string;
  role : UserRole;
  reputation : Q;
  completedRides : Q;
  avgRating : PrimFloat.float;
  balance : PrimFloat.float;
  name : option string
}.

Inductive RideStatus : Type :=
  | waiting | accepted | in_progress | completed | cancelled.

Record Ride : Type := {
  ride_id : string;
  customerId : string;
  driverId : option string;
  pickup : Location;
  dropoff : Location;
  estimatedFare : Q;
  stakedAmount : Q;
  actualFare : option Q;
  status : RideStatus;
  currentLocation : option Location;
  createdAt : string;
  startedAt : option string;
  completedAt : option string;
  customerRating : option Q;
  driverRating : option Q;
  customerFeedback : option string;
  driverFeedback : option string
}.

Record LocationUpdate : Type := {
  upd_lat : Q;
  upd_lng : Q;
  timestamp : Q;
  speed : option Q
}.

Definition role_eqb (a b : UserRole) : bool :=
  match a, b with
  | role_customer, role_customer | role_driver, role_driver => true
  | _, _ => false
  end.

Definition status_eqb (a b : RideStatus) : bool :=
  match a, b with
  | waiting, waiting | accepted, accepted | in_progress, in_progress
  | completed, completed | cancelled, cancelled => true
  | _, _ => false
  end.

(** [Partial<Ride>] as the handlers build it: [None] is an absent key. Only
    the keys that some handler sets are listed. *)
Record RideUpdates : Type := {
  p_driverId : option (option string);
  p_status : option RideStatus;
  p_currentLocation : option (option Location);
  p_startedAt : option (option string);
  p_completedAt : option (option string);
  p_actualFare : option (option Q);
  p_customerRating : option (option Q);
  p_driverRating : option (option Q);
  p_customerFeedback : option (option string);
  p_driverFeedback : option (option string)
}.

(** The empty object [{}]. *)
Definition no_updates : RideUpdates :=
  {| p_driverId := None; p_status := None; p_currentLocation := None;
     p_startedAt := None; p_completedAt := None; p_actualFare := None;
     p_customerRating := None; p_driverRating := None;
     p_customerFeedback := None; p_driverFeedback := None |}.

(** [Partial<User>] as the complete handler builds it. *)
Record UserUpdates : Type := {
  p_avgRating : option PrimFloat.float;
  p_completedRides : option Q;
  p_reputation : option Q
}.

Definition over {A : Type} (o : option A) (old : A) : A :=
  match o with Some v => v | None => old end.

(** [{ ...ride, ...updates }] *)
Definition spread_ride (ride : Ride) (u : RideUpdates) : Ride :=
  {| ride_id := ride_id ride;
     customerId := customerId ride;
     driverId := over (p_driverId u) (driverId ride);
     pickup := pickup ride;
     dropoff := dropoff ride;
     estimatedFare := estimatedFare ride;
     stakedAmount := stakedAmount ride;
     actualFare := over (p_actualFare u) (actualFare ride);
     status := over (p_status u) (status ride);
     currentLocation := over (p_currentLocation u) (currentLocation ride);
     createdAt := createdAt ride;
     startedAt := over (p_startedAt u) (startedAt ride);
     completedAt := over (p_completedAt u) (completedAt ride);
     customerRating := over (p_customerRating u) (customerRating ride);
     driverRating := over (p_driverRating u) (driverRating ride);
     customerFeedback := over (p_customerFeedback u) (customerFeedback ride);
     driverFeedback := over (p_driverFeedback u) (driverFeedback ride) |}.

(** [{ ...user, ...updates }] *)
Definition spread_user (user : User) (u : UserUpdates) : User :=
  {| user_id := user_id user;
     walletAddress := walletAddress user;
     role := role user;
     reputation := over (p_reputation u) (reputation user);
     completedRides := over (p_completedRides u) (completedRides user);
     avgRating := over (p_avgRating u) (avgRating user);
     balance := balance user;
     name := name user |}.

(* ===================================================================== *)
(** ** A JavaScript [Map<string, V>] in insertion order *)
(* ===================================================================== *)

Module JsMap.

Fixpoint get {V : Type} (k : string) (m : list (string * V)) : option V :=
  match m with
  | [] => None
  | (k', v) :: m' => if String.eqb k' k then Some v else get k m'
  end.

(** [set] keeps the position of a key that is already present and
    appends a new one. *)
Fixpoint set {V : Type} (k : string) (v : V) (m : list (string * V))
  : list (string * V) :=
  match m with
  | [] => [(k, v)]
  | (k', v') :: m' =>
      if String.eqb k' k then (k, v) :: m' else (k', v') :: set k v m'
  end.

Definition values {V : Type} (m : list (string * V)) : list V :=
  map snd m.

End JsMap.

(** [Array.prototype.find] *)
Fixpoint array_find {A : Type} (p : A -> bool) (l : list A) : option A :=
  match l with
  | [] => None
  | x :: l' => if p x then Some x else array_find p l'
  end.

(** [Array.prototype.includes] on statuses *)
Definition includes (l : list RideStatus) (s : RideStatus) : bool :=
  existsb (status_eqb s) l.

(* ===================================================================== *)
(** ** The environment of one call *)
(* ===================================================================== *)

Record Env : Type := {
  (** [new Date().toISOString()] *)
  now : string;
  (** [Date.now()] *)
  nowMs : Q;
  (** [randomUUID()] *)
  uuid : string;
  (** the successive results of [Math.random()] during the call, each by
      its exact value *)
  random : nat -> Q;
  (** [client.readyState === WebSocket.OPEN] *)
  isOpen : nat -> bool
}.

(* ===================================================================== *)
(** ** The entity store (server/storage.ts) *)
(* ===================================================================== *)

Record MemStorage : Type := {
  users : list (string * User);
  rides : list (string * Ride)
}.

Definition with_users (us : list (string * User)) (st : MemStorage) : MemStorage :=
  {| users := us; rides := rides st |}.

Definition with_rides (rs : list (string * Ride)) (st : MemStorage) : MemStorage :=
  {| users := users st; rides := rs |}.

Definition sampleNames : list string :=
  [ "Alex Rivera"; "Jordan Chen"; "Sam Williams"; "Taylor Kim";
    "Morgan Davis"; "Casey Lee"; "Riley Johnson"; "Quinn Murphy" ].

(** [sampleNames[Math.floor(Math.random() * sampleNames.length)]]; an index
    outside the array reads [undefined]. *)
Definition getRandomName (r : Q) : option string :=
  let i := Qfloor (r * inject_Z (Z.of_nat (length sampleNames))) in
  if (i <? 0)%Z then None else nth_error sampleNames (Z.to_nat i).

Record PartyInfo : Type := {
  info_name : string;
  info_address : string;
  info_rating : PrimFloat.float;
  (** present for the driver only *)
  info_reputation : option Q
}.

Record RideWithDetails : Type := {
  details_ride : Ride;
  details_customer : option PartyInfo;
  details_driver : option PartyInfo
}.

Definition getUser (id : string) (st : MemStorage) : option User :=
  JsMap.get id (users st).

Definition getUserByWallet (wallet : string) (st : MemStorage) : option User :=
  array_find (fun user => String.eqb (walletAddress user) wallet)
             (JsMap.values (users st)).

(** [createUser]: the inserted fields are passed one by one; [nm] is
    [insertUser.name] and [r] the draw used by [getRandomName]. *)
Definition createUser (wallet : string) (rl : UserRole)
    (rep rides_done : Q) (avg bal : PrimFloat.float) (nm : option string)
    (id : string) (r : Q) (st : MemStorage) : User * MemStorage :=
  let user :=
    {| user_id := id; walletAddress := wallet; role := rl;
       reputation := rep; completedRides := rides_done; avgRating := avg;
       balance := bal;
       name := if truthy_ostr nm then nm else getRandomName r |} in
  (user, with_users (JsMap.set id user (users st)) st).

Definition updateUser (id : string) (updates : UserUpdates) (st : MemStorage)
  : option User * MemStorage :=
  match JsMap.get id (users st) with
  | None => (None, st)
  | Some user =>
      let updatedUser := spread_user user updates in
      (Some updatedUser, with_users (JsMap.set id updatedUser (users st)) st)
  end.

(** The validated body of [POST /api/rides/request]. *)
Record RideRequest : Type := {
  req_pickup : Location;
  req_dropoff : Location;
  req_estimatedFare : Q;
  req_stakedAmount : Q;
  req_customerId : string
}.

Definition createRide (rideData : RideRequest) (id created : string)
    (st : MemStorage) : Ride * MemStorage :=
  let ride :=
    {| ride_id := id;
       customerId := req_customerId rideData;
       driverId := None;
       pickup := req_pickup rideData;
       dropoff := req_dropoff rideData;
       estimatedFare := req_estimatedFare rideData;
       stakedAmount := req_stakedAmount rideData;
       actualFare := None;
       status := waiting;
       currentLocation := None;
       createdAt := created;
       startedAt := None;
       completedAt := None;
       customerRating := None;
       driverRating := None;
       customerFeedback := None;
       driverFeedback := None |} in
  (ride, with_rides (JsMap.set id ride (rides st)) st).

Definition getRide (id : string) (st : MemStorage) : option Ride :=
  JsMap.get id (rides st).

Definition getRideWithDetails (id : string) (st : MemStorage)
  : option RideWithDetails :=
  match JsMap.get id (rides st) with
  | None => None
  | Some ride =>
      let customer :=
        if truthy_str (customerId ride) then getUser (customerId ride) st
        else None in
      let driver :=
        match driverId ride with
        | Some d => if truthy_str d then getUser d st else None
        | None => None
        end in
      Some {| details_ride := ride;
              details_customer :=
                match customer with
                | Some c => Some {| info_name := or_else (name c) "Customer";
                                    info_address := walletAddress c;
                                    info_rating := avgRating c;
                                    info_reputation := None |}
                | None => None
                end;
              details_driver :=
                match driver with
                | Some d => Some {| info_name := or_else (name d) "Driver";
                                    info_address := walletAddress d;
                                    info_rating := avgRating d;
                                    info_reputation := Some (reputation d) |}
                | None => None
                end |}
  end.

Definition updateRide (id : string) (updates : RideUpdates) (st : MemStorage)
  : option Ride * MemStorage :=
  match JsMap.get id (rides st) with
  | None => (None, st)
  | Some ride =>
      let updatedRide := spread_ride ride updates in
      (Some updatedRide, with_rides (JsMap.set id updatedRide (rides st)) st)
  end.

Definition activeStatuses : list RideStatus := [waiting; accepted; in_progress].

(** The predicate that [getActiveRide] hands to [find]. *)
Definition is_active_for (user : User) (userId : string) (ride : Ride) : bool :=
  if negb (includes activeStatuses (status ride)) then false
  else if role_eqb (role user) role_customer
       then String.eqb (customerId ride) userId
       else strict_eq (js_nullable (driverId ride)) (js_string userId).

Definition getActiveRide (userId : string) (st : MemStorage)
  : option RideWithDetails :=
  match getUser userId st with
  | None => None
  | Some user =>
      match array_find (is_active_for user userId) (JsMap.values (rides st)) with
      | None => None
      | Some activeRide => getRideWithDetails (ride_id activeRide) st
      end
  end.

(** *** Demo data installed by the constructor *)

Definition demoDrivers : list User :=
  [ {| user_id := "demo-driver-1"; walletAddress := "0xdriver1...abc";
       role := role_driver; reputation := 78; completedRides := 45;
       avgRating := Binary64.Number 4.7; balance := Binary64.Number 245.50;
       name := Some "Marcus Chen" |};
    {| user_id := "demo-driver-2"; walletAddress := "0xdriver2...def";
       role := role_driver; reputation := 92; completedRides := 120;
       avgRating := Binary64.Number 4.9; balance := Binary64.Number 890.25;
       name := Some "Sarah Johnson" |} ].

Definition demoRide (id cust : string) (pick drop : Location)
    (fare stake : Q) (created : string) : Ride :=
  {| ride_id := id; customerId := cust; driverId := None;
     pickup := pick; dropoff := drop;
     estimatedFare := fare; stakedAmount := stake; actualFare := None;
     status := waiting; currentLocation := None; createdAt := created;
     startedAt := None; completedAt := None;
     customerRating := None; driverRating := None;
     customerFeedback := None; driverFeedback := None |}.

Definition demoRides (created : string) : list Ride :=
  [ demoRide "demo-ride-1" "demo-customer-1"
      {| lat := 37.7849; lng := -122.4094; address := Some "Market Street, Downtown" |}
      {| lat := 37.6213; lng := -122.3790; address := Some "Airport Terminal 1, SFO" |}
      28.50 32.78 created;
    demoRide "demo-ride-2" "demo-customer-2"
      {| lat := 37.8080; lng := -122.4177; address := Some "Fisherman's Wharf, SF" |}
      {| lat := 37.7879; lng := -122.4074; address := Some "Union Square, Downtown" |}
      12.75 14.66 created;
    demoRide "demo-ride-3" "demo-customer-3"
      {| lat := 37.7609; lng := -122.4350; address := Some "Castro District, SF" |}
      {| lat := 37.8199; lng := -122.4783; address := Some "Golden Gate Bridge" |}
      18.25 20.99 created ].

Definition demoCustomers : list User :=
  [ {| user_id := "demo-customer-1"; walletAddress := "0xcustomer1...xyz";
       role := role_customer; reputation := 65; completedRides := 12;
       avgRating := Binary64.Number 4.5; balance := Binary64.Number 150.00;
       name := Some "Emma Thompson" |};
    {| user_id := "demo-customer-2"; walletAddress := "0xcustomer2...uvw";
       role := role_customer; reputation := 88; completedRides := 34;
       avgRating := Binary64.Number 4.8; balance := Binary64.Number 75.50;
       name := Some "David Park" |};
    {| user_id := "demo-customer-3"; walletAddress := "0xcustomer3...rst";
       role := role_customer; reputation := 72; completedRides := 8;
       avgRating := Binary64.Number 4.3; balance := Binary64.Number 200.00;
       name := Some "Lisa Wang" |} ].

(** [new MemStorage()]: empty maps, then [seedDemoData]. *)
Definition seedDemoData (created : string) : MemStorage :=
  let us := foldl (fun m u => JsMap.set (user_id u) u m) [] demoDrivers in
  let rs := foldl (fun m r => JsMap.set (ride_id r) r m) [] (demoRides created) in
  let us := foldl (fun m u => JsMap.set (user_id u) u m) us demoCustomers in
  {| users := us; rides := rs |}.

(* ===================================================================== *)
(** ** Server state and live-channel frames (server/routes.ts) *)
(* ===================================================================== *)

(** The objects handed to [broadcastRideStatus]. *)
Inductive StatusPayload : Type :=
  | StAccepted (driverId : string) (currentLocation : Location)
               (driver : option PartyInfo)
  | StInProgress (startedAt : option string)
  | StCompleted
  | StCancelled.

(** A frame written to a socket by [send]. *)
Inductive Frame : Type :=
  | FrameLocation (data : LocationUpdate)
  | FrameStatus (data : StatusPayload).

(** The module-level state of routes.ts together with the store it imports.
    [subscribedRideId] collects the closure variable of that name of every
    connection ([None] is [null]); [sent] logs the frames passed to [send],
    oldest first, with the socket they were written to. *)
Record Server : Type := {
  storage : MemStorage;
  rideSubscriptions : gmap string (gset nat);
  rideLocations : gmap string LocationUpdate;
  subscribedRideId : gmap nat string;
  sent : list (nat * Frame)
}.

Definition with_storage (st : MemStorage) (srv : Server) : Server :=
  {| storage := st; rideSubscriptions := rideSubscriptions srv;
     rideLocations := rideLocations srv;
     subscribedRideId := subscribedRideId srv; sent := sent srv |}.

Definition with_subscriptions (subs : gmap string (gset nat)) (srv : Server)
  : Server :=
  {| storage := storage srv; rideSubscriptions := subs;
     rideLocations := rideLocations srv;
     subscribedRideId := subscribedRideId srv; sent := sent srv |}.

Definition with_locations (locs : gmap string LocationUpdate) (srv : Server)
  : Server :=
  {| storage := storage srv; rideSubscriptions := rideSubscriptions srv;
     rideLocations := locs;
     subscribedRideId := subscribedRideId srv; sent := sent srv |}.

Definition with_subscribed (cur : gmap nat string) (srv : Server) : Server :=
  {| storage := storage srv; rideSubscriptions := rideSubscriptions srv;
     rideLocations := rideLocations srv;
     subscribedRideId := cur; sent := sent srv |}.

Definition send_all (frames : list (nat * Frame)) (srv : Server) : Server :=
  {| storage := storage srv; rideSubscriptions := rideSubscriptions srv;
     rideLocations := rideLocations srv;
     subscribedRideId := subscribedRideId srv; sent := sent srv ++ frames |}.

(** The state when the process starts. *)
Definition init_server (created : string) : Server :=
  {| storage := seedDemoData created; rideSubscriptions := ∅;
     rideLocations := ∅; subscribedRideId := ∅; sent := [] |}.

(** *** WebSocket handlers *)

Inductive WsType : Type :=
  | ty_location_update | ty_ride_status | ty_subscribe | ty_unsubscribe.

(** The [data] of a [location_update] message, as the handler reads it. *)
Record LocationData : Type := {
  d_lat : Q;
  d_lng : Q;
  d_timestamp : option Q;
  d_speed : option Q
}.

(** A message accepted by [wsMessageSchema]. *)
Record WsMessage : Type := {
  msg_type : WsType;
  msg_rideId : option string;
  msg_data : option LocationData
}.

(** [subs.delete(ws); if (subs.size === 0) rideSubscriptions.delete(id)],
    guarded by [if (subs)]. *)
Definition drop_subscriber (ws : nat) (id : string)
    (registry : gmap string (gset nat)) : gmap string (gset nat) :=
  match registry !! id with
  | Some subs =>
      let subs' := subs ∖ {[ws]} in
      if bool_decide (size subs' = 0) then delete id registry
      else <[id := subs']> registry
  | None => registry
  end.

(** [if (!has(id)) set(id, new Set()); get(id)!.add(ws)] *)
Definition add_subscriber (ws : nat) (id : string)
    (registry : gmap string (gset nat)) : gmap string (gset nat) :=
  let registry' :=
    match registry !! id with
    | Some _ => registry
    | None => <[id := ∅]> registry
    end in
  alter (fun subs => subs ∪ {[ws]}) id registry'.

Definition on_subscribe (ws : nat) (rideId : option string) (srv : Server)
  : Server :=
  match rideId with
  | Some rideId =>
      if truthy_str rideId then
        let registry :=
          match subscribedRideId srv !! ws with
          | Some prev =>
              if truthy_str prev
              then drop_subscriber ws prev (rideSubscriptions srv)
              else rideSubscriptions srv
          | None => rideSubscriptions srv
          end in
        let srv := with_subscribed (<[ws := rideId]> (subscribedRideId srv)) srv in
        let srv := with_subscriptions (add_subscriber ws rideId registry) srv in
        match rideLocations srv !! rideId with
        | Some currentLocation =>
            send_all [(ws, FrameLocation currentLocation)] srv
        | None => srv
        end
      else srv
  | None => srv
  end.

Definition on_unsubscribe (ws : nat) (srv : Server) : Server :=
  match subscribedRideId srv !! ws with
  | Some cur =>
      if truthy_str cur then
        let srv :=
          with_subscriptions (drop_subscriber ws cur (rideSubscriptions srv)) srv in
        with_subscribed (delete ws (subscribedRideId srv)) srv
      else srv
  | None => srv
  end.

Definition on_location_update (env : Env) (ws : nat) (rideId : option string)
    (messageData : option LocationData) (srv : Server) : Server :=
  match rideId, messageData with
  | Some rideId, Some messageData =>
      if truthy_str rideId then
        let locationUpdate :=
          {| upd_lat := d_lat messageData;
             upd_lng := d_lng messageData;
             timestamp := if truthy_num (d_timestamp messageData)
                          then over (d_timestamp messageData) (nowMs env)
                          else nowMs env;
             speed := d_speed messageData |} in
        let srv := with_locations (<[rideId := locationUpdate]> (rideLocations srv)) srv in
        let st :=
          snd (updateRide rideId
                 {| p_driverId := None; p_status := None;
                    p_currentLocation :=
                      Some (Some {| lat := upd_lat locationUpdate;
                                    lng := upd_lng locationUpdate;
                                    address := None |});
                    p_startedAt := None; p_completedAt := None;
                    p_actualFare := None; p_customerRating := None;
                    p_driverRating := None; p_customerFeedback := None;
                    p_driverFeedback := None |}
                 (storage srv)) in
        let srv := with_storage st srv in
        match rideSubscriptions srv !! rideId with
        | Some subscribers =>
            send_all
              (map (fun client => (client, FrameLocation locationUpdate))
                   (filter (fun client =>
                              negb (Nat.eqb client ws) && isOpen env client = true)
                           (elements subscribers)))
              srv
        | None => srv
        end
      else srv
  | _, _ => srv
  end.

(** [ws.on('message', ...)]; [None] is a frame that is not valid JSON or
    that [wsMessageSchema] rejects, which is logged and dropped. *)
Definition on_message (env : Env) (ws : nat) (message : option WsMessage)
    (srv : Server) : Server :=
  match message with
  | None => srv
  | Some parsed =>
      match msg_type parsed with
      | ty_subscribe => on_subscribe ws (msg_rideId parsed) srv
      | ty_unsubscribe => on_unsubscribe ws srv
      | ty_location_update =>
          on_location_update env ws (msg_rideId parsed) (msg_data parsed) srv
      | ty_ride_status => srv
      end
  end.

(** [ws.on('close', ...)] *)
Definition on_close (ws : nat) (srv : Server) : Server :=
  match subscribedRideId srv !! ws with
  | Some cur =>
      if truthy_str cur
      then with_subscriptions (drop_subscriber ws cur (rideSubscriptions srv)) srv
      else srv
  | None => srv
  end.

Definition broadcastRideStatus (env : Env) (rideId : string)
    (payload : StatusPayload) (srv : Server) : Server :=
  match rideSubscriptions srv !! rideId with
  | Some subscribers =>
      send_all
        (map (fun client => (client, FrameStatus payload))
             (filter (fun client => isOpen env client = true)
                     (elements subscribers)))
        srv
  | None => srv
  end.

(** *** REST handlers *)

(** What a handler answers: [res.json(...)] with a ride or a user, or
    [res.status(code).json({ message })]. *)
Inductive Response : Type :=
  | JsonRide (ride : option Ride)
  | JsonUser (user : User)
  | Fail (code : nat) (message : string).

(** The error taxonomy read off the answers: 400 with the schema message is
    a validation error, any other 400 a conflict. *)
Inductive ErrorKind : Type := ValidationError | NotFound | Conflict | Forbidden.

Definition error_kind (r : Response) : option ErrorKind :=
  match r with
  | Fail 400 message =>
      if String.eqb message "Invalid request" then Some ValidationError
      else Some Conflict
  | Fail 404 _ => Some NotFound
  | Fail 403 _ => Some Forbidden
  | _ => None
  end.

(** [POST /api/auth/connect]; the token of the answer is not modelled. *)
Definition authConnect (env : Env) (wallet : string) (rl : UserRole)
    (srv : Server) : Response * Server :=
  match getUserByWallet wallet (storage srv) with
  | Some user => (JsonUser user, srv)
  | None =>
      let Math_random i := Binary64.Number (random env i) in
      let '(user, st) :=
        createUser wallet rl
          (Binary64.rational
             (Binary64.Number 50
              + Binary64.Math_floor (Math_random 0%nat * Binary64.Number 30))%float)
          0
          (Binary64.Number 4.0 + Math_random 1%nat * Binary64.Number 0.8)%float
          (Binary64.Number 100 + Math_random 2%nat * Binary64.Number 200)%float
          None (uuid env) (random env 3) (storage srv) in
      (JsonUser user, with_storage st srv)
  end.

(** [POST /api/rides/request] *)
Definition rideRequest (env : Env) (body : RideRequest) (srv : Server)
  : Response * Server :=
  let '(ride, st) := createRide body (uuid env) (now env) (storage srv) in
  (JsonRide (Some ride), with_storage st srv).

(** [POST /api/rides/:rideId/accept]; [rideAcceptSchema] leaves a string. *)
Definition accept (env : Env) (rideId driverId : string) (srv : Server)
  : Response * Server :=
  match getRide rideId (storage srv) with
  | None => (Fail 404 "Ride not found", srv)
  | Some ride =>
      if negb (status_eqb (status ride) waiting)
      then (Fail 400 "Ride is no longer available", srv)
      else
        match getActiveRide driverId (storage srv) with
        | Some _ => (Fail 400 "You already have an active ride", srv)
        | None =>
            let driver := getUser driverId (storage srv) in
            let initialLocation :=
              {| lat := lat (pickup ride) + (random env 0 - 0.5) * 0.02;
                 lng := lng (pickup ride) + (random env 1 - 0.5) * 0.02;
                 address := None |} in
            let '(updatedRide, st) :=
              updateRide rideId
                {| p_driverId := Some (Some driverId);
                   p_status := Some accepted;
                   p_currentLocation := Some (Some initialLocation);
                   p_startedAt := None; p_completedAt := None;
                   p_actualFare := None; p_customerRating := None;
                   p_driverRating := None; p_customerFeedback := None;
                   p_driverFeedback := None |}
                (storage srv) in
            let srv := with_storage st srv in
            let srv :=
              broadcastRideStatus env rideId
                (StAccepted driverId initialLocation
                   match driver with
                   | Some d =>
                       Some {| info_name := or_else (name d) "Driver";
                               info_address := walletAddress d;
                               info_rating := avgRating d;
                               info_reputation := Some (reputation d) |}
                   | None => None
                   end)
                srv in
            (JsonRide updatedRide, srv)
        end
  end.

(** [POST /api/rides/:rideId/start]; [bodyDriverId] is [req.body.driverId],
    read without validation. *)
Definition start (env : Env) (rideId : string) (bodyDriverId : JsVal)
    (srv : Server) : Response * Server :=
  match getRide rideId (storage srv) with
  | None => (Fail 404 "Ride not found", srv)
  | Some ride =>
      if negb (status_eqb (status ride) accepted)
      then (Fail 400 "Ride cannot be started", srv)
      else if negb (strict_eq (js_nullable (driverId ride)) bodyDriverId)
      then (Fail 403 "Not authorized", srv)
      else
        let '(updatedRide, st) :=
          updateRide rideId
            {| p_driverId := None; p_status := Some in_progress;
               p_currentLocation := Some (Some (pickup ride));
               p_startedAt := Some (Some (now env)); p_completedAt := None;
               p_actualFare := None; p_customerRating := None;
               p_driverRating := None; p_customerFeedback := None;
               p_driverFeedback := None |}
            (storage srv) in
        let srv := with_storage st srv in
        let srv :=
          broadcastRideStatus env rideId
            (StInProgress match updatedRide with
                          | Some r => startedAt r
                          | None => None
                          end)
            srv in
        (JsonRide updatedRide, srv)
  end.

(** The body of [POST /api/rides/:rideId/complete] at the type of
    [rideCompleteSchema]; [rating] is the exact value of the number
    sent. *)
Record CompleteBody : Type := {
  completedBy : UserRole;
  rating : option Q;
  feedback : option string
}.

(** [rideCompleteSchema.safeParse(...).success]: the range of the rating is
    the only constraint beyond the types. *)
Definition rideCompleteSchema (body : CompleteBody) : bool :=
  match rating body with
  | Some r => Qle_bool 1 r && Qle_bool r 5
  | None => true
  end.

(** [Math.round(newAvgRating * 10) / 10] for
    [newAvgRating = (avgRating * completedRides + rating) / (completedRides + 1)],
    every operation in binary64. *)
Definition rounded_average (avgRating : PrimFloat.float) (completedRides rating : Q)
  : PrimFloat.float :=
  let completedRides := Binary64.Number completedRides in
  let newAvgRating :=
    ((avgRating * completedRides + Binary64.Number rating)
     / (completedRides + Binary64.Number 1))%float in
  (Binary64.Math_round (newAvgRating * Binary64.Number 10)
   / Binary64.Number 10)%float.

(** The [Partial<User>] written to the party that is rated. *)
Definition rating_updates (party : User) (rating : Q) : UserUpdates :=
  {| p_avgRating :=
       Some (rounded_average (avgRating party) (completedRides party) rating);
     p_completedRides := Some (completedRides party + 1)%Q;
     p_reputation := Some (Math_min 100 (reputation party + 2))%Q |}.

(** The first [if] of the complete handler. *)
Definition completion_updates (env : Env) (ride : Ride) : RideUpdates :=
  if status_eqb (status ride) in_progress && negb (truthy_ostr (completedAt ride))
  then {| p_driverId := None; p_status := Some completed;
          p_currentLocation := None; p_startedAt := None;
          p_completedAt := Some (Some (now env));
          p_actualFare := Some (Some (estimatedFare ride));
          p_customerRating := None; p_driverRating := None;
          p_customerFeedback := None; p_driverFeedback := None |}
  else no_updates.

(** The rating branches of the complete handler: the updates extended with
    the rating fields, and the store after the rated party was updated. *)
Definition rating_step (ride : Ride) (body : CompleteBody)
    (updates : RideUpdates) (st : MemStorage) : RideUpdates * MemStorage :=
  if role_eqb (completedBy body) role_customer && truthy_num (rating body) then
    let updates :=
      {| p_driverId := p_driverId updates; p_status := p_status updates;
         p_currentLocation := p_currentLocation updates;
         p_startedAt := p_startedAt updates;
         p_completedAt := p_completedAt updates;
         p_actualFare := p_actualFare updates;
         p_customerRating := p_customerRating updates;
         p_driverRating := Some (rating body);
         p_customerFeedback := Some (or_null (feedback body));
         p_driverFeedback := p_driverFeedback updates |} in
    match driverId ride, rating body with
    | Some d, Some r =>
        if truthy_str d then
          match getUser d st with
          | Some driver => (updates, snd (updateUser d (rating_updates driver r) st))
          | None => (updates, st)
          end
        else (updates, st)
    | _, _ => (updates, st)
    end
  else if role_eqb (completedBy body) role_driver && truthy_num (rating body) then
    let updates :=
      {| p_driverId := p_driverId updates; p_status := p_status updates;
         p_currentLocation := p_currentLocation updates;
         p_startedAt := p_startedAt updates;
         p_completedAt := p_completedAt updates;
         p_actualFare := p_actualFare updates;
         p_customerRating := Some (rating body);
         p_driverRating := p_driverRating updates;
         p_customerFeedback := p_customerFeedback updates;
         p_driverFeedback := Some (or_null (feedback body)) |} in
    match getUser (customerId ride) st, rating body with
    | Some customer, Some r =>
        (updates, snd (updateUser (customerId ride) (rating_updates customer r) st))
    | _, _ => (updates, st)
    end
  else (updates, st).

(** [POST /api/rides/:rideId/complete] *)
Definition complete (env : Env) (rideId : string) (body : CompleteBody)
    (srv : Server) : Response * Server :=
  if negb (rideCompleteSchema body) then (Fail 400 "Invalid request", srv)
  else
    match getRide rideId (storage srv) with
    | None => (Fail 404 "Ride not found", srv)
    | Some ride =>
        let updates := completion_updates env ride in
        let '(updates, st) := rating_step ride body updates (storage srv) in
        let '(updatedRide, st) := updateRide rideId updates st in
        let srv := with_storage st srv in
        let srv :=
          match p_status updates with
          | Some completed =>
              let srv := broadcastRideStatus env rideId StCompleted srv in
              with_locations (delete rideId (rideLocations srv)) srv
          | _ => srv
          end in
        (JsonRide updatedRide, srv)
    end.

(** [POST /api/rides/:rideId/cancel]; [userId] is [req.body.userId], read
    without validation. *)
Definition cancel (env : Env) (rideId : string) (userId : JsVal)
    (srv : Server) : Response * Server :=
  match getRide rideId (storage srv) with
  | None => (Fail 404 "Ride not found", srv)
  | Some ride =>
      if negb (status_eqb (status ride) waiting)
         && negb (status_eqb (status ride) accepted)
      then (Fail 400 "Ride cannot be cancelled", srv)
      else if negb (strict_eq (js_string (customerId ride)) userId)
              && negb (strict_eq (js_nullable (driverId ride)) userId)
      then (Fail 403 "Not authorized", srv)
      else
        let '(updatedRide, st) :=
          updateRide rideId
            {| p_driverId := None; p_status := Some cancelled;
               p_currentLocation := None; p_startedAt := None;
               p_completedAt := Some (Some (now env));
               p_actualFare := None; p_customerRating := None;
               p_driverRating := None; p_customerFeedback := None;
               p_driverFeedback := None |}
            (storage srv) in
        let srv := with_storage st srv in
        let srv := broadcastRideStatus env rideId StCancelled srv in
        let srv := with_locations (delete rideId (rideLocations srv)) srv in
        (JsonRide updatedRide, srv)
  end.

(** *** Runs of the server *)

Inductive Event : Type :=
  | EvAuthConnect (wallet : string) (rl : UserRole)
  | EvRideRequest (body : RideRequest)
  | EvAccept (rideId driverId : string)
  | EvStart (rideId : string) (driverId : JsVal)
  | EvComplete (rideId : string) (body : CompleteBody)
  | EvCancel (rideId : string) (userId : JsVal)
  | EvMessage (ws : nat) (message : option WsMessage)
  | EvClose (ws : nat).

Definition step (srv : Server) (ee : Env * Event) : Server :=
  let '(env, e) := ee in
  match e with
  | EvAuthConnect wallet rl => snd (authConnect env wallet rl srv)
  | EvRideRequest body => snd (rideRequest env body srv)
  | EvAccept rideId driverId => snd (accept env rideId driverId srv)
  | EvStart rideId driverId => snd (start env rideId driverId srv)
  | EvComplete rideId body => snd (complete env rideId body srv)
  | EvCancel rideId userId => snd (cancel env rideId userId srv)
  | EvMessage ws message => on_message env ws message srv
  | EvClose ws => on_close ws srv
  end.

(** The server after a finite run, every event with the environment it
    was handled in. *)
Definition run (trace : list (Env * Event)) (srv : Server) : Server :=
  foldl step srv trace.

(** A state the server can be in: some run from the initial state. *)
Definition reachable (srv : Server) : Prop :=
  exists created trace, srv = run trace (init_server created).

(* ===================================================================== *)
(** ** Predicates of the statements *)
(* ===================================================================== *)

(** A property of every entry of the [rides] map. *)
Definition rides_all (P : string -> Ride -> Prop) (st : MemStorage) : Prop :=
  forall k r, (k, r) ∈ rides st -> P k r.

(** How [driverId] and [status] go together in a stored ride: a waiting
    ride has no driver, and a ride without a driver is waiting or was
    cancelled. *)
Definition driver_matches_status (r : Ride) : Prop :=
  (status r = waiting -> driverId r = None) /\
  (driverId r = None -> status r = waiting \/ status r = cancelled).

(** A ride is stored under its own identifier and its driver matches its
    status. *)
Definition stored_ok (k : string) (r : Ride) : Prop :=
  ride_id r = k /\ driver_matches_status r.

(** *** Sample runs *)

Definition sample_env : Env :=
  {| now := "2024-05-01T10:00:00.000Z"; nowMs := 1714557600000;
     uuid := "ride-A"; random := fun _ => 0.5%Q; isOpen := fun _ => true |}.

Definition sample_request : RideRequest :=
  {| req_pickup := {| lat := 37.7749; lng := -122.4194; address := Some "A" |};
     req_dropoff := {| lat := 37.8044; lng := -122.2712; address := Some "B" |};
     req_estimatedFare := 20; req_stakedAmount := 23;
     req_customerId := "demo-customer-1" |}.

(** A customer requests a ride and cancels it before any driver accepts. *)
Definition trace_cancel_waiting : list (Env * Event) :=
  [ (sample_env, EvRideRequest sample_request);
    (sample_env, EvCancel "ride-A" (JsString "demo-customer-1")) ].

(** A ride is requested and a demo driver accepts it. *)
Definition trace_accepted : list (Env * Event) :=
  [ (sample_env, EvRideRequest sample_request);
    (sample_env, EvAccept "ride-A" "demo-driver-1") ].

(** The accepted ride is started by its driver. *)
Definition trace_in_progress : list (Env * Event) :=
  trace_accepted ++ [ (sample_env, EvStart "ride-A" (JsString "demo-driver-1")) ].

Definition srv_cancelled : Server :=
  run trace_cancel_waiting (init_server "2024-05-01T09:00:00.000Z").

Definition srv_accepted : Server :=
  run trace_accepted (init_server "2024-05-01T09:00:00.000Z").

Definition srv_in_progress : Server :=
  run trace_in_progress (init_server "2024-05-01T09:00:00.000Z").

(** The initial state after "ghost", who is no user, accepted
    "demo-ride-1". *)
Definition srv_ghost : Server :=
  step (init_server "2024-05-01T09:00:00.000Z")
       (sample_env, EvAccept "demo-ride-1" "ghost").

Definition stored_ride (k : string) (srv : Server) (fallback : Ride) : Ride :=
  match getRide k (storage srv) with Some r => r | None => fallback end.

Definition ride_A_requested : Ride :=
  fst (createRide sample_request "ride-A" (now sample_env)
         (storage (init_server "2024-05-01T09:00:00.000Z"))).

Definition ride_A_cancelled : Ride :=
  Eval vm_compute in stored_ride "ride-A" srv_cancelled ride_A_requested.

Definition ride_A_accepted : Ride :=
  Eval vm_compute in stored_ride "ride-A" srv_accepted ride_A_requested.

Definition ride_A_in_progress : Ride :=
  Eval vm_compute in stored_ride "ride-A" srv_in_progress ride_A_requested.


(** The user whom a rating sent with [body] is about, as the complete
    handler looks it up: the driver of the ride for a customer's rating
    (none while [driverId] is null or empty), the customer for a driver's
    rating; in both cases only if the store has that user. *)
Definition rated_party (ride : Ride) (body : CompleteBody) (st : MemStorage)
  : option (string * User) :=
  match completedBy body with
  | role_customer =>
      match driverId ride with
      | Some d =>
          if truthy_str d
          then match getUser d st with Some u => Some (d, u) | None => None end
          else None
      | None => None
      end
  | role_driver =>
      match getUser (customerId ride) st with
      | Some u => Some (customerId ride, u)
      | None => None
      end
  end.

(** The driver of the in-progress sample ride rates the customer 5. *)
Definition driver_rates_5 : CompleteBody :=
  {| completedBy := role_driver; rating := Some 5%Q; feedback := None |}.

Definition srv_completed_once : Server :=
  snd (complete sample_env "ride-A" driver_rates_5 srv_in_progress).

Definition srv_completed_twice : Server :=
  snd (complete sample_env "ride-A" driver_rates_5 srv_completed_once).

Definition rides_done (id : string) (srv : Server) : option Q :=
  match getUser id (storage srv) with
  | Some u => Some (completedRides u)
  | None => None
  end.


(** A store with one driver whose average is 4.0 over 10 rides, driving a
    ride that is in progress. *)
Definition example_driver : User :=
  {| user_id := "driver-D"; walletAddress := "0xD"; role := role_driver;
     reputation := 80; completedRides := 10;
     avgRating := Binary64.Number 4.0; balance := Binary64.Number 100;
     name := Some "D" |}.

Definition example_ride : Ride :=
  {| ride_id := "ride-D"; customerId := "customer-C";
     driverId := Some "driver-D";
     pickup := req_pickup sample_request; dropoff := req_dropoff sample_request;
     estimatedFare := 20; stakedAmount := 23; actualFare := None;
     status := in_progress; currentLocation := Some (req_pickup sample_request);
     createdAt := "2024-05-01T09:00:00.000Z";
     startedAt := Some "2024-05-01T09:30:00.000Z"; completedAt := None;
     customerRating := None; driverRating := None;
     customerFeedback := None; driverFeedback := None |}.

Definition example_server : Server :=
  {| storage := {| users := [("driver-D", example_driver)];
                   rides := [("ride-D", example_ride)] |};
     rideSubscriptions := ∅; rideLocations := ∅; subscribedRideId := ∅;
     sent := [] |}.

Definition customer_rates_5 : CompleteBody :=
  {| completedBy := role_customer; rating := Some 5%Q; feedback := None |}.

(** A completion that carries no rating. *)
Definition driver_completes : CompleteBody :=
  {| completedBy := role_driver; rating := None; feedback := None |}.

(** The double [1.25 - 2^-50]. *)
Definition near_half_rating : Q := (1407374883553279 # 1125899906842624)%Q.

Definition driver_rates_near_half : CompleteBody :=
  {| completedBy := role_driver; rating := Some near_half_rating;
     feedback := None |}.


(** Connection [ws] is in the subscriber set of ride [id]. *)
Definition subscribed_to (srv : Server) (ws : nat) (id : string) : Prop :=
  exists subs, rideSubscriptions srv !! id = Some subs /\ ws ∈ subs.

(** The registry and the [subscribedRideId] variables agree: no ride is
    registered with an empty set, a connection is only in the set of the
    ride its variable names, and the variables never hold an empty string. *)
Definition registry_ok (srv : Server) : Prop :=
  (forall id subs, rideSubscriptions srv !! id = Some subs -> subs <> ∅) /\
  (forall ws id, subscribed_to srv ws id -> subscribedRideId srv !! ws = Some id) /\
  (forall ws id, subscribedRideId srv !! ws = Some id -> truthy_str id = true).

Definition subscribe_msg (rideId : string) : option WsMessage :=
  Some {| msg_type := ty_subscribe; msg_rideId := Some rideId; msg_data := None |}.

Definition unsubscribe_msg : option WsMessage :=
  Some {| msg_type := ty_unsubscribe; msg_rideId := None; msg_data := None |}.

Definition location_msg (rideId : string) (x y : Q) : option WsMessage :=
  Some {| msg_type := ty_location_update; msg_rideId := Some rideId;
          msg_data := Some {| d_lat := x; d_lng := y; d_timestamp := None;
                              d_speed := None |} |}.

(** Two connections watch ride "r1"; the first moves on to "r2", the second
    unsubscribes; a third one subscribes to "r1" and disconnects. *)
Definition trace_live : list (Env * Event) :=
  [ (sample_env, EvMessage 1 (subscribe_msg "r1"));
    (sample_env, EvMessage 2 (subscribe_msg "r1"));
    (sample_env, EvMessage 1 (subscribe_msg "r2"));
    (sample_env, EvMessage 2 unsubscribe_msg);
    (sample_env, EvMessage 3 (subscribe_msg "r1"));
    (sample_env, EvClose 3) ].

(** One connection subscribes to ride "r1". *)
Definition trace_one_subscriber : list (Env * Event) :=
  [ (sample_env, EvMessage 1 (subscribe_msg "r1")) ].

Definition srv_live : Server :=
  run trace_live (init_server "2024-05-01T09:00:00.000Z").


(** The live-channel bookkeeping of [srv'] is that of [srv]. *)
Definition same_registry (srv srv' : Server) : Prop :=
  rideSubscriptions srv' = rideSubscriptions srv /\
  subscribedRideId srv' = subscribedRideId srv.


(** The registry once the subscribe handler has left the previous ride. *)
Definition registry_after_leaving (ws : nat) (srv : Server)
  : gmap string (gset nat) :=
  match subscribedRideId srv !! ws with
  | Some prev =>
      if truthy_str prev
      then drop_subscriber ws prev (rideSubscriptions srv)
      else rideSubscriptions srv
  | None => rideSubscriptions srv
  end.

(** The frame that answers a subscription to [rideId], if any. *)
Definition location_frames (ws : nat) (rideId : string) (srv : Server)
  : list (nat * Frame) :=
  match rideLocations srv !! rideId with
  | Some currentLocation => [(ws, FrameLocation currentLocation)]
  | None => []
  end.


(* ===================================================================== *)
(** ** Read endpoints of the store (server/storage.ts) *)
(* ===================================================================== *)

(** An entry of [GET /api/rides/available]. *)
Record AvailableRide : Type := {
  av_rideId : string;
  av_pickup : Location;
  av_dropoff : Location;
  av_fare : Q;
  av_customerRating : PrimFloat.float;
  av_customerName : string;
  av_distance : Q
}.

(** The object pushed for one waiting ride. [Math_sqrt] stands for
    [Math.sqrt], which has no exact counterpart on the rationals;
    [Math.pow(x, 2)] is the exact square. *)
Definition available_entry (Math_sqrt : Q -> Q) (st : MemStorage) (ride : Ride)
  : AvailableRide :=
  let customer := getUser (customerId ride) st in
  let distance : Q :=
    (Math_sqrt ((lat (pickup ride) - lat (dropoff ride)) ^ 2
                + (lng (pickup ride) - lng (dropoff ride)) ^ 2) * 111)%Q in
  {| av_rideId := ride_id ride;
     av_pickup := pickup ride;
     av_dropoff := dropoff ride;
     av_fare := estimatedFare ride;
     av_customerRating :=
       match customer with
       | Some c => if Binary64.truthy (avgRating c) then avgRating c
                  else Binary64.Number 4.0
       | None => Binary64.Number 4.0
       end;
     av_customerName :=
       match customer with
       | Some c => or_else (name c) "Customer"
       | None => "Customer"
       end;
     av_distance := (Math_round (distance * 10) / 10)%Q |}.

Definition getAvailableRides (Math_sqrt : Q -> Q) (st : MemStorage)
  : list AvailableRide :=
  let waitingRides :=
    List.filter (fun ride => status_eqb (status ride) waiting)
                (JsMap.values (rides st)) in
  map (available_entry Math_sqrt st) waitingRides.

(** [Array.prototype.sort] with a comparator into the numbers: the stable
    sort, written as an insertion sort. An element is placed after those
    that the comparator puts strictly before it. *)
Fixpoint sort_insert {A : Type} (cmp : A -> A -> Q) (x : A) (l : list A)
  : list A :=
  match l with
  | [] => [x]
  | y :: l' =>
      if Qle_bool 0 (cmp y x) then x :: y :: l'
      else y :: sort_insert cmp x l'
  end.

Definition Array_sort {A : Type} (cmp : A -> A -> Q) (l : list A) : list A :=
  foldr (sort_insert cmp) [] l.

(** The predicate that [getRideHistory] hands to [filter]. *)
Definition in_history_of (user : User) (userId : string) (ride : Ride) : bool :=
  if negb (status_eqb (status ride) completed)
     && negb (status_eqb (status ride) cancelled)
  then false
  else if role_eqb (role user) role_customer
       then String.eqb (customerId ride) userId
       else strict_eq (js_nullable (driverId ride)) (js_string userId).

(** [new Date(r.completedAt || r.createdAt).getTime()]; [Date_getTime]
    stands for the parsing of the time stamp. *)
Definition history_time (Date_getTime : string -> Q) (r : Ride) : Q :=
  Date_getTime (or_else (completedAt r) (createdAt r)).

Definition getRideHistory (Date_getTime : string -> Q) (userId : string)
    (st : MemStorage) : list Ride :=
  match getUser userId st with
  | None => []
  | Some user =>
      take 10
        (Array_sort
           (fun a b => (history_time Date_getTime b
                        - history_time Date_getTime a)%Q)
           (List.filter (in_history_of user userId) (JsMap.values (rides st))))
  end.

(* ===================================================================== *)
(** ** Predicates of the further statements *)
(* ===================================================================== *)

(** One event's worth of change of a stored ride: the request data never
    change, and status, driver, time stamps and fare either all stay or
    move along one edge of the life cycle. *)
Definition ride_evolves (env : Env) (r r' : Ride) : Prop :=
  (ride_id r' = ride_id r /\ customerId r' = customerId r /\
   pickup r' = pickup r /\ dropoff r' = dropoff r /\
   estimatedFare r' = estimatedFare r /\ stakedAmount r' = stakedAmount r /\
   createdAt r' = createdAt r) /\
  ((status r' = status r /\ driverId r' = driverId r /\
    startedAt r' = startedAt r /\ completedAt r' = completedAt r /\
    actualFare r' = actualFare r)
   \/ (status r = waiting /\ status r' = accepted /\
       (exists d, driverId r' = Some d) /\
       startedAt r' = startedAt r /\ completedAt r' = completedAt r /\
       actualFare r' = actualFare r)
   \/ (status r = accepted /\ status r' = in_progress /\
       driverId r' = driverId r /\
       startedAt r' = Some (now env) /\ completedAt r' = completedAt r /\
       actualFare r' = actualFare r)
   \/ (status r = in_progress /\ status r' = completed /\
       driverId r' = driverId r /\
       startedAt r' = startedAt r /\ completedAt r' = Some (now env) /\
       actualFare r' = Some (estimatedFare r))
   \/ ((status r = waiting \/ status r = accepted) /\ status r' = cancelled /\
       driverId r' = driverId r /\
       startedAt r' = startedAt r /\ completedAt r' = Some (now env) /\
       actualFare r' = actualFare r)).

(** The event is a ride request whose fresh identifier is [k]. *)
Definition requests_ride_id (k : string) (ee : Env * Event) : Prop :=
  match snd ee with
  | EvRideRequest _ => uuid (fst ee) = k
  | _ => False
  end.

(** Time stamps and fare of a stored ride fit its status. *)
Definition times_match_status (r : Ride) : Prop :=
  (startedAt r <> None <-> status r = in_progress \/ status r = completed) /\
  (completedAt r <> None <-> status r = completed \/ status r = cancelled) /\
  (status r = completed -> actualFare r = Some (estimatedFare r)) /\
  (status r <> completed -> actualFare r = None).

(** The keys of the [rides] map, in insertion order. *)
Definition ride_keys (st : MemStorage) : list string := map fst (rides st).


(** Newest first: [a] may stand before [b] in a history. *)
Definition newest_first (Date_getTime : string -> Q) (a b : Ride) : Prop :=
  (history_time Date_getTime b <= history_time Date_getTime a)%Q.

(** The identifiers listed by [GET /api/rides/available]. *)
Definition available_ids (Math_sqrt : Q -> Q) (st : MemStorage) : list string :=
  map av_rideId (getAvailableRides Math_sqrt st).


(** The sample that the [location_update] handler builds from the message
    data. *)
Definition location_sample (env : Env) (messageData : LocationData)
  : LocationUpdate :=
  {| upd_lat := d_lat messageData;
     upd_lng := d_lng messageData;
     timestamp := if truthy_num (d_timestamp messageData)
                  then over (d_timestamp messageData) (nowMs env)
                  else nowMs env;
     speed := d_speed messageData |}.


(* ===================================================================== *)
(** ** Facts about [JsMap] *)
(* ===================================================================== *)

Lemma get_set_eq {V : Type} (k : string) (v : V) (m : list (string * V)) :
  JsMap.get k (JsMap.set k v m) = Some v.
Proof.
  induction m as [|[k' v'] m IH]; simpl.
  - by rewrite String.eqb_refl.
  - destruct (String.eqb k' k) eqn:E; simpl.
    + by rewrite String.eqb_refl.
    + by rewrite E.
Qed.

Lemma get_set_ne {V : Type} (k k' : string) (v : V) (m : list (string * V)) :
  k ≠ k' -> JsMap.get k' (JsMap.set k v m) = JsMap.get k' m.
Proof.
  intros Hne. induction m as [|[k0 v0] m IH]; simpl.
  - destruct (String.eqb_spec k k'); [contradiction | done].
  - destruct (String.eqb_spec k0 k) as [->|Hk0]; simpl.
    + destruct (String.eqb_spec k k'); [contradiction | done].
    + destruct (String.eqb_spec k0 k'); [done | apply IH].
Qed.

Lemma get_elem_of {V : Type} (k : string) (v : V) (m : list (string * V)) :
  JsMap.get k m = Some v -> (k, v) ∈ m.
Proof.
  induction m as [|[k' v'] m IH]; simpl; [done|].
  destruct (String.eqb_spec k' k) as [->|Hne]; intros H.
  - injection H as ->. apply list_elem_of_here.
  - apply list_elem_of_further, IH, H.
Qed.

Lemma elem_of_get {V : Type} (k : string) (v : V) (m : list (string * V)) :
  (k, v) ∈ m -> is_Some (JsMap.get k m).
Proof.
  induction m as [|[k' v'] m IH]; simpl.
  - intros H. by apply not_elem_of_nil in H.
  - intros H. destruct (String.eqb_spec k' k) as [->|Hne]; [by eexists|].
    apply elem_of_cons in H as [H|H]; [congruence | by apply IH].
Qed.

Lemma elem_of_set {V : Type} (k : string) (v : V) (m : list (string * V))
    (kv : string * V) :
  kv ∈ JsMap.set k v m -> kv = (k, v) \/ kv ∈ m.
Proof.
  induction m as [|[k' v'] m IH]; simpl.
  - intros H. apply list_elem_of_singleton in H. by left.
  - destruct (String.eqb k' k).
    + intros H. apply elem_of_cons in H as [H|H]; [by left|].
      right. by apply list_elem_of_further.
    + intros H. apply elem_of_cons in H as [H|H].
      * right. rewrite H. apply list_elem_of_here.
      * destruct (IH H) as [?|?]; [by left|].
        right. by apply list_elem_of_further.
Qed.

Lemma elem_of_values {V : Type} (v : V) (m : list (string * V)) :
  v ∈ JsMap.values m <-> exists k, (k, v) ∈ m.
Proof.
  unfold JsMap.values. induction m as [|[k' v'] m IH]; simpl.
  - split; [intros H | intros [k H]]; by apply not_elem_of_nil in H.
  - rewrite elem_of_cons, IH. split.
    + intros [->|[k H]]; [exists k'; apply list_elem_of_here|].
      exists k. by apply list_elem_of_further.
    + intros [k H]. apply elem_of_cons in H as [H|H]; [left; congruence|].
      right. by exists k.
Qed.

Lemma array_find_Some {A : Type} (p : A -> bool) (l : list A) (x : A) :
  array_find p l = Some x -> x ∈ l /\ p x = true.
Proof.
  induction l as [|y l IH]; simpl; [done|].
  destruct (p y) eqn:E; intros H.
  - injection H as ->. split; [apply list_elem_of_here | done].
  - destruct (IH H). split; [by apply list_elem_of_further | done].
Qed.

Lemma array_find_None {A : Type} (p : A -> bool) (l : list A) (x : A) :
  array_find p l = None -> x ∈ l -> p x = false.
Proof.
  induction l as [|y l IH]; simpl.
  - intros _ H. by apply not_elem_of_nil in H.
  - destruct (p y) eqn:E; [done|]. intros Hn H.
    apply elem_of_cons in H as [->|H]; [done | by apply IH].
Qed.

(* ===================================================================== *)
(** ** What each operation does to the store *)
(* ===================================================================== *)

Lemma status_eqb_eq (a b : RideStatus) : status_eqb a b = true <-> a = b.
Proof. destruct a, b; simpl; split; congruence. Qed.

Lemma storage_broadcast env rideId payload srv :
  storage (broadcastRideStatus env rideId payload srv) = storage srv.
Proof. unfold broadcastRideStatus. by destruct (_ !! _). Qed.

Lemma rides_updateUser id updates st :
  rides (snd (updateUser id updates st)) = rides st.
Proof. unfold updateUser. by destruct (JsMap.get _ _). Qed.

Lemma updateRide_found id updates st ride :
  getRide id st = Some ride ->
  updateRide id updates st =
  (Some (spread_ride ride updates),
   with_rides (JsMap.set id (spread_ride ride updates) (rides st)) st).
Proof. unfold updateRide, getRide. by intros ->. Qed.

Lemma rides_rating_step ride body updates st :
  rides (snd (rating_step ride body updates st)) = rides st.
Proof.
  unfold rating_step.
  repeat match goal with
         | |- context [if ?b then _ else _] => destruct b
         | |- context [match ?o with Some _ => _ | None => _ end] => destruct o
         end; simpl; auto using rides_updateUser.
Qed.

Lemma status_rating_step ride body updates st :
  p_status (fst (rating_step ride body updates st)) = p_status updates /\
  p_driverId (fst (rating_step ride body updates st)) = p_driverId updates /\
  p_completedAt (fst (rating_step ride body updates st)) = p_completedAt updates /\
  p_actualFare (fst (rating_step ride body updates st)) = p_actualFare updates.
Proof.
  unfold rating_step.
  repeat match goal with
         | |- context [if ?b then _ else _] => destruct b
         | |- context [match ?o with Some _ => _ | None => _ end] => destruct o
         end; simpl; auto.
Qed.

(* ===================================================================== *)
(** ** Invariants of the runs *)
(* ===================================================================== *)

Lemma run_invariant (I : Server -> Prop) :
  (forall srv ee, I srv -> I (step srv ee)) ->
  forall trace srv, I srv -> I (run trace srv).
Proof.
  intros Hstep trace. unfold run.
  induction trace as [|ee trace IH]; simpl; intros srv H; [done|].
  apply IH, Hstep, H.
Qed.

Lemma run_snoc trace ee srv : run (trace ++ [ee]) srv = step (run trace srv) ee.
Proof. unfold run. by rewrite foldl_app. Qed.

Lemma reachable_init created : reachable (init_server created).
Proof. by exists created, []. Qed.

Lemma reachable_step srv ee : reachable srv -> reachable (step srv ee).
Proof.
  intros (created & trace & ->). exists created, (trace ++ [ee]).
  by rewrite run_snoc.
Qed.

Lemma reachable_invariant (I : Server -> Prop) :
  (forall created, I (init_server created)) ->
  (forall srv ee, I srv -> I (step srv ee)) ->
  forall srv, reachable srv -> I srv.
Proof.
  intros Hinit Hstep srv (created & trace & ->).
  by apply run_invariant.
Qed.

Lemma rides_all_set P id r' st st' :
  rides_all P st -> P id r' -> rides st' = JsMap.set id r' (rides st) ->
  rides_all P st'.
Proof.
  intros Hall Hnew Hrides k r. rewrite Hrides.
  intros [Heq|Hin]%elem_of_set; [|by apply Hall].
  by injection Heq as -> ->.
Qed.

Lemma rides_all_get P k r st :
  rides_all P st -> getRide k st = Some r -> P k r.
Proof. intros Hall Hget. by apply Hall, get_elem_of. Qed.

Lemma stored_ok_seed created : rides_all stored_ok (seedDemoData created).
Proof.
  intros k r H. simpl in H.
  repeat (apply elem_of_cons in H as [H|H];
          [injection H as -> ->; repeat split; simpl; auto; discriminate|]).
  by apply not_elem_of_nil in H.
Qed.

Lemma stored_ok_accept env rideId driver_id srv :
  rides_all stored_ok (storage srv) ->
  rides_all stored_ok (storage (snd (accept env rideId driver_id srv))).
Proof.
  intros H. unfold accept.
  destruct (getRide rideId (storage srv)) as [ride|] eqn:Hget; [|done].
  destruct (negb _); [done|].
  destruct (getActiveRide _ _); [done|].
  rewrite (updateRide_found _ _ _ _ Hget). simpl.
  rewrite storage_broadcast. simpl.
  destruct (rides_all_get _ _ _ _ H Hget) as [Hid _].
  eapply rides_all_set; [exact H| |reflexivity].
  repeat split; simpl; auto; discriminate.
Qed.

Lemma stored_ok_start env rideId bodyDriverId srv :
  rides_all stored_ok (storage srv) ->
  rides_all stored_ok (storage (snd (start env rideId bodyDriverId srv))).
Proof.
  intros H. unfold start.
  destruct (getRide rideId (storage srv)) as [ride|] eqn:Hget; [|done].
  destruct (negb _) eqn:Hst; [done|].
  destruct (negb (strict_eq _ _)) eqn:Hdrv; [done|].
  rewrite (updateRide_found _ _ _ _ Hget). simpl.
  rewrite storage_broadcast. simpl.
  apply negb_false_iff, status_eqb_eq in Hst.
  destruct (rides_all_get _ _ _ _ H Hget) as [Hid [Hw Hd]].
  eapply rides_all_set; [exact H| |reflexivity].
  repeat split; simpl; auto; [discriminate|].
  intros Hnone. destruct (Hd Hnone); congruence.
Qed.

(** The answer and the store after [complete] on a ride that exists. *)
Lemma complete_found env rideId body srv ride :
  rideCompleteSchema body = true ->
  getRide rideId (storage srv) = Some ride ->
  let stepped :=
    rating_step ride body (completion_updates env ride) (storage srv) in
  fst (complete env rideId body srv)
    = JsonRide (Some (spread_ride ride (fst stepped))) /\
  storage (snd (complete env rideId body srv))
    = {| users := users (snd stepped);
         rides := JsMap.set rideId (spread_ride ride (fst stepped))
                            (rides (storage srv)) |}.
Proof.
  intros Hvalid Hget stepped. unfold complete. rewrite Hvalid, Hget. simpl.
  fold stepped. destruct stepped as [updates st] eqn:Hstep.
  assert (rides st = rides (storage srv)) as Hrides.
  { replace st with (snd stepped) by (by rewrite Hstep).
    apply rides_rating_step. }
  assert (getRide rideId st = Some ride) as Hget'.
  { unfold getRide. by rewrite Hrides. }
  rewrite (updateRide_found _ _ _ _ Hget'). simpl. rewrite Hrides.
  split; [done|].
  destruct (p_status updates) as [[]|]; simpl; auto using storage_broadcast.
Qed.

Lemma completion_updates_cases env ride :
  (status ride = in_progress /\
   p_status (completion_updates env ride) = Some completed /\
   p_driverId (completion_updates env ride) = None /\
   p_completedAt (completion_updates env ride) = Some (Some (now env)) /\
   p_actualFare (completion_updates env ride) = Some (Some (estimatedFare ride)))
  \/ completion_updates env ride = no_updates.
Proof.
  unfold completion_updates.
  destruct (status_eqb (status ride) in_progress) eqn:E; simpl; [|by right].
  destruct (negb _); [|by right].
  left. by apply status_eqb_eq in E.
Qed.

Lemma stored_ok_complete env rideId body srv :
  rides_all stored_ok (storage srv) ->
  rides_all stored_ok (storage (snd (complete env rideId body srv))).
Proof.
  intros H.
  destruct (rideCompleteSchema body) eqn:Hvalid;
    [|by unfold complete; rewrite Hvalid].
  destruct (getRide rideId (storage srv)) as [ride|] eqn:Hget;
    [|by unfold complete; rewrite Hvalid, Hget].
  destruct (complete_found env _ _ _ _ Hvalid Hget) as [_ Hst].
  destruct (rides_all_get _ _ _ _ H Hget) as [Hid [Hw Hd]].
  eapply rides_all_set; [exact H| |by rewrite Hst].
  destruct (status_rating_step ride body (completion_updates env ride)
              (storage srv)) as (Hs & Hdr & _).
  unfold stored_ok, driver_matches_status. simpl. rewrite Hs, Hdr.
  destruct (completion_updates_cases env ride) as [(Hin & -> & -> & _)| ->].
  - simpl. repeat split; auto; [discriminate|].
    intros Hnone. destruct (Hd Hnone); congruence.
  - simpl. auto.
Qed.

Lemma stored_ok_cancel env rideId userId srv :
  rides_all stored_ok (storage srv) ->
  rides_all stored_ok (storage (snd (cancel env rideId userId srv))).
Proof.
  intros H. unfold cancel.
  destruct (getRide rideId (storage srv)) as [ride|] eqn:Hget; [|done].
  destruct (negb (status_eqb (status ride) waiting)
            && negb (status_eqb (status ride) accepted)); [done|].
  destruct (negb (strict_eq (js_string (customerId ride)) userId)
            && negb (strict_eq (js_nullable (driverId ride)) userId));
    [done|].
  rewrite (updateRide_found _ _ _ _ Hget). simpl.
  rewrite storage_broadcast. simpl.
  destruct (rides_all_get _ _ _ _ H Hget) as [Hid _].
  eapply rides_all_set; [exact H| |reflexivity].
  repeat split; simpl; auto; discriminate.
Qed.

Lemma stored_ok_rideRequest env body srv :
  rides_all stored_ok (storage srv) ->
  rides_all stored_ok (storage (snd (rideRequest env body srv))).
Proof.
  intros H. unfold rideRequest. simpl.
  eapply rides_all_set; [exact H| |reflexivity].
  repeat split; simpl; auto; discriminate.
Qed.

Lemma stored_ok_authConnect env wallet rl srv :
  rides_all stored_ok (storage srv) ->
  rides_all stored_ok (storage (snd (authConnect env wallet rl srv))).
Proof. intros H. unfold authConnect. by destruct (getUserByWallet _ _). Qed.

Lemma storage_on_message env ws message srv :
  storage (on_message env ws message srv) = storage srv \/
  exists rideId loc,
    storage (on_message env ws message srv)
    = snd (updateRide rideId
             {| p_driverId := None; p_status := None;
                p_currentLocation := Some (Some loc);
                p_startedAt := None; p_completedAt := None;
                p_actualFare := None; p_customerRating := None;
                p_driverRating := None; p_customerFeedback := None;
                p_driverFeedback := None |}
             (storage srv)).
Proof.
  destruct message as [[ty rideId data]|]; [|by left]. unfold on_message. simpl.
  destruct ty.
  - unfold on_location_update.
    destruct rideId as [rideId|]; [|by left].
    destruct data as [data|]; [|by left].
    destruct (truthy_str rideId); [|by left].
    right. eexists rideId, _. simpl.
    by destruct (rideSubscriptions srv !! rideId).
  - by left.
  - left. unfold on_subscribe.
    destruct rideId as [rideId|]; [|done].
    destruct (truthy_str rideId); [|done]. simpl.
    by destruct (rideLocations srv !! rideId).
  - left. unfold on_unsubscribe.
    destruct (subscribedRideId srv !! ws) as [cur|]; [|done].
    by destruct (truthy_str cur).
Qed.

Lemma storage_on_close ws srv : storage (on_close ws srv) = storage srv.
Proof.
  unfold on_close. destruct (subscribedRideId srv !! ws) as [cur|]; [|done].
  by destruct (truthy_str cur).
Qed.

Lemma stored_ok_on_message env ws message srv :
  rides_all stored_ok (storage srv) ->
  rides_all stored_ok (storage (on_message env ws message srv)).
Proof.
  intros H.
  destruct (storage_on_message env ws message srv) as [->|(rideId & loc & ->)];
    [done|].
  destruct (getRide rideId (storage srv)) as [ride|] eqn:Hget.
  - rewrite (updateRide_found _ _ _ _ Hget). simpl.
    destruct (rides_all_get _ _ _ _ H Hget) as [Hid Hok].
    eapply rides_all_set; [exact H| |reflexivity]. by split.
  - unfold updateRide. unfold getRide in Hget. by rewrite Hget.
Qed.

(** Every step keeps the rides well stored. *)
Lemma stored_ok_step srv ee :
  rides_all stored_ok (storage srv) ->
  rides_all stored_ok (storage (step srv ee)).
Proof.
  destruct ee as [env []]; cbv beta iota delta [step];
    auto using stored_ok_authConnect, stored_ok_rideRequest, stored_ok_accept,
               stored_ok_start, stored_ok_complete, stored_ok_cancel,
               stored_ok_on_message.
  intros H. by rewrite storage_on_close.
Qed.

Lemma stored_ok_reachable srv :
  reachable srv -> rides_all stored_ok (storage srv).
Proof.
  apply (reachable_invariant (fun srv => rides_all stored_ok (storage srv))).
  - intros created. apply stored_ok_seed.
  - apply stored_ok_step.
Qed.

(* ===================================================================== *)
(** ** Driver and status of a stored ride *)
(* ===================================================================== *)

(** C1, as amended. In every state the server can reach through its
    operations (request, accept, start, complete, cancel, and the live
    channel), a stored ride that is waiting has no driver, and a stored
    ride without a driver is waiting or cancelled: for a ride that is not
    cancelled, [driverId] is null exactly when the status is [waiting]. *)
Theorem driver_null_only_waiting_or_cancelled srv k r :
  reachable srv ->
  getRide k (storage srv) = Some r ->
  (status r = waiting -> driverId r = None) /\
  (driverId r = None -> status r = waiting \/ status r = cancelled) /\
  (status r <> cancelled -> (driverId r = None <-> status r = waiting)).
Proof.
  intros Hreach Hget.
  destruct (rides_all_get _ _ _ _ (stored_ok_reachable _ Hreach) Hget)
    as [_ [Hw Hd]].
  repeat split; auto.
  intros Hnone. destruct (Hd Hnone); [done | contradiction].
Qed.

Lemma driver_null_only_waiting_or_cancelled_witness :
  reachable srv_accepted /\
  getRide "ride-A" (storage srv_accepted) = Some ride_A_accepted /\
  (driverId ride_A_accepted = None <-> status ride_A_accepted = waiting).
Proof.
  assert (reachable srv_accepted) as Hreach by (by eexists _, _).
  assert (getRide "ride-A" (storage srv_accepted) = Some ride_A_accepted)
    as Hget by (vm_compute; reflexivity).
  split; [exact Hreach|]. split; [exact Hget|].
  apply (driver_null_only_waiting_or_cancelled _ _ _ Hreach Hget).
  discriminate.
Defined.

(** C1 as stated fails: a ride that its customer cancels while it is still
    waiting keeps a null [driverId] under the status [cancelled]. *)
Lemma driver_null_iff_waiting_counterexample :
  reachable srv_cancelled /\
  getRide "ride-A" (storage srv_cancelled) = Some ride_A_cancelled /\
  driverId ride_A_cancelled = None /\
  status ride_A_cancelled = cancelled /\
  ~ (driverId ride_A_cancelled = None <-> status ride_A_cancelled = waiting).
Proof.
  split; [by eexists _, _|].
  split; [vm_compute; reflexivity|].
  split; [reflexivity|]. split; [reflexivity|].
  intros [H _]. specialize (H eq_refl). discriminate H.
Qed.

(* ===================================================================== *)
(** ** Accepting a ride *)
(* ===================================================================== *)

(** C3. Accepting a ride whose status is not [waiting] is answered with
    the conflict "Ride is no longer available" (status 400), and the whole
    server state, hence every stored field of the ride, is as before. *)
Theorem accept_not_waiting_conflict env rideId driver_id srv ride :
  getRide rideId (storage srv) = Some ride ->
  status ride <> waiting ->
  accept env rideId driver_id srv = (Fail 400 "Ride is no longer available", srv) /\
  error_kind (fst (accept env rideId driver_id srv)) = Some Conflict /\
  getRide rideId (storage (snd (accept env rideId driver_id srv))) = Some ride.
Proof.
  intros Hget Hst.
  assert (accept env rideId driver_id srv
          = (Fail 400 "Ride is no longer available", srv)) as Heq.
  { unfold accept. rewrite Hget.
    destruct (status_eqb (status ride) waiting) eqn:E; [|done].
    by apply status_eqb_eq in E. }
  rewrite Heq. by repeat split.
Qed.

Lemma accept_not_waiting_conflict_witness :
  getRide "ride-A" (storage srv_accepted) = Some ride_A_accepted /\
  status ride_A_accepted <> waiting /\
  accept sample_env "ride-A" "demo-driver-2" srv_accepted
  = (Fail 400 "Ride is no longer available", srv_accepted).
Proof.
  assert (getRide "ride-A" (storage srv_accepted) = Some ride_A_accepted)
    as Hget by (vm_compute; reflexivity).
  assert (status ride_A_accepted <> waiting) as Hst by discriminate.
  split; [exact Hget|]. split; [exact Hst|].
  apply (accept_not_waiting_conflict sample_env _ "demo-driver-2" _ _ Hget Hst).
Defined.

Lemma getRideWithDetails_is_Some id st :
  is_Some (JsMap.get id (rides st)) -> is_Some (getRideWithDetails id st).
Proof. intros [r Hr]. unfold getRideWithDetails. rewrite Hr. by eexists. Qed.

(** A registered driver who is the driver of an active ride has an active
    ride in the eyes of [getActiveRide]. *)
Lemma getActiveRide_driver st d u k r :
  rides_all stored_ok st ->
  getUser d st = Some u -> role u = role_driver ->
  getRide k st = Some r ->
  includes activeStatuses (status r) = true ->
  driverId r = Some d ->
  is_Some (getActiveRide d st).
Proof.
  intros Hok Hu Hrole Hr Hact Hd. unfold getActiveRide. rewrite Hu.
  destruct (array_find _ _) as [a|] eqn:Hfind.
  - apply array_find_Some in Hfind as [Hin _].
    apply elem_of_values in Hin as [k' Hin].
    destruct (Hok _ _ Hin) as [-> _].
    by eapply getRideWithDetails_is_Some, elem_of_get.
  - assert (r ∈ JsMap.values (rides st)) as Hin.
    { apply elem_of_values. exists k. by apply get_elem_of. }
    apply (array_find_None _ _ _ Hfind) in Hin.
    unfold is_active_for in Hin. rewrite Hact, Hrole, Hd in Hin. simpl in Hin.
    by rewrite String.eqb_refl in Hin.
Qed.

(** C4, as amended. In a reachable state, a registered driver (a user of
    the store whose role is [driver]) who is the driver of a ride in
    [waiting], [accepted] or [in_progress] cannot accept any stored ride:
    the call is answered with a conflict (status 400) and nothing changes,
    so no driver is assigned to that ride. *)
Theorem accept_second_ride_conflict env srv d u k1 r1 k2 r2 :
  reachable srv ->
  getUser d (storage srv) = Some u -> role u = role_driver ->
  getRide k1 (storage srv) = Some r1 -> driverId r1 = Some d ->
  status r1 = waiting \/ status r1 = accepted \/ status r1 = in_progress ->
  getRide k2 (storage srv) = Some r2 ->
  exists message,
    accept env k2 d srv = (Fail 400 message, srv) /\
    error_kind (fst (accept env k2 d srv)) = Some Conflict /\
    getRide k2 (storage (snd (accept env k2 d srv))) = Some r2.
Proof.
  intros Hreach Hu Hrole Hr1 Hd Hact Hr2.
  assert (includes activeStatuses (status r1) = true) as Hinc
    by (by destruct Hact as [->|[->| ->]]).
  assert (is_Some (getActiveRide d (storage srv))) as [a Ha]
    by (apply (getActiveRide_driver _ d u k1 r1);
        auto using stored_ok_reachable).
  unfold accept. rewrite Hr2, Ha.
  destruct (negb _); eexists; by repeat split.
Qed.

Lemma accept_second_ride_conflict_witness :
  exists message,
    accept sample_env "demo-ride-2" "demo-driver-1" srv_accepted
    = (Fail 400 message, srv_accepted).
Proof.
  assert (reachable srv_accepted) as Hreach by (by eexists _, _).
  edestruct (accept_second_ride_conflict sample_env srv_accepted "demo-driver-1")
    with (k1 := "ride-A") (r1 := ride_A_accepted) (k2 := "demo-ride-2")
    as (message & Heq & _).
  - exact Hreach.
  - vm_compute; reflexivity.
  - reflexivity.
  - vm_compute; reflexivity.
  - reflexivity.
  - right; left; reflexivity.
  - vm_compute; reflexivity.
  - by exists message.
Defined.

(** Accepting a waiting ride for an identifier that no user has. *)
Lemma accept_unknown_driver env rideId d srv ride :
  getRide rideId (storage srv) = Some ride ->
  status ride = waiting ->
  getUser d (storage srv) = None ->
  getActiveRide d (storage srv) = None /\
  exists ride',
    fst (accept env rideId d srv) = JsonRide (Some ride') /\
    getRide rideId (storage (snd (accept env rideId d srv))) = Some ride' /\
    driverId ride' = Some d /\ status ride' = accepted.
Proof.
  intros Hget Hst Hu.
  assert (getActiveRide d (storage srv) = None) as Hact.
  { unfold getActiveRide. by rewrite Hu. }
  split; [done|].
  unfold accept. rewrite Hget, Hst, Hact. simpl.
  rewrite (updateRide_found _ _ _ _ Hget). simpl.
  eexists. split; [reflexivity|].
  rewrite storage_broadcast. unfold getRide. simpl.
  rewrite get_set_eq. by repeat split.
Qed.

(** C4 as stated fails for a driver identifier that is no user of the
    store: [getActiveRide] answers nothing for it, whatever rides name it
    as their driver. In the initial state "ghost" accepts "demo-ride-1";
    it is then the driver of that accepted ride, and its call of accept
    for "demo-ride-2" is answered with the ride, now [accepted] with
    [driverId] "ghost" as well. *)
Lemma accept_second_ride_unregistered_counterexample :
  exists r1 r2,
    reachable srv_ghost /\
    getRide "demo-ride-1" (storage srv_ghost) = Some r1 /\
    driverId r1 = Some "ghost" /\ status r1 = accepted /\
    fst (accept sample_env "demo-ride-2" "ghost" srv_ghost) = JsonRide (Some r2) /\
    error_kind (fst (accept sample_env "demo-ride-2" "ghost" srv_ghost)) = None /\
    getRide "demo-ride-2"
      (storage (snd (accept sample_env "demo-ride-2" "ghost" srv_ghost)))
    = Some r2 /\
    driverId r2 = Some "ghost" /\ status r2 = accepted.
Proof.
  assert (reachable srv_ghost) as Hreach.
  { apply (reachable_step _ (sample_env, EvAccept "demo-ride-1" "ghost")),
          reachable_init. }
  set (ride1 := stored_ride "demo-ride-1" srv_ghost ride_A_requested).
  set (ride2 := stored_ride "demo-ride-2" srv_ghost ride_A_requested).
  assert (getRide "demo-ride-1" (storage srv_ghost) = Some ride1) as Hget1
    by (vm_compute; reflexivity).
  assert (getRide "demo-ride-2" (storage srv_ghost) = Some ride2) as Hget2
    by (vm_compute; reflexivity).
  assert (getUser "ghost" (storage srv_ghost) = None) as Hu
    by (vm_compute; reflexivity).
  destruct (accept_unknown_driver sample_env _ _ _ _ Hget2 eq_refl Hu)
    as (_ & r2 & Hres & Hstored & Hd & Hs).
  exists ride1, r2. split; [exact Hreach|]. split; [exact Hget1|].
  split; [reflexivity|]. split; [reflexivity|].
  split; [exact Hres|]. split; [by rewrite Hres|]. by repeat split.
Qed.

(** C10. Some call of accept succeeds for a driver identifier that no user
    of the store has: in the initial state, where "ghost" is no user,
    looking up the active ride of "ghost" yields nothing, so accepting the
    waiting ride "demo-ride-1" for "ghost" answers with the ride, now
    [accepted] with [driverId] "ghost". *)
Theorem accept_succeeds_for_unknown_driver :
  exists srv rideId d ride',
    reachable srv /\
    getUser d (storage srv) = None /\
    getActiveRide d (storage srv) = None /\
    (exists ride, getRide rideId (storage srv) = Some ride /\ status ride = waiting) /\
    fst (accept sample_env rideId d srv) = JsonRide (Some ride') /\
    getRide rideId (storage (snd (accept sample_env rideId d srv))) = Some ride' /\
    driverId ride' = Some d /\ status ride' = accepted.
Proof.
  set (srv := init_server "2024-05-01T09:00:00.000Z").
  set (ride := stored_ride "demo-ride-1" srv ride_A_requested).
  assert (getRide "demo-ride-1" (storage srv) = Some ride) as Hget
    by (vm_compute; reflexivity).
  assert (status ride = waiting) as Hst by reflexivity.
  assert (getUser "ghost" (storage srv) = None) as Hu by reflexivity.
  destruct (accept_unknown_driver sample_env _ _ _ _ Hget Hst Hu)
    as (Hact & ride' & Hres & Hstored & Hd & Hs).
  exists srv, "demo-ride-1", "ghost", ride'.
  repeat split; try done.
  - apply reachable_init.
  - by exists ride.
Qed.

(* ===================================================================== *)
(** ** Completing a ride and rating the other party *)
(* ===================================================================== *)

Lemma valid_rating_truthy body q :
  rideCompleteSchema body = true -> rating body = Some q ->
  truthy_num (rating body) = true.
Proof.
  unfold rideCompleteSchema. intros Hvalid Hq. rewrite Hq in *. simpl.
  apply andb_true_iff in Hvalid as [Hlo _]. apply Qle_bool_iff in Hlo.
  destruct (Qeq_bool q 0) eqn:E; [|done].
  apply Qeq_bool_iff in E. rewrite E in Hlo. by apply Qle_not_lt in Hlo.
Qed.

Lemma updateUser_found id updates st user :
  getUser id st = Some user ->
  snd (updateUser id updates st)
  = with_users (JsMap.set id (spread_user user updates) (users st)) st.
Proof. unfold updateUser, getUser. by intros ->. Qed.

(** The users after the rating branches. *)
Lemma users_rating_step ride body updates st :
  rideCompleteSchema body = true ->
  users (snd (rating_step ride body updates st)) =
  match rating body, rated_party ride body st with
  | Some q, Some (id, u) =>
      JsMap.set id (spread_user u (rating_updates u q)) (users st)
  | _, _ => users st
  end.
Proof.
  intros Hvalid. unfold rating_step, rated_party.
  destruct (rating body) as [q|] eqn:Hq.
  - rewrite <- Hq, (valid_rating_truthy _ _ Hvalid Hq), Hq.
    destruct (completedBy body); simpl.
    + destruct (driverId ride) as [d|]; [|done].
      destruct (truthy_str d); [|done].
      destruct (getUser d st) as [u|] eqn:Hu; [|done].
      simpl. by rewrite (updateUser_found _ _ _ _ Hu).
    + destruct (getUser (customerId ride) st) as [u|] eqn:Hu; [|done].
      simpl. by rewrite (updateUser_found _ _ _ _ Hu).
  - simpl. by rewrite !andb_false_r.
Qed.

(** The users after [complete] on a ride that exists. *)
Lemma users_complete env rideId body srv ride :
  rideCompleteSchema body = true ->
  getRide rideId (storage srv) = Some ride ->
  users (storage (snd (complete env rideId body srv))) =
  match rating body, rated_party ride body (storage srv) with
  | Some q, Some (id, u) =>
      JsMap.set id (spread_user u (rating_updates u q)) (users (storage srv))
  | _, _ => users (storage srv)
  end.
Proof.
  intros Hvalid Hget.
  destruct (complete_found env _ _ _ _ Hvalid Hget) as [_ ->]. simpl.
  by apply users_rating_step.
Qed.

(** The rated party after [complete]: the fields that [rating_updates]
    writes, and nobody else touched. *)
Lemma complete_rates env rideId body srv ride q id u :
  rideCompleteSchema body = true ->
  getRide rideId (storage srv) = Some ride ->
  rating body = Some q ->
  rated_party ride body (storage srv) = Some (id, u) ->
  getUser id (storage (snd (complete env rideId body srv)))
    = Some (spread_user u (rating_updates u q)) /\
  forall id', id <> id' ->
    getUser id' (storage (snd (complete env rideId body srv)))
    = getUser id' (storage srv).
Proof.
  intros Hvalid Hget Hq Hparty. unfold getUser.
  rewrite (users_complete _ _ _ _ _ Hvalid Hget), Hq, Hparty.
  split; [apply get_set_eq | intros id' Hne; by apply get_set_ne].
Qed.

(** The stored ride after [complete]. *)
Lemma complete_stored env rideId body srv ride :
  rideCompleteSchema body = true ->
  getRide rideId (storage srv) = Some ride ->
  exists ride',
    fst (complete env rideId body srv) = JsonRide (Some ride') /\
    getRide rideId (storage (snd (complete env rideId body srv))) = Some ride' /\
    status ride' = over (p_status (completion_updates env ride)) (status ride) /\
    completedAt ride'
      = over (p_completedAt (completion_updates env ride)) (completedAt ride) /\
    actualFare ride'
      = over (p_actualFare (completion_updates env ride)) (actualFare ride) /\
    driverId ride' = driverId ride /\ customerId ride' = customerId ride.
Proof.
  intros Hvalid Hget.
  destruct (complete_found env _ _ _ _ Hvalid Hget) as [Hres Hst].
  eexists. split; [exact Hres|].
  rewrite Hst. unfold getRide. simpl. rewrite get_set_eq.
  destruct (status_rating_step ride body (completion_updates env ride)
              (storage srv)) as (Hs & Hd & Hc & Hf).
  simpl. rewrite Hs, Hd, Hc, Hf. repeat split; try done.
  by destruct (completion_updates_cases env ride) as [(_ & _ & -> & _)| ->].
Qed.

(** [Number] depends on the rational only, not on the fraction that
    denotes it. *)
Lemma Number_comp (p q : Q) : (p == q)%Q -> Binary64.Number p = Binary64.Number q.
Proof. intros Hpq. unfold Binary64.Number. by rewrite (Qred_complete _ _ Hpq). Qed.

Lemma rounded_average_comp avg c c' q q' :
  (c == c')%Q -> (q == q')%Q ->
  rounded_average avg c q = rounded_average avg c' q'.
Proof.
  intros Hc Hq. unfold rounded_average.
  by rewrite (Number_comp _ _ Hc), (Number_comp _ _ Hq).
Qed.

Lemma Math_min_cap (r : Q) :
  (Math_min 100 (r + 2) <= 100)%Q /\
  (r < 100 -> r < Math_min 100 (r + 2))%Q /\
  (r <= 100 -> r <= Math_min 100 (r + 2))%Q.
Proof.
  unfold Math_min. split; [apply Q.le_min_l|]. split; intros H.
  - apply Q.min_glb_lt; lra.
  - apply Q.min_glb; lra.
Qed.

(** C5, as amended. When a valid call of complete carries a rating [q]
    and the other party (the driver for a customer's rating, the customer
    for a driver's) is a user of the store, that user's [avgRating]
    becomes the value that binary64 arithmetic gives for
    [Math.round((avgRating * completedRides + q) / (completedRides + 1) * 10) / 10];
    [completedRides] grows by one; [reputation] becomes
    [Math.min(100, reputation + 2)], which is at most 100, larger than
    before below 100 and unchanged at 100; and no other user changes. In
    particular an average of 4.0 over 10 rides and a rating of 5 give 4.1
    over 11 rides. *)
Theorem rating_updates_other_party env rideId body srv ride q id u :
  rideCompleteSchema body = true ->
  getRide rideId (storage srv) = Some ride ->
  rating body = Some q ->
  rated_party ride body (storage srv) = Some (id, u) ->
  exists u',
    getUser id (storage (snd (complete env rideId body srv))) = Some u' /\
    avgRating u' = rounded_average (avgRating u) (completedRides u) q /\
    completedRides u' = (completedRides u + 1)%Q /\
    reputation u' = Math_min 100 (reputation u + 2) /\
    (reputation u' <= 100)%Q /\
    (reputation u < 100 -> reputation u < reputation u')%Q /\
    (reputation u <= 100 -> reputation u <= reputation u')%Q /\
    (forall id', id <> id' ->
       getUser id' (storage (snd (complete env rideId body srv)))
       = getUser id' (storage srv)) /\
    (avgRating u = Binary64.Number 4.0 ->
     (completedRides u == 10)%Q -> (q == 5)%Q ->
     avgRating u' = Binary64.Number 4.1 /\ (completedRides u' == 11)%Q).
Proof.
  intros Hvalid Hget Hq Hparty.
  destruct (complete_rates env _ _ _ _ _ _ _ Hvalid Hget Hq Hparty)
    as [Hu' Hothers].
  eexists. split; [exact Hu'|]. simpl.
  pose proof (Math_min_cap (reputation u)) as (Hcap & Hinc & Hmono).
  do 7 (split; [done|]).
  intros Ha Hc Hr. split; [|by rewrite Hc].
  rewrite Ha, (rounded_average_comp _ _ _ _ _ Hc Hr).
  vm_compute. reflexivity.
Qed.

Lemma rating_updates_other_party_witness :
  exists u',
    getUser "driver-D"
      (storage (snd (complete sample_env "ride-D" customer_rates_5 example_server)))
    = Some u' /\
    avgRating u' = Binary64.Number 4.1 /\ (completedRides u' == 11)%Q /\
    (reputation u' == 82)%Q.
Proof.
  destruct (rating_updates_other_party sample_env "ride-D" customer_rates_5
              example_server example_ride 5%Q "driver-D" example_driver)
    as (u' & Hu' & _ & _ & Hrep & _ & _ & _ & _ & Hex).
  - reflexivity.
  - reflexivity.
  - reflexivity.
  - reflexivity.
  - exists u'. split; [exact Hu'|].
    destruct Hex as [Havg Hcount]; [reflexivity..|].
    split; [exact Havg|]. split; [exact Hcount|].
    rewrite Hrep. reflexivity.
Defined.

(** C5 as stated fails: the stored average is not always the exact
    quotient rounded to one decimal. In the initial state the customer
    "demo-customer-1" has the average 4.5 over 12 rides. The driver side
    completes "demo-ride-1" with the rating [1.25 - 2^-50], a double
    between 1 and 5. The exact quotient [(4.5 * 12 + rating) / 13] is at
    least 4.2 and below 4.25, so it rounds to 4.2; in binary64 the sum
    rounds to 55.25, the quotient is 4.25, and the average stored is
    4.3. *)
Lemma rating_average_not_exact_counterexample :
  exists u u',
    rideCompleteSchema driver_rates_near_half = true /\
    rating driver_rates_near_half = Some near_half_rating /\
    (exists v, Binary64.value (Binary64.Number near_half_rating) = Some v /\
               v == near_half_rating)%Q /\
    getUser "demo-customer-1" (storage (init_server "2024-05-01T09:00:00.000Z"))
    = Some u /\
    (exists v, Binary64.value (avgRating u) = Some v /\ v == 4.5)%Q /\
    (completedRides u == 12)%Q /\
    getUser "demo-customer-1"
      (storage (snd (complete sample_env "demo-ride-1" driver_rates_near_half
                       (init_server "2024-05-01T09:00:00.000Z")))) = Some u' /\
    avgRating u' = Binary64.Number 4.3 /\
    (4.2 <= (4.5 * 12 + near_half_rating) / 13)%Q /\
    ((4.5 * 12 + near_half_rating) / 13 < 4.25)%Q.
Proof.
  eexists _, _. split; [reflexivity|]. split; [reflexivity|].
  split; [eexists; split; [vm_compute; reflexivity | reflexivity]|].
  split; [vm_compute; reflexivity|].
  split; [eexists; split; [vm_compute; reflexivity | reflexivity]|].
  split; [reflexivity|].
  split; [vm_compute; reflexivity|].
  split; [vm_compute; reflexivity|].
  split; [by vm_compute | by vm_compute].
Qed.



(** C2, as amended. If the ride is [in_progress] with no [completedAt], a
    valid call of complete stores status [completed], [completedAt] (the
    time of the call) and [actualFare] equal to [estimatedFare]. A second
    valid call leaves these three fields as they are. The second call
    changes no user if it carries no rating; if it carries one, the rated
    party's [completedRides] grows by exactly one and no other user
    changes, whether or not the first call carried a rating. *)
Theorem complete_twice env1 env2 rideId body1 body2 srv ride :
  rideCompleteSchema body1 = true ->
  rideCompleteSchema body2 = true ->
  getRide rideId (storage srv) = Some ride ->
  status ride = in_progress ->
  truthy_ostr (completedAt ride) = false ->
  let s1 := snd (complete env1 rideId body1 srv) in
  let s2 := snd (complete env2 rideId body2 s1) in
  exists r1 r2,
    (fst (complete env1 rideId body1 srv) = JsonRide (Some r1) /\
     getRide rideId (storage s1) = Some r1 /\
     status r1 = completed /\
     completedAt r1 = Some (now env1) /\
     actualFare r1 = Some (estimatedFare ride)) /\
    (fst (complete env2 rideId body2 s1) = JsonRide (Some r2) /\
     getRide rideId (storage s2) = Some r2 /\
     status r2 = completed /\
     completedAt r2 = completedAt r1 /\
     actualFare r2 = actualFare r1) /\
    (rating body2 = None -> users (storage s2) = users (storage s1)) /\
    (forall q id u,
        rating body2 = Some q ->
        rated_party r1 body2 (storage s1) = Some (id, u) ->
        exists u',
          getUser id (storage s2) = Some u' /\
          completedRides u' = (completedRides u + 1)%Q /\
          forall id', id <> id' ->
            getUser id' (storage s2) = getUser id' (storage s1)).
Proof.
  intros Hv1 Hv2 Hget Hst Hdone s1 s2.
  destruct (complete_stored env1 _ _ _ _ Hv1 Hget)
    as (r1 & Hres1 & Hget1 & Hs1 & Hc1 & Hf1 & _).
  assert (completion_updates env1 ride
          = {| p_driverId := None; p_status := Some completed;
               p_currentLocation := None; p_startedAt := None;
               p_completedAt := Some (Some (now env1));
               p_actualFare := Some (Some (estimatedFare ride));
               p_customerRating := None; p_driverRating := None;
               p_customerFeedback := None; p_driverFeedback := None |}) as Hupd.
  { unfold completion_updates. by rewrite Hst, Hdone. }
  rewrite Hupd in Hs1, Hc1, Hf1. simpl in Hs1, Hc1, Hf1.
  destruct (complete_stored env2 _ _ _ _ Hv2 Hget1)
    as (r2 & Hres2 & Hget2 & Hs2 & Hc2 & Hf2 & _).
  assert (completion_updates env2 r1 = no_updates) as Hupd2.
  { unfold completion_updates. by rewrite Hs1. }
  rewrite Hupd2 in Hs2, Hc2, Hf2. simpl in Hs2, Hc2, Hf2.
  exists r1, r2. split; [done|]. split; [by rewrite Hs2, Hs1|]. split.
  - intros Hnone. unfold s2.
    by rewrite (users_complete _ _ _ _ _ Hv2 Hget1), Hnone.
  - intros q id u Hq Hparty.
    destruct (complete_rates env2 _ _ _ _ _ _ _ Hv2 Hget1 Hq Hparty)
      as [Hu' Hothers].
    by eexists.
Qed.

Lemma complete_twice_witness :
  rides_done "demo-customer-1" srv_in_progress = Some 12%Q /\
  rides_done "demo-customer-1"
    (snd (complete sample_env "ride-A" driver_completes srv_in_progress))
  = Some 12%Q /\
  exists u',
    getUser "demo-customer-1"
      (storage (snd (complete sample_env "ride-A" driver_rates_5
                 (snd (complete sample_env "ride-A" driver_completes
                         srv_in_progress)))))
    = Some u' /\ (completedRides u' == 13)%Q.
Proof.
  split; [vm_compute; reflexivity|]. split; [vm_compute; reflexivity|].
  destruct (complete_twice sample_env sample_env "ride-A" driver_completes
              driver_rates_5 srv_in_progress ride_A_in_progress)
    as (r1 & r2 & (_ & Hget1 & _) & _ & _ & Hrate).
  - reflexivity.
  - reflexivity.
  - vm_compute; reflexivity.
  - reflexivity.
  - reflexivity.
  - assert (r1 = stored_ride "ride-A"
                   (snd (complete sample_env "ride-A" driver_completes
                           srv_in_progress)) ride_A_requested) as ->.
    { unfold stored_ride. by rewrite Hget1. }
    edestruct (Hrate 5%Q "demo-customer-1")
      as (u' & Hu' & Hcount & _); [reflexivity | vm_compute; reflexivity |].
    exists u'. split; [exact Hu'|]. rewrite Hcount. reflexivity.
Defined.

(** C2 as stated fails: when the rating 5 of the driver is sent with the
    completing call and sent again in a second call, the status changes
    once, but the customer's [completedRides] is raised by each of the two
    calls, from 12 to 13 and then to 14, for this one rating. *)
Lemma complete_twice_same_rating_counterexample :
  rideCompleteSchema driver_rates_5 = true /\
  (status <$> getRide "ride-A" (storage srv_in_progress)) = Some in_progress /\
  (status <$> getRide "ride-A" (storage srv_completed_once)) = Some completed /\
  (status <$> getRide "ride-A" (storage srv_completed_twice)) = Some completed /\
  rides_done "demo-customer-1" srv_in_progress = Some 12%Q /\
  rides_done "demo-customer-1" srv_completed_once = Some (12 + 1)%Q /\
  rides_done "demo-customer-1" srv_completed_twice = Some (12 + 1 + 1)%Q /\
  ~ (12 + 1 + 1 == 12 + 1)%Q.
Proof.
  repeat split; try (vm_compute; reflexivity).
  intros H. vm_compute in H. discriminate H.
Qed.

(* ===================================================================== *)
(** ** Cancelling a ride *)
(* ===================================================================== *)

(** Cancelling from any status but [waiting] and [accepted] is a conflict,
    whoever asks, and changes nothing. *)
Lemma cancel_wrong_status env rideId userId srv ride :
  getRide rideId (storage srv) = Some ride ->
  status ride <> waiting -> status ride <> accepted ->
  cancel env rideId userId srv = (Fail 400 "Ride cannot be cancelled", srv) /\
  error_kind (fst (cancel env rideId userId srv)) = Some Conflict.
Proof.
  intros Hget Hw Ha.
  assert (cancel env rideId userId srv
          = (Fail 400 "Ride cannot be cancelled", srv)) as Heq.
  { unfold cancel. rewrite Hget.
    destruct (status ride); simpl; congruence. }
  by rewrite Heq.
Qed.

(** A caller who names a user identifier that is neither the customer nor
    the driver of the ride is refused. *)
Lemma cancel_foreign_user env rideId user srv ride :
  getRide rideId (storage srv) = Some ride ->
  status ride = waiting \/ status ride = accepted ->
  customerId ride <> user -> driverId ride <> Some user ->
  cancel env rideId (JsString user) srv = (Fail 403 "Not authorized", srv).
Proof.
  intros Hget Hst Hc Hd. unfold cancel. rewrite Hget.
  assert (negb (status_eqb (status ride) waiting)
          && negb (status_eqb (status ride) accepted) = false) as ->
    by (by destruct Hst as [-> | ->]).
  assert (strict_eq (js_string (customerId ride)) (JsString user) = false) as ->.
  { simpl. by apply String.eqb_neq. }
  assert (strict_eq (js_nullable (driverId ride)) (JsString user) = false) as ->.
  { destruct (driverId ride) as [d|]; simpl; [|done].
    apply String.eqb_neq. congruence. }
  done.
Qed.

(** A successful cancellation stores [cancelled] and the time of the
    call. *)
Lemma cancel_success env rideId userId srv ride' :
  fst (cancel env rideId userId srv) = JsonRide ride' ->
  exists ride r',
    getRide rideId (storage srv) = Some ride /\
    (status ride = waiting \/ status ride = accepted) /\
    ride' = Some r' /\ status r' = cancelled /\
    completedAt r' = Some (now env) /\
    getRide rideId (storage (snd (cancel env rideId userId srv))) = Some r'.
Proof.
  unfold cancel.
  destruct (getRide rideId (storage srv)) as [ride|] eqn:Hget; [|done].
  destruct (negb (status_eqb (status ride) waiting)
            && negb (status_eqb (status ride) accepted)) eqn:Hst; [done|].
  destruct (negb (strict_eq (js_string (customerId ride)) userId)
            && negb (strict_eq (js_nullable (driverId ride)) userId));
    [done|].
  rewrite (updateRide_found _ _ _ _ Hget). simpl.
  intros Hres. injection Hres as Hres. subst ride'.
  exists ride. eexists. split; [done|]. split.
  { destruct (status ride); simpl in Hst; auto; discriminate. }
  split; [reflexivity|]. split; [done|]. split; [done|].
  rewrite storage_broadcast. unfold getRide. simpl. apply get_set_eq.
Qed.

(** C8, the failing input. A body whose [userId] is JSON null passes the
    ownership check of a ride that has no driver yet, because the null
    [driverId] of the ride is [===] to it: the waiting ride "demo-ride-1"
    of customer "demo-customer-1" is cancelled for a caller who is neither
    its customer nor a driver, where the answer should be 403. *)
Theorem cancel_null_caller_not_refused :
  let srv := init_server "2024-05-01T09:00:00.000Z" in
  exists ride ride',
    getRide "demo-ride-1" (storage srv) = Some ride /\
    status ride = waiting /\ driverId ride = None /\
    customerId ride = "demo-customer-1" /\
    fst (cancel sample_env "demo-ride-1" JsNull srv) = JsonRide (Some ride') /\
    getRide "demo-ride-1"
      (storage (snd (cancel sample_env "demo-ride-1" JsNull srv))) = Some ride' /\
    status ride' = cancelled /\
    completedAt ride' = Some (now sample_env).
Proof.
  intros srv.
  exists (stored_ride "demo-ride-1" srv ride_A_requested),
         (stored_ride "demo-ride-1"
            (snd (cancel sample_env "demo-ride-1" JsNull srv)) ride_A_requested).
  repeat split; vm_compute; reflexivity.
Qed.

(* ===================================================================== *)
(** ** The subscription registry *)
(* ===================================================================== *)

Lemma lookup_drop_subscriber ws id (reg : gmap string (gset nat)) id' :
  drop_subscriber ws id reg !! id' =
  if decide (id = id') then
    match reg !! id with
    | Some subs =>
        if decide (subs ∖ {[ws]} = ∅) then None else Some (subs ∖ {[ws]})
    | None => None
    end
  else reg !! id'.
Proof.
  unfold drop_subscriber. destruct (reg !! id) as [subs|] eqn:Hsubs.
  - case_bool_decide as Hsize.
    + rewrite lookup_delete. case_decide; [|done].
      apply size_empty_iff, leibniz_equiv in Hsize. by rewrite decide_True.
    + rewrite lookup_insert. case_decide; [|done].
      rewrite decide_False; [done|].
      intros Hempty. apply Hsize. rewrite Hempty. apply size_empty.
  - case_decide; [by subst|done].
Qed.

Lemma lookup_add_subscriber ws id (reg : gmap string (gset nat)) id' :
  add_subscriber ws id reg !! id' =
  if decide (id = id') then Some (default ∅ (reg !! id) ∪ {[ws]})
  else reg !! id'.
Proof.
  unfold add_subscriber. rewrite lookup_alter. case_decide as Hid.
  - destruct (reg !! id) as [subs|] eqn:Hsubs; simpl.
    + by rewrite Hsubs.
    + by rewrite lookup_insert_eq.
  - destruct (reg !! id); [done|]. by rewrite lookup_insert_ne.
Qed.


Lemma subscriptions_broadcast env id payload srv :
  rideSubscriptions (broadcastRideStatus env id payload srv)
  = rideSubscriptions srv.
Proof. unfold broadcastRideStatus. by destruct (_ !! _). Qed.

Lemma subscribed_broadcast env id payload srv :
  subscribedRideId (broadcastRideStatus env id payload srv)
  = subscribedRideId srv.
Proof. unfold broadcastRideStatus. by destruct (_ !! _). Qed.

Ltac same_registry_after_broadcast :=
  split; simpl; by rewrite ?subscriptions_broadcast, ?subscribed_broadcast.

Lemma same_registry_accept env rideId d srv :
  same_registry srv (snd (accept env rideId d srv)).
Proof.
  unfold accept. destruct (getRide _ _); [|done].
  destruct (negb _); [done|]. destruct (getActiveRide _ _); [done|].
  destruct (updateRide _ _ _). same_registry_after_broadcast.
Qed.

Lemma same_registry_start env rideId d srv :
  same_registry srv (snd (start env rideId d srv)).
Proof.
  unfold start. destruct (getRide _ _); [|done].
  destruct (negb (status_eqb _ _)); [done|].
  destruct (negb (strict_eq _ _)); [done|].
  destruct (updateRide _ _ _). same_registry_after_broadcast.
Qed.

Lemma same_registry_complete env rideId body srv :
  same_registry srv (snd (complete env rideId body srv)).
Proof.
  unfold complete. destruct (negb _); [done|].
  destruct (getRide _ _); [|done].
  destruct (rating_step _ _ _ _) as [updates st].
  destruct (updateRide _ _ _) as [updatedRide st'].
  destruct (p_status updates) as [[]|]; same_registry_after_broadcast.
Qed.

Lemma same_registry_cancel env rideId userId srv :
  same_registry srv (snd (cancel env rideId userId srv)).
Proof.
  unfold cancel. destruct (getRide _ _) as [ride|]; [|done].
  destruct (negb (status_eqb (status ride) waiting)
            && negb (status_eqb (status ride) accepted)); [done|].
  destruct (negb (strict_eq (js_string (customerId ride)) userId)
            && negb (strict_eq (js_nullable (driverId ride)) userId));
    [done|].
  destruct (updateRide _ _ _). same_registry_after_broadcast.
Qed.

Lemma same_registry_location env ws rideId data srv :
  same_registry srv (on_location_update env ws rideId data srv).
Proof.
  unfold on_location_update.
  destruct rideId as [rideId|]; [|done]. destruct data; [|done].
  destruct (truthy_str rideId); [|done]. simpl.
  by destruct (rideSubscriptions srv !! rideId).
Qed.

Lemma registry_ok_same srv srv' :
  same_registry srv srv' -> registry_ok srv -> registry_ok srv'.
Proof.
  intros [Hsubs Hcur]. unfold registry_ok, subscribed_to.
  by rewrite Hsubs, Hcur.
Qed.

Lemma registry_ok_init created : registry_ok (init_server created).
Proof.
  unfold registry_ok, subscribed_to. simpl. repeat split.
  - intros id subs H. by rewrite lookup_empty in H.
  - intros ws id (subs & H & _). by rewrite lookup_empty in H.
  - intros ws id H. by rewrite lookup_empty in H.
Qed.

(** Dropping [ws] from the set named by its own variable takes it out of
    every set. *)
Lemma registry_ok_drop ws cur srv :
  registry_ok srv -> subscribedRideId srv !! ws = Some cur ->
  let reg := drop_subscriber ws cur (rideSubscriptions srv) in
  (forall id subs, reg !! id = Some subs -> subs <> ∅) /\
  (forall id subs, reg !! id = Some subs -> ws ∉ subs) /\
  (forall ws' id subs, reg !! id = Some subs -> ws' ∈ subs ->
                       subscribed_to srv ws' id) /\
  (forall ws' id, ws' <> ws -> subscribed_to srv ws' id ->
                  exists subs, reg !! id = Some subs /\ ws' ∈ subs).
Proof.
  intros (Hne & Hown & _) Hcur reg. unfold reg, subscribed_to.
  repeat split.
  - intros id subs. rewrite lookup_drop_subscriber.
    case_decide; [|apply Hne].
    destruct (rideSubscriptions srv !! cur); [|done].
    case_decide; [done|]. congruence.
  - intros id subs. rewrite lookup_drop_subscriber. case_decide as Hid.
    + destruct (rideSubscriptions srv !! cur); [|done].
      case_decide; [done|]. intros Heq. injection Heq as <-.
      intros [_ Hnot]%elem_of_difference. apply Hnot.
      by apply elem_of_singleton.
    + intros Hsubs Hin. apply Hid.
      assert (subscribedRideId srv !! ws = Some id) as Hid'
        by (apply Hown; by exists subs).
      congruence.
  - intros ws' id subs. rewrite lookup_drop_subscriber. case_decide as Hid.
    + subst id. destruct (rideSubscriptions srv !! cur) as [old|]; [|done].
      case_decide; [done|]. intros Heq Hin. injection Heq as <-.
      exists old. split; [done|]. by apply elem_of_difference in Hin as [? _].
    + intros Hsubs Hin. by exists subs.
  - intros ws' id Hws' (subs & Hsubs & Hin). rewrite lookup_drop_subscriber.
    case_decide as Hid; [|by exists subs].
    subst id. rewrite Hsubs. rewrite decide_False by set_solver.
    eexists. split; [done|]. set_solver.
Qed.

Lemma on_subscribe_fields ws rideId srv :
  truthy_str rideId = true ->
  let srv' := on_subscribe ws (Some rideId) srv in
  rideSubscriptions srv'
    = add_subscriber ws rideId (registry_after_leaving ws srv) /\
  subscribedRideId srv' = <[ws := rideId]> (subscribedRideId srv) /\
  sent srv' = sent srv ++ location_frames ws rideId srv /\
  rideLocations srv' = rideLocations srv /\
  storage srv' = storage srv.
Proof.
  intros Htruthy. unfold on_subscribe, location_frames. rewrite Htruthy. simpl.
  destruct (rideLocations srv !! rideId); simpl; repeat split; try done.
  by rewrite app_nil_r.
Qed.

Lemma registry_after_leaving_ok ws srv :
  registry_ok srv ->
  let reg := registry_after_leaving ws srv in
  (forall id subs, reg !! id = Some subs -> subs <> ∅) /\
  (forall id subs, reg !! id = Some subs -> ws ∉ subs) /\
  (forall ws' id subs, reg !! id = Some subs -> ws' ∈ subs ->
                       subscribed_to srv ws' id) /\
  (forall ws' id, ws' <> ws -> subscribed_to srv ws' id ->
                  exists subs, reg !! id = Some subs /\ ws' ∈ subs).
Proof.
  intros Hok. pose proof Hok as (Hne & Hown & Htruthy).
  unfold registry_after_leaving.
  destruct (subscribedRideId srv !! ws) as [prev|] eqn:Hprev.
  - rewrite (Htruthy _ _ Hprev). by apply registry_ok_drop.
  - repeat split.
    + done.
    + intros id subs Hsubs Hin.
      assert (subscribedRideId srv !! ws = Some id) as Hid
        by (apply Hown; by exists subs).
      congruence.
    + intros ws' id subs Hsubs Hin. by exists subs.
    + by intros ws' id _ H.
Qed.

(** What subscribing does, from a state in which the registry is in
    order. *)
Lemma on_subscribe_spec ws rideId srv :
  registry_ok srv -> truthy_str rideId = true ->
  let srv' := on_subscribe ws (Some rideId) srv in
  registry_ok srv' /\
  subscribed_to srv' ws rideId /\
  (forall ws' id, ws' <> ws ->
                  subscribed_to srv' ws' id <-> subscribed_to srv ws' id).
Proof.
  intros Hok Htruthy srv'. pose proof Hok as (Hne & Hown & Hcur).
  destruct (on_subscribe_fields ws rideId srv Htruthy)
    as (Hsubs & Hvar & _).
  destruct (registry_after_leaving_ok ws srv Hok) as (Ha & Hb & Hc & Hd).
  fold srv' in Hsubs, Hvar.
  assert (forall ws' id, subscribed_to srv' ws' id ->
            (ws' = ws /\ id = rideId) \/ (ws' <> ws /\ subscribed_to srv ws' id))
    as Hcases.
  { intros ws' id (subs & Hlook & Hin). rewrite Hsubs in Hlook.
    rewrite lookup_add_subscriber in Hlook. case_decide as Hid.
    - injection Hlook as <-. subst id.
      apply elem_of_union in Hin as [Hin|Hin]; [|left; set_solver].
      destruct (registry_after_leaving ws srv !! rideId) as [old|] eqn:Hold;
        simpl in Hin; [|set_solver].
      right. split; [|by eapply Hc].
      intros ->. by eapply Hb.
    - right. split; [|by eapply Hc].
      intros ->. by eapply Hb. }
  split; [|split].
  - repeat split.
    + intros id subs. rewrite Hsubs, lookup_add_subscriber.
      case_decide; [intros [= <-]; set_solver | apply Ha].
    + intros ws' id Hin. rewrite Hvar.
      destruct (Hcases _ _ Hin) as [[-> ->]|[Hws' Hold]].
      * apply lookup_insert_eq.
      * rewrite lookup_insert_ne by done. by apply Hown.
    + intros ws' id. rewrite Hvar, lookup_insert.
      case_decide; [congruence | apply Hcur].
  - exists (default ∅ (registry_after_leaving ws srv !! rideId) ∪ {[ws]}).
    rewrite Hsubs, lookup_add_subscriber, decide_True by done.
    split; [done | set_solver].
  - intros ws' id Hws'. split.
    + intros Hin. by destruct (Hcases _ _ Hin) as [[-> _]|[_ Hold]].
    + intros Hin. destruct (Hd _ _ Hws' Hin) as (subs & Hlook & Hmem).
      unfold subscribed_to. rewrite Hsubs, lookup_add_subscriber.
      case_decide as Hid; [|by exists subs].
      subst id. rewrite Hlook. eexists. split; [done|]. set_solver.
Qed.

Lemma registry_ok_on_unsubscribe ws srv :
  registry_ok srv -> registry_ok (on_unsubscribe ws srv).
Proof.
  intros Hok. pose proof Hok as (Hne & Hown & Hcur). unfold on_unsubscribe.
  destruct (subscribedRideId srv !! ws) as [cur|] eqn:Hvar; [|done].
  rewrite (Hcur _ _ Hvar).
  destruct (registry_ok_drop ws cur srv Hok Hvar) as (Ha & Hb & Hc & _).
  repeat split; simpl.
  - apply Ha.
  - intros ws' id (subs & Hlook & Hin). simpl in Hlook.
    assert (ws' <> ws) as Hws' by (intros ->; by eapply Hb).
    rewrite lookup_delete_ne by done. apply Hown. by eapply Hc.
  - intros ws' id. rewrite lookup_delete. case_decide; [done | apply Hcur].
Qed.

Lemma registry_ok_on_close ws srv :
  registry_ok srv -> registry_ok (on_close ws srv).
Proof.
  intros Hok. pose proof Hok as (Hne & Hown & Hcur). unfold on_close.
  destruct (subscribedRideId srv !! ws) as [cur|] eqn:Hvar; [|done].
  rewrite (Hcur _ _ Hvar).
  destruct (registry_ok_drop ws cur srv Hok Hvar) as (Ha & Hb & Hc & _).
  repeat split; simpl.
  - apply Ha.
  - intros ws' id (subs & Hlook & Hin). simpl in Hlook. apply Hown.
    by eapply Hc.
  - apply Hcur.
Qed.

Lemma registry_ok_on_message env ws message srv :
  registry_ok srv -> registry_ok (on_message env ws message srv).
Proof.
  intros Hok. destruct message as [[ty rideId data]|]; [|done].
  unfold on_message. simpl. destruct ty.
  - eapply registry_ok_same; [apply same_registry_location | done].
  - done.
  - destruct rideId as [rideId|]; [|done].
    destruct (truthy_str rideId) eqn:Htruthy.
    + by apply on_subscribe_spec.
    + unfold on_subscribe. by rewrite Htruthy.
  - by apply registry_ok_on_unsubscribe.
Qed.

Lemma registry_ok_step srv ee : registry_ok srv -> registry_ok (step srv ee).
Proof.
  intros Hok. destruct ee as [env []]; cbv beta iota delta [step].
  - eapply registry_ok_same; [|done].
    unfold authConnect. destruct (getUserByWallet _ _); by split.
  - by eapply registry_ok_same.
  - eapply registry_ok_same; [apply same_registry_accept | done].
  - eapply registry_ok_same; [apply same_registry_start | done].
  - eapply registry_ok_same; [apply same_registry_complete | done].
  - eapply registry_ok_same; [apply same_registry_cancel | done].
  - by apply registry_ok_on_message.
  - by apply registry_ok_on_close.
Qed.

Lemma registry_ok_reachable srv : reachable srv -> registry_ok srv.
Proof.
  apply reachable_invariant; [apply registry_ok_init | apply registry_ok_step].
Qed.

(** C6. After any finite run of the server from its initial state, in
    particular after any sequence of subscribe, unsubscribe and disconnect
    events, no ride identifier is a key of the registry with an empty
    connection set: every registered set has a member. *)
Theorem registry_never_holds_empty_set created trace id subs :
  rideSubscriptions (run trace (init_server created)) !! id = Some subs ->
  subs <> ∅ /\ exists ws, ws ∈ subs.
Proof.
  intros Hsubs.
  assert (registry_ok (run trace (init_server created))) as (Hne & _).
  { apply registry_ok_reachable. by exists created, trace. }
  split; [by eapply Hne|]. apply set_choose_L. by eapply Hne.
Qed.

Lemma registry_never_holds_empty_set_witness :
  exists subs,
    rideSubscriptions (run trace_one_subscriber (init_server "2024-05-01T09:00:00.000Z"))
      !! "r1" = Some subs /\
    subs <> ∅.
Proof.
  set (srv := init_server "2024-05-01T09:00:00.000Z").
  assert (rideSubscriptions (run trace_one_subscriber srv) !! "r1"
          = Some (default ∅ (registry_after_leaving 1 srv !! "r1") ∪ {[1]}))
    as Hsubs.
  { change (run trace_one_subscriber srv) with (on_subscribe 1 (Some "r1") srv).
    destruct (on_subscribe_fields 1 "r1" srv eq_refl) as (-> & _).
    rewrite lookup_add_subscriber. by rewrite decide_True. }
  eexists. split; [exact Hsubs|].
  apply (registry_never_holds_empty_set _ trace_one_subscriber "r1" _ Hsubs).
Defined.

(** C7. In a reachable state, when connection [ws] sends a subscribe
    message for a non-empty [rideId], afterwards [ws] is in the subscriber
    set of [rideId] and in no other set, so it is subscribed to one ride
    at most; the subscriptions of the other connections are as before; and
    the frames sent by the call are exactly one [location_update] frame to
    [ws] with the location stored for [rideId], or none if no location is
    stored for it. *)
Theorem subscribe_replaces_subscription env srv ws rideId data :
  reachable srv ->
  truthy_str rideId = true ->
  let srv' :=
    on_message env ws
      (Some {| msg_type := ty_subscribe; msg_rideId := Some rideId;
               msg_data := data |}) srv in
  subscribed_to srv' ws rideId /\
  (forall id, subscribed_to srv' ws id -> id = rideId) /\
  (forall ws' id, ws' <> ws ->
                  subscribed_to srv' ws' id <-> subscribed_to srv ws' id) /\
  sent srv' = sent srv ++
              match rideLocations srv !! rideId with
              | Some currentLocation => [(ws, FrameLocation currentLocation)]
              | None => []
              end.
Proof.
  intros Hreach Htruthy srv'.
  assert (srv' = on_subscribe ws (Some rideId) srv) as -> by done.
  destruct (on_subscribe_spec ws rideId srv (registry_ok_reachable _ Hreach)
              Htruthy) as ((_ & Hown & _) & Hin & Hothers).
  destruct (on_subscribe_fields ws rideId srv Htruthy) as (_ & Hvar & Hsent & _).
  split; [done|]. split; [|by split].
  intros id Hid. apply Hown in Hid. rewrite Hvar, lookup_insert_eq in Hid.
  congruence.
Qed.

Lemma location_stored env ws rideId x y srv :
  truthy_str rideId = true ->
  rideLocations (step srv (env, EvMessage ws (location_msg rideId x y)))
    !! rideId
  = Some {| upd_lat := x; upd_lng := y; timestamp := nowMs env; speed := None |}.
Proof.
  intros Htruthy.
  unfold step, on_message, location_msg, on_location_update. simpl.
  rewrite Htruthy.
  destruct (rideSubscriptions srv !! rideId); simpl; apply lookup_insert_eq.
Qed.

Lemma subscribe_replaces_subscription_witness :
  let srv := step srv_live (sample_env, EvMessage 9 (location_msg "r1" 37.78 (-122.41))) in
  let srv' := on_message sample_env 1 (subscribe_msg "r1") srv in
  subscribed_to srv' 1 "r1" /\
  ~ subscribed_to srv' 1 "r2" /\
  exists currentLocation,
    rideLocations srv !! "r1" = Some currentLocation /\
    sent srv' = sent srv ++ [(1, FrameLocation currentLocation)].
Proof.
  intros srv srv'.
  assert (reachable srv) as Hreach.
  { apply reachable_step. by eexists _, _. }
  destruct (subscribe_replaces_subscription sample_env srv 1 "r1" None
              Hreach eq_refl) as (Hin & Hone & _ & Hsent).
  split; [exact Hin|]. split.
  { intros Hr2. apply Hone in Hr2. discriminate Hr2. }
  pose proof (location_stored sample_env 9 "r1" 37.78 (-122.41) srv_live eq_refl)
    as Hloc.
  fold srv in Hloc. rewrite Hloc in Hsent.
  eexists. split; [exact Hloc | exact Hsent].
Defined.

(* ===================================================================== *)
(** ** Further facts about [JsMap] and the store *)
(* ===================================================================== *)

Lemma get_None_iff {V : Type} (k : string) (m : list (string * V)) :
  JsMap.get k m = None <-> k ∉ map fst m.
Proof.
  induction m as [|[k' v'] m IH]; simpl.
  - split; [intros _; apply not_elem_of_nil | done].
  - rewrite not_elem_of_cons. destruct (String.eqb_spec k' k) as [->|Hne].
    + split; [done | by intros [? _]].
    + rewrite IH. split; [by split; [congruence|] | by intros [_ ?]].
Qed.

Lemma set_fresh {V : Type} (k : string) (v : V) (m : list (string * V)) :
  JsMap.get k m = None -> JsMap.set k v m = m ++ [(k, v)].
Proof.
  induction m as [|[k' v'] m IH]; simpl; [done|].
  destruct (String.eqb k' k); [done|]. intros H. by rewrite IH.
Qed.

Lemma keys_set_present {V : Type} (k : string) (v : V) (m : list (string * V)) :
  is_Some (JsMap.get k m) -> map fst (JsMap.set k v m) = map fst m.
Proof.
  induction m as [|[k' v'] m IH]; simpl.
  - by intros [? ?].
  - destruct (String.eqb_spec k' k) as [->|Hne]; simpl; [done|].
    intros H. by rewrite IH.
Qed.

Lemma keys_set_NoDup {V : Type} (k : string) (v : V) (m : list (string * V)) :
  NoDup (map fst m) -> NoDup (map fst (JsMap.set k v m)).
Proof.
  intros Hnd. destruct (JsMap.get k m) as [v0|] eqn:Hget.
  - rewrite keys_set_present; [done | by eexists].
  - rewrite (set_fresh _ _ _ Hget), map_app. simpl.
    apply NoDup_app. split; [done|]. split.
    + intros x Hx ->%list_elem_of_singleton. by apply get_None_iff in Hget.
    + apply NoDup_singleton.
Qed.

Lemma elem_of_get_NoDup {V : Type} (k : string) (v : V) (m : list (string * V)) :
  NoDup (map fst m) -> (k, v) ∈ m -> JsMap.get k m = Some v.
Proof.
  induction m as [|[k' v'] m IH]; simpl.
  - intros _ H. by apply not_elem_of_nil in H.
  - intros [Hk' Hnd]%NoDup_cons [Heq|Hin]%elem_of_cons.
    + injection Heq as -> ->. by rewrite String.eqb_refl.
    + destruct (String.eqb_spec k' k) as [->|Hne]; [|by apply IH].
      exfalso. apply Hk'. apply list_elem_of_In, in_map_iff.
      exists (k, v). split; [done | by apply list_elem_of_In].
Qed.

Lemma getRide_after_set id r1 k st st' :
  rides st' = JsMap.set id r1 (rides st) ->
  getRide k st' = if String.eqb id k then Some r1 else getRide k st.
Proof.
  intros Hrides. unfold getRide. rewrite Hrides.
  destruct (String.eqb_spec id k) as [->|Hne];
    [apply get_set_eq | by apply get_set_ne].
Qed.

(** *** Updating and creating rides *)

(** X1. [updateRide] on an identifier that is not stored answers
    [undefined] and leaves the store as it is. On a stored identifier it
    answers the merged ride, which is what a later [getRide] returns; every
    other ride, the order of the rides and the users are untouched. *)
Theorem updateRide_round_trip id updates st :
  match getRide id st with
  | None => updateRide id updates st = (None, st)
  | Some ride =>
      let st' := snd (updateRide id updates st) in
      fst (updateRide id updates st) = Some (spread_ride ride updates) /\
      getRide id st' = Some (spread_ride ride updates) /\
      (forall k, k <> id -> getRide k st' = getRide k st) /\
      ride_keys st' = ride_keys st /\
      users st' = users st
  end.
Proof.
  destruct (getRide id st) as [ride|] eqn:Hget.
  - rewrite (updateRide_found _ _ _ _ Hget). simpl. split; [done|].
    unfold getRide, ride_keys. simpl. split; [apply get_set_eq|].
    split; [intros k Hk; by apply get_set_ne|].
    split; [|done]. apply keys_set_present. by exists ride.
  - unfold updateRide. unfold getRide in Hget. by rewrite Hget.
Qed.

(** X2. A ride request whose fresh identifier is not yet a key always
    succeeds, without looking at the customer: the answer is a ride that is
    [waiting] with no driver, no fare and no time stamps but [createdAt],
    carrying the request data; it is stored under the new identifier at
    the end of the map; every other ride, the users and the live-channel
    state are untouched. *)
Theorem rideRequest_adds_waiting_ride env body srv :
  getRide (uuid env) (storage srv) = None ->
  let srv' := snd (rideRequest env body srv) in
  exists ride,
    fst (rideRequest env body srv) = JsonRide (Some ride) /\
    getRide (uuid env) (storage srv') = Some ride /\
    (ride_id ride = uuid env /\ customerId ride = req_customerId body /\
     pickup ride = req_pickup body /\ dropoff ride = req_dropoff body /\
     estimatedFare ride = req_estimatedFare body /\
     stakedAmount ride = req_stakedAmount body /\
     createdAt ride = now env) /\
    (status ride = waiting /\ driverId ride = None /\ actualFare ride = None /\
     startedAt ride = None /\ completedAt ride = None) /\
    ride_keys (storage srv') = ride_keys (storage srv) ++ [uuid env] /\
    (forall k, k <> uuid env ->
               getRide k (storage srv') = getRide k (storage srv)) /\
    users (storage srv') = users (storage srv) /\
    same_registry srv srv' /\ sent srv' = sent srv.
Proof.
  intros Hfresh srv'. unfold srv', rideRequest. simpl.
  eexists. split; [reflexivity|]. unfold getRide, ride_keys. simpl.
  split; [apply get_set_eq|]. do 2 (split; [by repeat split|]).
  split; [by rewrite (set_fresh _ _ _ Hfresh), map_app|].
  split; [intros k Hk; by apply get_set_ne|]. by repeat split.
Qed.

Lemma rideRequest_adds_waiting_ride_witness :
  exists ride,
    getRide "ride-A"
      (storage (snd (rideRequest sample_env sample_request
                       (init_server "2024-05-01T09:00:00.000Z")))) = Some ride /\
    status ride = waiting /\ driverId ride = None.
Proof.
  destruct (rideRequest_adds_waiting_ride sample_env sample_request
              (init_server "2024-05-01T09:00:00.000Z"))
    as (ride & _ & Hget & _ & (Hst & Hd & _) & _); [reflexivity|].
  by exists ride.
Defined.

Lemma step_rides_shape srv ee :
  rides (storage (step srv ee)) = rides (storage srv) \/
  exists k v, rides (storage (step srv ee)) = JsMap.set k v (rides (storage srv)).
Proof.
  destruct ee as [env []]; cbv beta iota delta [step].
  - left. unfold authConnect. by destruct (getUserByWallet _ _).
  - right. by eexists _, _.
  - unfold accept.
    destruct (getRide rideId (storage srv)) as [ride|] eqn:Hget; [|by left].
    destruct (negb _); [by left|]. destruct (getActiveRide _ _); [by left|].
    rewrite (updateRide_found _ _ _ _ Hget). simpl. rewrite storage_broadcast.
    right. by eexists _, _.
  - unfold start.
    destruct (getRide rideId (storage srv)) as [ride|] eqn:Hget; [|by left].
    destruct (negb (status_eqb _ _)); [by left|].
    destruct (negb (strict_eq _ _)); [by left|].
    rewrite (updateRide_found _ _ _ _ Hget). simpl. rewrite storage_broadcast.
    right. by eexists _, _.
  - destruct (rideCompleteSchema body) eqn:Hvalid;
      [|left; by unfold complete; rewrite Hvalid].
    destruct (getRide rideId (storage srv)) as [ride|] eqn:Hget;
      [|left; by unfold complete; rewrite Hvalid, Hget].
    destruct (complete_found env _ _ _ _ Hvalid Hget) as [_ ->].
    right. by eexists _, _.
  - unfold cancel.
    destruct (getRide rideId (storage srv)) as [ride|] eqn:Hget; [|by left].
    destruct (negb (status_eqb (status ride) waiting)
              && negb (status_eqb (status ride) accepted)); [by left|].
    destruct (negb (strict_eq (js_string (customerId ride)) userId)
              && negb (strict_eq (js_nullable (driverId ride)) userId));
      [by left|].
    rewrite (updateRide_found _ _ _ _ Hget). simpl. rewrite storage_broadcast.
    right. by eexists _, _.
  - destruct (storage_on_message env ws message srv) as [->|(k & loc & ->)];
      [by left|].
    destruct (getRide k (storage srv)) as [ride|] eqn:Hget.
    + rewrite (updateRide_found _ _ _ _ Hget). right. by eexists _, _.
    + left. unfold updateRide. unfold getRide in Hget. by rewrite Hget.
  - left. by rewrite storage_on_close.
Qed.

Lemma ride_keys_NoDup_reachable srv :
  reachable srv -> NoDup (ride_keys (storage srv)).
Proof.
  apply (reachable_invariant (fun srv => NoDup (ride_keys (storage srv)))).
  - intros created. unfold ride_keys. simpl.
    repeat (apply NoDup_cons; split;
            [rewrite ?not_elem_of_cons; repeat split;
             try discriminate; apply not_elem_of_nil|]).
    apply NoDup_nil_2.
  - intros s ee Hnd. unfold ride_keys.
    destruct (step_rides_shape s ee) as [->|(k & v & ->)]; [done|].
    by apply keys_set_NoDup.
Qed.

(** In a reachable state a ride that is listed in the map is the one that
    [getRide] finds under its own identifier. *)
Lemma stored_under_own_id srv r :
  reachable srv -> r ∈ JsMap.values (rides (storage srv)) ->
  getRide (ride_id r) (storage srv) = Some r.
Proof.
  intros Hreach [k Hin]%elem_of_values.
  destruct (stored_ok_reachable _ Hreach _ _ Hin) as [-> _].
  by apply elem_of_get_NoDup; [apply ride_keys_NoDup_reachable|].
Qed.

Lemma getRide_listed k r st :
  getRide k st = Some r -> r ∈ JsMap.values (rides st).
Proof. intros H. apply elem_of_values. exists k. by apply get_elem_of. Qed.

Lemma getRideWithDetails_ride id st d :
  getRideWithDetails id st = Some d -> getRide id st = Some (details_ride d).
Proof.
  unfold getRideWithDetails, getRide.
  destruct (JsMap.get id (rides st)); [|done]. by intros [= <-].
Qed.

Lemma active_status_iff s :
  includes activeStatuses s = true <->
  s = waiting \/ s = accepted \/ s = in_progress.
Proof. destruct s; simpl; split; try done; intuition discriminate. Qed.

Lemma is_active_for_iff user userId ride :
  is_active_for user userId ride = true <->
  (status ride = waiting \/ status ride = accepted \/ status ride = in_progress) /\
  (role user = role_customer -> customerId ride = userId) /\
  (role user = role_driver -> driverId ride = Some userId).
Proof.
  unfold is_active_for. rewrite <- active_status_iff.
  destruct (includes activeStatuses (status ride)); simpl;
    [|split; [done | by intros [? _]]].
  destruct (role user); simpl.
  - rewrite String.eqb_eq. split; [by intros -> | by intros (_ & H & _); apply H].
  - destruct (driverId ride) as [d|]; simpl.
    + rewrite String.eqb_eq. split.
      * intros ->. by repeat split.
      * intros (_ & _ & H). specialize (H eq_refl). congruence.
    + split; [done|]. intros (_ & _ & H). by specialize (H eq_refl).
Qed.

Lemma active_ride_spec srv userId d :
  reachable srv ->
  getActiveRide userId (storage srv) = Some d ->
  exists user,
    getUser userId (storage srv) = Some user /\
    getRide (ride_id (details_ride d)) (storage srv) = Some (details_ride d) /\
    (status (details_ride d) = waiting \/ status (details_ride d) = accepted \/
     status (details_ride d) = in_progress) /\
    (role user = role_customer -> customerId (details_ride d) = userId) /\
    (role user = role_driver -> driverId (details_ride d) = Some userId).
Proof.
  intros Hreach. unfold getActiveRide.
  destruct (getUser userId (storage srv)) as [user|]; [|done].
  destruct (array_find _ _) as [a|] eqn:Hfind; [|done].
  apply array_find_Some in Hfind as [Hin Hactive]. intros Hd.
  apply getRideWithDetails_ride in Hd.
  rewrite (stored_under_own_id _ _ Hreach Hin) in Hd. injection Hd as Hd.
  exists user. split; [done|]. rewrite <- Hd.
  split; [by apply stored_under_own_id|]. by apply is_active_for_iff.
Qed.

(** X3. In a reachable state, a ride answered by [getActiveRide] for
    [userId] is a stored ride, found under its own identifier, whose status
    is [waiting], [accepted] or [in_progress]; the user exists, and is the
    customer of the ride if their role is [customer] and its driver if
    their role is [driver]. *)
Theorem getActiveRide_sound srv userId d :
  reachable srv ->
  getActiveRide userId (storage srv) = Some d ->
  exists user,
    getUser userId (storage srv) = Some user /\
    getRide (ride_id (details_ride d)) (storage srv) = Some (details_ride d) /\
    (status (details_ride d) = waiting \/ status (details_ride d) = accepted \/
     status (details_ride d) = in_progress) /\
    (role user = role_customer -> customerId (details_ride d) = userId) /\
    (role user = role_driver -> driverId (details_ride d) = Some userId).
Proof. exact (active_ride_spec srv userId d). Qed.

Lemma getActiveRide_sound_witness :
  exists d,
    getActiveRide "demo-driver-1" (storage srv_accepted) = Some d /\
    status (details_ride d) = accepted /\
    driverId (details_ride d) = Some "demo-driver-1".
Proof.
  assert (reachable srv_accepted) as Hreach by (by eexists _, _).
  destruct (getActiveRide "demo-driver-1" (storage srv_accepted)) as [d|] eqn:Hd;
    [|vm_compute in Hd; discriminate Hd].
  destruct (getActiveRide_sound srv_accepted "demo-driver-1" d Hreach Hd)
    as (user & Hu & _ & _ & _ & Hdrv).
  exists d. split; [done|].
  assert (role user = role_driver) as Hrole.
  { vm_compute in Hu. by injection Hu as <-. }
  split; [|by apply Hdrv].
  vm_compute in Hd. by injection Hd as <-.
Defined.

(** X4. [getActiveRide] answers nothing for an identifier that no user
    has. For a user of a reachable store it answers nothing exactly when
    no stored ride is active for them in the sense of its own test: status
    [waiting], [accepted] or [in_progress], with the user as customer (role
    [customer]) or as driver (role [driver]). *)
Theorem getActiveRide_none_iff srv userId :
  reachable srv ->
  match getUser userId (storage srv) with
  | None => getActiveRide userId (storage srv) = None
  | Some user =>
      getActiveRide userId (storage srv) = None <->
      forall k r, getRide k (storage srv) = Some r ->
                  is_active_for user userId r = false
  end.
Proof.
  intros Hreach. unfold getActiveRide.
  destruct (getUser userId (storage srv)) as [user|]; [|done].
  destruct (array_find _ _) as [a|] eqn:Hfind.
  - apply array_find_Some in Hfind as [Hin Hactive].
    pose proof (stored_under_own_id _ _ Hreach Hin) as Hget. split.
    + unfold getRideWithDetails. unfold getRide in Hget. by rewrite Hget.
    + intros Hall. rewrite (Hall _ _ Hget) in Hactive. discriminate Hactive.
  - split; [|done]. intros _ k r Hget.
    by eapply array_find_None, getRide_listed.
Qed.

Lemma getActiveRide_none_iff_witness :
  getActiveRide "demo-driver-2" (storage srv_accepted) = None /\
  getActiveRide "ghost" (storage srv_accepted) = None.
Proof.
  assert (reachable srv_accepted) as Hreach by (by eexists _, _).
  split.
  - vm_compute; reflexivity.
  - pose proof (getActiveRide_none_iff srv_accepted "ghost" Hreach) as H.
    assert (getUser "ghost" (storage srv_accepted) = None) as Hu
      by (vm_compute; reflexivity).
    by rewrite Hu in H.
Defined.

Lemma array_find_app {A : Type} (p : A -> bool) (l l' : list A) :
  array_find p (l ++ l') =
  match array_find p l with Some a => Some a | None => array_find p l' end.
Proof. induction l as [|x l IH]; simpl; [done|]. by destruct (p x). Qed.

Lemma get_app {V : Type} (k : string) (m m' : list (string * V)) :
  JsMap.get k (m ++ m') =
  match JsMap.get k m with Some v => Some v | None => JsMap.get k m' end.
Proof.
  induction m as [|[k' v'] m IH]; simpl; [done|]. by destruct (String.eqb k' k).
Qed.

Lemma values_app {V : Type} (m m' : list (string * V)) :
  JsMap.values (m ++ m') = JsMap.values m ++ JsMap.values m'.
Proof. unfold JsMap.values. apply map_app. Qed.

(** X5. A ride request with a fresh identifier does not disturb what
    [getActiveRide] answers: whoever had an active ride before, the
    requesting customer included, is answered the same ride afterwards. The
    request is not refused for a customer who already has an active ride,
    and the new ride does not replace the older one. *)
Theorem rideRequest_keeps_active_ride env body srv userId d :
  getRide (uuid env) (storage srv) = None ->
  getActiveRide userId (storage srv) = Some d ->
  (exists ride, fst (rideRequest env body srv) = JsonRide (Some ride)) /\
  getActiveRide userId (storage (snd (rideRequest env body srv))) = Some d.
Proof.
  intros Hfresh Hactive. split; [by eexists|]. revert Hactive.
  unfold rideRequest, getActiveRide, getUser. simpl.
  unfold getRide in Hfresh. rewrite (set_fresh _ _ _ Hfresh).
  destruct (JsMap.get userId (users (storage srv))) as [user|]; [|done].
  rewrite values_app, array_find_app.
  destruct (array_find _ (JsMap.values (rides (storage srv)))) as [a|]; [|done].
  unfold getRideWithDetails, getUser. simpl. rewrite get_app.
  by destruct (JsMap.get (ride_id a) (rides (storage srv))).
Qed.

Lemma rideRequest_keeps_active_ride_witness :
  exists d,
    getActiveRide "demo-customer-1"
      (storage (snd (rideRequest sample_env sample_request
                       (init_server "2024-05-01T09:00:00.000Z")))) = Some d /\
    ride_id (details_ride d) = "demo-ride-1".
Proof.
  set (srv := init_server "2024-05-01T09:00:00.000Z").
  destruct (getActiveRide "demo-customer-1" (storage srv)) as [d|] eqn:Hd;
    [|vm_compute in Hd; discriminate Hd].
  destruct (rideRequest_keeps_active_ride sample_env sample_request srv
              "demo-customer-1" d eq_refl Hd) as [_ Hafter].
  exists d. split; [exact Hafter|].
  vm_compute in Hd. by injection Hd as <-.
Defined.

(** *** The list of available rides *)

Lemma NoDup_map_filter {A B : Type} (f : A -> B) (p : A -> bool) (l : list A) :
  NoDup (map f l) -> NoDup (map f (List.filter p l)).
Proof.
  induction l as [|x l IH]; simpl; [done|].
  intros [Hx Hnd]%NoDup_cons. destruct (p x); simpl; [|by apply IH].
  apply NoDup_cons. split; [|by apply IH].
  intros Hin. apply Hx.
  apply list_elem_of_In, in_map_iff in Hin as (y & Hy & Hin).
  apply filter_In in Hin as [Hin _].
  apply list_elem_of_In, in_map_iff. by exists y.
Qed.

Lemma ride_ids_are_keys srv :
  reachable srv ->
  map ride_id (JsMap.values (rides (storage srv))) = ride_keys (storage srv).
Proof.
  intros Hreach. pose proof (stored_ok_reachable _ Hreach) as Hok.
  unfold rides_all in Hok. unfold ride_keys, JsMap.values.
  induction (rides (storage srv)) as [|[k r] m IH]; simpl; [done|].
  destruct (Hok k r) as [-> _]; [apply list_elem_of_here|].
  f_equal. apply IH. intros k' r' Hin. apply Hok. by apply list_elem_of_further.
Qed.

Lemma available_rides_spec Math_sqrt srv :
  reachable srv ->
  NoDup (available_ids Math_sqrt (storage srv)) /\
  (forall k, k ∈ available_ids Math_sqrt (storage srv) <->
             exists r, getRide k (storage srv) = Some r /\ status r = waiting) /\
  (forall e, e ∈ getAvailableRides Math_sqrt (storage srv) ->
             exists r, getRide (av_rideId e) (storage srv) = Some r /\
                       status r = waiting /\
                       av_pickup e = pickup r /\ av_dropoff e = dropoff r /\
                       av_fare e = estimatedFare r).
Proof.
  intros Hreach. unfold available_ids, getAvailableRides.
  rewrite map_map, (map_ext _ ride_id) by done.
  split; [|split].
  - apply NoDup_map_filter. rewrite (ride_ids_are_keys _ Hreach).
    by apply ride_keys_NoDup_reachable.
  - intros k. rewrite list_elem_of_In, in_map_iff. split.
    + intros (r & <- & [Hin Hst]%filter_In). exists r.
      apply list_elem_of_In in Hin.
      split; [by apply stored_under_own_id | by apply status_eqb_eq].
    + intros (r & Hget & Hst). exists r.
      destruct (rides_all_get _ _ _ _ (stored_ok_reachable _ Hreach) Hget)
        as [Hid _].
      split; [done|]. apply filter_In.
      split; [by eapply list_elem_of_In, getRide_listed|].
      by apply status_eqb_eq.
  - intros e. rewrite list_elem_of_In, in_map_iff.
    intros (r & <- & [Hin Hst]%filter_In). exists r. simpl.
    apply list_elem_of_In in Hin.
    split; [by apply stored_under_own_id|].
    split; [by apply status_eqb_eq | done].
Qed.

(** X6. In a reachable state the list of available rides has one entry
    for each stored ride that is [waiting] and no other entry: an
    identifier is listed, once, exactly when the ride stored under it is
    waiting, and the entry carries the pickup, the dropoff and the
    estimated fare of that ride. *)
Theorem getAvailableRides_lists_waiting Math_sqrt srv :
  reachable srv ->
  NoDup (available_ids Math_sqrt (storage srv)) /\
  (forall k, k ∈ available_ids Math_sqrt (storage srv) <->
             exists r, getRide k (storage srv) = Some r /\ status r = waiting) /\
  (forall e, e ∈ getAvailableRides Math_sqrt (storage srv) ->
             exists r, getRide (av_rideId e) (storage srv) = Some r /\
                       status r = waiting /\
                       av_pickup e = pickup r /\ av_dropoff e = dropoff r /\
                       av_fare e = estimatedFare r).
Proof. exact (available_rides_spec Math_sqrt srv). Qed.

Lemma getAvailableRides_lists_waiting_witness :
  "demo-ride-1"
    ∈ available_ids (fun x => x) (storage (init_server "2024-05-01T09:00:00.000Z")).
Proof.
  destruct (getAvailableRides_lists_waiting (fun x => x) _
              (reachable_init "2024-05-01T09:00:00.000Z")) as (_ & Hiff & _).
  apply Hiff. eexists. split; [vm_compute; reflexivity | reflexivity].
Defined.

(** A successful accept: what was there before and what is stored after. *)
Lemma accept_success env rideId d srv x :
  fst (accept env rideId d srv) = JsonRide x ->
  exists ride r',
    getRide rideId (storage srv) = Some ride /\ status ride = waiting /\
    getActiveRide d (storage srv) = None /\
    x = Some r' /\
    r' = spread_ride ride
           {| p_driverId := Some (Some d); p_status := Some accepted;
              p_currentLocation :=
                Some (Some {| lat := lat (pickup ride) + (random env 0 - 0.5) * 0.02;
                              lng := lng (pickup ride) + (random env 1 - 0.5) * 0.02;
                              address := None |});
              p_startedAt := None; p_completedAt := None; p_actualFare := None;
              p_customerRating := None; p_driverRating := None;
              p_customerFeedback := None; p_driverFeedback := None |} /\
    rides (storage (snd (accept env rideId d srv)))
    = JsMap.set rideId r' (rides (storage srv)) /\
    users (storage (snd (accept env rideId d srv))) = users (storage srv).
Proof.
  unfold accept.
  destruct (getRide rideId (storage srv)) as [ride|] eqn:Hget; [|done].
  destruct (status_eqb (status ride) waiting) eqn:Hst; [|done]. simpl.
  destruct (getActiveRide d (storage srv)) eqn:Hact; [done|].
  rewrite (updateRide_found _ _ _ _ Hget). simpl.
  intros Hres. injection Hres as <-.
  exists ride. eexists. split; [done|].
  split; [by apply status_eqb_eq|]. split; [done|].
  split; [reflexivity|]. split; [reflexivity|].
  by rewrite storage_broadcast.
Qed.

(** X7. In a reachable state, after a successful accept the ride is gone
    from the list of available rides, in which it was before, and the
    list is otherwise the same: any other identifier is listed afterwards
    exactly if it was listed before. *)
Theorem accept_leaves_available_list Math_sqrt env rideId d srv x :
  reachable srv ->
  fst (accept env rideId d srv) = JsonRide x ->
  let st' := storage (snd (accept env rideId d srv)) in
  rideId ∈ available_ids Math_sqrt (storage srv) /\
  (rideId ∉ available_ids Math_sqrt st') /\
  (forall k, k <> rideId ->
             (k ∈ available_ids Math_sqrt st' <->
              k ∈ available_ids Math_sqrt (storage srv))).
Proof.
  intros Hreach Hres st'.
  assert (reachable (snd (accept env rideId d srv))) as Hreach'
    by apply (reachable_step srv (env, EvAccept rideId d) Hreach).
  destruct (available_rides_spec Math_sqrt _ Hreach) as (_ & Hiff & _).
  destruct (available_rides_spec Math_sqrt _ Hreach') as (_ & Hiff' & _).
  destruct (accept_success _ _ _ _ _ Hres)
    as (ride & r' & Hget & Hst & _ & _ & Hr' & Hrides & _).
  fold st' in Hiff', Hrides.
  split; [apply Hiff; by exists ride|]. split.
  - rewrite Hiff'. intros (r & Hr & Hw).
    rewrite (getRide_after_set _ _ _ _ _ Hrides), String.eqb_refl in Hr.
    injection Hr as <-. rewrite Hr' in Hw. discriminate Hw.
  - intros k Hk. rewrite Hiff, Hiff'.
    rewrite (getRide_after_set _ _ _ _ _ Hrides).
    by destruct (String.eqb_spec rideId k); [congruence|].
Qed.

Lemma accept_leaves_available_list_witness :
  "demo-ride-1"
    ∉ available_ids (fun x => x)
        (storage (snd (accept sample_env "demo-ride-1" "demo-driver-1"
                         (init_server "2024-05-01T09:00:00.000Z")))).
Proof.
  set (srv := init_server "2024-05-01T09:00:00.000Z").
  destruct (fst (accept sample_env "demo-ride-1" "demo-driver-1" srv))
    as [x| |] eqn:Hres; try (vm_compute in Hres; discriminate Hres).
  by destruct (accept_leaves_available_list (fun x => x) sample_env
                 "demo-ride-1" "demo-driver-1" srv x
                 (reachable_init "2024-05-01T09:00:00.000Z") Hres)
    as (_ & Hgone & _).
Defined.

(** *** The ride history *)

Lemma sort_insert_perm {A : Type} (cmp : A -> A -> Q) (x : A) (l : list A) :
  sort_insert cmp x l ≡ₚ x :: l.
Proof.
  induction l as [|y l IH]; simpl; [done|].
  destruct (Qle_bool 0 (cmp y x)); [done|].
  rewrite IH. apply Permutation_swap.
Qed.

Lemma Array_sort_perm {A : Type} (cmp : A -> A -> Q) (l : list A) :
  Array_sort cmp l ≡ₚ l.
Proof.
  unfold Array_sort. induction l as [|x l IH]; simpl; [done|].
  by rewrite sort_insert_perm, IH.
Qed.

(** Sorting with the comparator [key b - key a] puts larger keys first. *)
Lemma sort_insert_sorted {A : Type} (key : A -> Q) (x : A) (l : list A) :
  StronglySorted (fun a b => (key b <= key a)%Q) l ->
  StronglySorted (fun a b => (key b <= key a)%Q)
                 (sort_insert (fun a b => (key b - key a)%Q) x l).
Proof.
  induction l as [|y l IH]; simpl; intros Hs.
  - by repeat constructor.
  - apply StronglySorted_inv in Hs as [Hs Hy].
    destruct (Qle_bool 0 (key x - key y)) eqn:Hcmp.
    + apply Qle_bool_iff in Hcmp.
      constructor; [by constructor|].
      constructor; [lra|].
      eapply Forall_impl; [exact Hy|]. simpl. intros z Hz. lra.
    + assert (key x < key y)%Q as Hlt.
      { apply Qnot_le_lt. intros Hle.
        assert (Qle_bool 0 (key x - key y) = true) as Htrue
          by (apply Qle_bool_iff; lra).
        congruence. }
      constructor; [by apply IH|].
      rewrite sort_insert_perm. constructor; [lra | done].
Qed.

Lemma Array_sort_sorted {A : Type} (key : A -> Q) (l : list A) :
  StronglySorted (fun a b => (key b <= key a)%Q)
                 (Array_sort (fun a b => (key b - key a)%Q) l).
Proof.
  unfold Array_sort. induction l as [|x l IH]; simpl; [constructor|].
  by apply sort_insert_sorted.
Qed.

Lemma in_history_of_iff user userId ride :
  in_history_of user userId ride = true <->
  (status ride = completed \/ status ride = cancelled) /\
  (role user = role_customer -> customerId ride = userId) /\
  (role user = role_driver -> driverId ride = Some userId).
Proof.
  unfold in_history_of.
  assert (negb (status_eqb (status ride) completed)
          && negb (status_eqb (status ride) cancelled) = false
          <-> status ride = completed \/ status ride = cancelled) as Hst
    by (destruct (status ride); simpl; split; try done; intuition discriminate).
  destruct (negb (status_eqb (status ride) completed)
            && negb (status_eqb (status ride) cancelled)).
  - split; [done|]. intros [H _]. by apply Hst in H.
  - destruct (role user); simpl.
    + rewrite String.eqb_eq. split.
      * intros ->. split; [by apply Hst | done].
      * intros (_ & H & _). by apply H.
    + destruct (driverId ride) as [d|]; simpl.
      * rewrite String.eqb_eq. split.
        -- intros ->. split; [by apply Hst | done].
        -- intros (_ & _ & H). specialize (H eq_refl). congruence.
      * split; [done|]. intros (_ & _ & H). by specialize (H eq_refl).
Qed.

Lemma ride_history_spec Date_getTime srv userId :
  reachable srv ->
  let history := getRideHistory Date_getTime userId (storage srv) in
  length history <= 10 /\
  match getUser userId (storage srv) with
  | None => history = []
  | Some user =>
      exists all,
        history = take 10 all /\
        StronglySorted (newest_first Date_getTime) all /\
        (forall r, r ∈ all <->
                   getRide (ride_id r) (storage srv) = Some r /\
                   (status r = completed \/ status r = cancelled) /\
                   (role user = role_customer -> customerId r = userId) /\
                   (role user = role_driver -> driverId r = Some userId))
  end.
Proof.
  intros Hreach history. unfold history, getRideHistory.
  destruct (getUser userId (storage srv)) as [user|]; [|split; [simpl; lia|done]].
  split; [rewrite length_take; lia|].
  eexists. split; [reflexivity|].
  split; [apply (Array_sort_sorted (history_time Date_getTime))|].
  intros r. rewrite Array_sort_perm, list_elem_of_In, filter_In.
  rewrite <- list_elem_of_In, in_history_of_iff. split.
  - intros [Hin Hhist]. split; [by apply stored_under_own_id | done].
  - intros [Hget Hhist]. split; [by eapply getRide_listed | done].
Qed.

Lemma NoDup_of_map {A B : Type} (f : A -> B) (l : list A) :
  NoDup (map f l) -> NoDup l.
Proof.
  induction l as [|x l IH]; simpl; [constructor|].
  intros [Hx Hnd]%NoDup_cons. apply NoDup_cons. split; [|by apply IH].
  intros Hin. apply Hx. apply list_elem_of_In, in_map. by apply list_elem_of_In.
Qed.

(** The stable sort keeps, for every key, the elements with that key in
    the order in which they were. *)
Lemma sort_insert_stable {A : Type} (key : A -> Q) (t : Q) (x : A) (l : list A) :
  List.filter (fun a => Qeq_bool (key a) t)
              (sort_insert (fun a b => (key b - key a)%Q) x l)
  = List.filter (fun a => Qeq_bool (key a) t) (x :: l).
Proof.
  induction l as [|y l IH]; [done|].
  cbn [sort_insert]. destruct (Qle_bool 0 (key x - key y)) eqn:Hcmp; [done|].
  cbn [List.filter] in *. rewrite IH.
  destruct (Qeq_bool (key x) t) eqn:Hx, (Qeq_bool (key y) t) eqn:Hy; try done.
  apply Qeq_bool_iff in Hx, Hy.
  assert (Qle_bool 0 (key x - key y) = true) as Hle
    by (apply Qle_bool_iff; lra).
  congruence.
Qed.

Lemma Array_sort_stable {A : Type} (key : A -> Q) (t : Q) (l : list A) :
  List.filter (fun a => Qeq_bool (key a) t)
              (Array_sort (fun a b => (key b - key a)%Q) l)
  = List.filter (fun a => Qeq_bool (key a) t) l.
Proof.
  unfold Array_sort. induction l as [|x l IH]; [done|].
  cbn [foldr]. rewrite sort_insert_stable. cbn [List.filter]. by rewrite IH.
Qed.

(** X8. The history of an identifier that no user has is empty. For a
    user of a reachable store it has at most 10 entries: it is the first
    ten of the list [all] that holds every stored ride that is
    [completed] or [cancelled] and has the user as customer (role
    [customer]) or as driver (role [driver]), each of them once and no
    other ride, ordered newest first by completion time (creation time
    where there is none), rides of the same time in the order in which the
    store holds them. *)
Theorem getRideHistory_newest_terminal_rides Date_getTime srv userId :
  reachable srv ->
  let history := getRideHistory Date_getTime userId (storage srv) in
  length history <= 10 /\
  match getUser userId (storage srv) with
  | None => history = []
  | Some user =>
      exists all,
        history = take 10 all /\
        StronglySorted (newest_first Date_getTime) all /\
        NoDup all /\
        (forall r, r ∈ all <->
                   getRide (ride_id r) (storage srv) = Some r /\
                   (status r = completed \/ status r = cancelled) /\
                   (role user = role_customer -> customerId r = userId) /\
                   (role user = role_driver -> driverId r = Some userId)) /\
        (forall t,
           List.filter (fun r => Qeq_bool (history_time Date_getTime r) t) all
           = List.filter (fun r => Qeq_bool (history_time Date_getTime r) t)
               (List.filter (in_history_of user userId)
                  (JsMap.values (rides (storage srv)))))
  end.
Proof.
  intros Hreach history. unfold history, getRideHistory.
  destruct (getUser userId (storage srv)) as [user|]; [|split; [simpl; lia|done]].
  split; [rewrite length_take; lia|].
  eexists. split; [reflexivity|].
  split; [apply (Array_sort_sorted (history_time Date_getTime))|].
  split; [|split].
  - rewrite Array_sort_perm.
    apply (NoDup_of_map ride_id), NoDup_map_filter.
    rewrite (ride_ids_are_keys _ Hreach).
    by apply ride_keys_NoDup_reachable.
  - intros r. rewrite Array_sort_perm, list_elem_of_In, filter_In.
    rewrite <- list_elem_of_In, in_history_of_iff. split.
    + intros [Hin Hhist]. split; [by apply stored_under_own_id | done].
    + intros [Hget Hhist]. split; [by eapply getRide_listed | done].
  - intros t. apply (Array_sort_stable (history_time Date_getTime)).
Qed.

Lemma getRideHistory_newest_terminal_rides_witness :
  exists all,
    getRideHistory (fun _ => 0%Q) "demo-customer-1" (storage srv_cancelled)
    = take 10 all /\
    NoDup all /\ ride_A_cancelled ∈ all.
Proof.
  assert (reachable srv_cancelled) as Hreach by (by eexists _, _).
  pose proof (getRideHistory_newest_terminal_rides (fun _ => 0%Q) srv_cancelled
                "demo-customer-1" Hreach) as Hhist.
  cbv zeta in Hhist. destruct Hhist as [_ Hhist].
  assert (getUser "demo-customer-1" (storage srv_cancelled)
          = Some (nth 0 demoCustomers example_driver)) as Hu
    by (vm_compute; reflexivity).
  rewrite Hu in Hhist. destruct Hhist as (all & Hh & _ & Hnd & Hall & _).
  exists all. split; [exact Hh|]. split; [exact Hnd|].
  apply Hall. split; [vm_compute; reflexivity|].
  split; [by right|]. split; [reflexivity | discriminate].
Defined.

(** X9. In a reachable state the ride that [getActiveRide] answers for a
    user is never part of that user's history. *)
Theorem active_ride_not_in_history Date_getTime srv userId d :
  reachable srv ->
  getActiveRide userId (storage srv) = Some d ->
  details_ride d ∉ getRideHistory Date_getTime userId (storage srv).
Proof.
  intros Hreach Hactive Hin.
  destruct (active_ride_spec _ _ _ Hreach Hactive)
    as (user & Hu & _ & Hst & _).
  pose proof (ride_history_spec Date_getTime srv userId
                Hreach) as Hhist.
  cbv zeta in Hhist. destruct Hhist as [_ Hhist]. rewrite Hu in Hhist.
  destruct Hhist as (all & Hh & _ & Hall).
  rewrite Hh in Hin. apply subseteq_take in Hin.
  pose proof (proj1 (Hall _) Hin) as (_ & Hterm & _).
  destruct Hst as [Hs|[Hs|Hs]]; destruct Hterm as [Ht|Ht]; congruence.
Qed.

Lemma active_ride_not_in_history_witness :
  exists d,
    getActiveRide "demo-driver-1" (storage srv_accepted) = Some d /\
    details_ride d
      ∉ getRideHistory (fun _ => 0%Q) "demo-driver-1" (storage srv_accepted).
Proof.
  assert (reachable srv_accepted) as Hreach by (by eexists _, _).
  destruct (getActiveRide "demo-driver-1" (storage srv_accepted)) as [d|] eqn:Hd;
    [|vm_compute in Hd; discriminate Hd].
  exists d. split; [done|].
  by apply active_ride_not_in_history.
Defined.

(* ===================================================================== *)
(** ** Connecting a wallet *)
(* ===================================================================== *)

Lemma array_find_set {V : Type} (p : V -> bool) (k : string) (v : V)
    (m : list (string * V)) :
  array_find p (JsMap.values m) = None -> p v = true ->
  array_find p (JsMap.values (JsMap.set k v m)) = Some v.
Proof.
  intros Hnone Hv. induction m as [|[k' v'] m IH]; simpl in *.
  - by rewrite Hv.
  - destruct (p v') eqn:Hv'; [done|].
    destruct (String.eqb k' k); simpl; [by rewrite Hv|].
    rewrite Hv'. by apply IH.
Qed.

Lemma getUserByWallet_wallet wallet st u :
  getUserByWallet wallet st = Some u -> walletAddress u = wallet.
Proof.
  unfold getUserByWallet. intros [_ H]%array_find_Some.
  by apply String.eqb_eq in H.
Qed.

(** X10. Connecting a wallet that no user has creates a user under the
    fresh identifier, with that wallet, the requested role and no
    completed rides. The answer is that user, and it is the user found
    under the identifier and by the wallet afterwards; the users stored
    under other identifiers and the rides do not change. *)
Theorem authConnect_creates_user env wallet rl srv :
  getUserByWallet wallet (storage srv) = None ->
  let srv' := snd (authConnect env wallet rl srv) in
  exists user,
    fst (authConnect env wallet rl srv) = JsonUser user /\
    getUser (uuid env) (storage srv') = Some user /\
    getUserByWallet wallet (storage srv') = Some user /\
    (user_id user = uuid env /\ walletAddress user = wallet /\ role user = rl) /\
    (completedRides user == 0)%Q /\
    (forall id, id <> uuid env ->
                getUser id (storage srv') = getUser id (storage srv)) /\
    rides (storage srv') = rides (storage srv).
Proof.
  intros Hnew srv'. unfold srv', authConnect. rewrite Hnew.
  cbv beta iota zeta delta [createUser]. cbn [fst snd storage with_storage].
  eexists. split; [reflexivity|]. unfold getUser, getUserByWallet.
  cbn [users rides with_users].
  split; [apply get_set_eq|].
  split; [apply array_find_set; [exact Hnew | apply String.eqb_refl]|].
  split; [done|]. split; [reflexivity|].
  split; [|done]. intros id Hid. by apply get_set_ne.
Qed.

Lemma authConnect_creates_user_witness :
  exists user,
    getUser "ride-A"
      (storage (snd (authConnect sample_env "0xNEW" role_driver
                       (init_server "2024-05-01T09:00:00.000Z")))) = Some user /\
    walletAddress user = "0xNEW" /\ (reputation user == 65)%Q /\
    avgRating user = Binary64.Number 4.4 /\ balance user = Binary64.Number 200.
Proof.
  destruct (authConnect_creates_user sample_env "0xNEW" role_driver
              (init_server "2024-05-01T09:00:00.000Z"))
    as (user & _ & Hget & _ & (_ & Hw & _) & _).
  - reflexivity.
  - exists user. split; [exact Hget|]. split; [exact Hw|].
    vm_compute in Hget. injection Hget as <-.
    split; [reflexivity|]. split; vm_compute; reflexivity.
Defined.

(** X11. Connecting is idempotent per wallet: a second connect with the
    same wallet, whatever role it asks for and whatever the environment,
    answers the user of the first connect and changes nothing; the role
    of an existing user is not updated. *)
Theorem authConnect_twice env1 env2 wallet rl1 rl2 srv :
  authConnect env2 wallet rl2 (snd (authConnect env1 wallet rl1 srv))
  = authConnect env1 wallet rl1 srv.
Proof.
  unfold authConnect at 2 3.
  destruct (getUserByWallet wallet (storage srv)) as [user|] eqn:Hfound; simpl.
  - unfold authConnect. by rewrite Hfound.
  - unfold authConnect, getUserByWallet. simpl.
    erewrite array_find_set;
      [reflexivity | exact Hfound | apply String.eqb_refl].
Qed.

(* ===================================================================== *)
(** ** Starting a ride, and calls that fail *)
(* ===================================================================== *)

Lemma strict_eq_nullable o b :
  strict_eq (js_nullable o) b = true <->
  (o = None /\ b = JsNull) \/ (exists d, o = Some d /\ b = JsString d).
Proof.
  destruct o as [d|], b as [| |s|q|x]; simpl; split; try done;
    try (intros [[? ?]|(? & ? & ?)]; congruence).
  - intros ->%String.eqb_eq. right. by exists s.
  - intros [[? _]|(d' & [= ->] & [= ->])]; [done | apply String.eqb_refl].
  - by left.
Qed.

(** X12. In a reachable state, start succeeds exactly when the ride is
    stored with status [accepted] and the [driverId] of the body is the
    string naming its assigned driver; no other value, JSON null included,
    gets through. On success the stored ride is [in_progress], with
    [startedAt] the time of the call, the pickup as current location and
    the same driver. *)
Theorem start_only_by_assigned_driver env rideId bodyDriverId srv :
  reachable srv ->
  ((exists x, fst (start env rideId bodyDriverId srv) = JsonRide x) <->
   (exists ride d,
       getRide rideId (storage srv) = Some ride /\ status ride = accepted /\
       driverId ride = Some d /\ bodyDriverId = JsString d)) /\
  (forall x,
      fst (start env rideId bodyDriverId srv) = JsonRide x ->
      exists ride r',
        getRide rideId (storage srv) = Some ride /\
        x = Some r' /\
        getRide rideId (storage (snd (start env rideId bodyDriverId srv)))
        = Some r' /\
        status r' = in_progress /\ startedAt r' = Some (now env) /\
        currentLocation r' = Some (pickup ride) /\
        driverId r' = driverId ride).
Proof.
  intros Hreach. unfold start.
  destruct (getRide rideId (storage srv)) as [ride|] eqn:Hget.
  2:{ split; [|done]. split; [by intros [? ?] | by intros (? & ? & ? & _)]. }
  destruct (rides_all_get _ _ _ _ (stored_ok_reachable _ Hreach) Hget)
    as [_ [_ Hnone]].
  destruct (status_eqb (status ride) accepted) eqn:Hst; simpl.
  2:{ split; [|done]. split; [by intros [? ?]|].
      intros (r & d & [= <-] & Hacc & _).
      apply status_eqb_eq in Hacc. congruence. }
  apply status_eqb_eq in Hst.
  destruct (strict_eq (js_nullable (driverId ride)) bodyDriverId) eqn:Hdrv; simpl.
  - rewrite (updateRide_found _ _ _ _ Hget). simpl. split.
    + split; [|by eexists]. intros _.
      apply strict_eq_nullable in Hdrv as [[Hd _]|(d & Hd & Hb)].
      * destruct (Hnone Hd); congruence.
      * by exists ride, d.
    + intros x [= <-]. exists ride. eexists.
      do 2 (split; [reflexivity|]). rewrite storage_broadcast.
      unfold getRide. simpl. rewrite get_set_eq. by repeat split.
  - split; [|done]. split; [by intros [? ?]|].
    intros (r & d & [= <-] & _ & Hd & Hb).
    assert (strict_eq (js_nullable (driverId ride)) bodyDriverId = true) as Htrue
      by (apply strict_eq_nullable; right; by exists d).
    congruence.
Qed.

Lemma start_only_by_assigned_driver_witness :
  (exists x, fst (start sample_env "ride-A" (JsString "demo-driver-1") srv_accepted)
             = JsonRide x) /\
  ~ (exists x, fst (start sample_env "ride-A" JsNull srv_accepted) = JsonRide x).
Proof.
  assert (reachable srv_accepted) as Hreach by (by eexists _, _).
  split.
  - apply (start_only_by_assigned_driver sample_env "ride-A"
             (JsString "demo-driver-1") srv_accepted Hreach).
    exists ride_A_accepted, "demo-driver-1".
    split; [vm_compute; reflexivity | by repeat split].
  - intros Hok.
    apply (start_only_by_assigned_driver sample_env "ride-A" JsNull
             srv_accepted Hreach) in Hok as (ride & d & _ & _ & _ & Hb).
    discriminate Hb.
Defined.

Lemma failed_call_same_state env rideId srv code message :
  (forall d, fst (accept env rideId d srv) = Fail code message ->
             snd (accept env rideId d srv) = srv) /\
  (forall b, fst (start env rideId b srv) = Fail code message ->
             snd (start env rideId b srv) = srv) /\
  (forall body, fst (complete env rideId body srv) = Fail code message ->
                snd (complete env rideId body srv) = srv) /\
  (forall userId, fst (cancel env rideId userId srv) = Fail code message ->
                  snd (cancel env rideId userId srv) = srv).
Proof.
  repeat split.
  - intros d. unfold accept. destruct (getRide _ _); [|done].
    destruct (negb _); [done|]. destruct (getActiveRide _ _); [done|].
    by destruct (updateRide _ _ _).
  - intros b. unfold start. destruct (getRide _ _); [|done].
    destruct (negb (status_eqb _ _)); [done|].
    destruct (negb (strict_eq _ _)); [done|].
    by destruct (updateRide _ _ _).
  - intros body. unfold complete. destruct (negb _); [done|].
    destruct (getRide _ _); [|done].
    destruct (rating_step _ _ _ _). by destruct (updateRide _ _ _).
  - intros userId. unfold cancel. destruct (getRide _ _) as [ride|]; [|done].
    destruct (negb (status_eqb (status ride) waiting)
              && negb (status_eqb (status ride) accepted)); [done|].
    destruct (negb (strict_eq (js_string (customerId ride)) userId)
              && negb (strict_eq (js_nullable (driverId ride)) userId));
      [done|].
    by destruct (updateRide _ _ _).
Qed.

(** X13. A lifecycle call that is answered with an error changes nothing:
    whenever accept, start, complete or cancel answers with a status code
    and a message, the server state after the call is the state before
    it. *)
Theorem failed_call_changes_nothing env rideId srv code message :
  (forall d, fst (accept env rideId d srv) = Fail code message ->
             snd (accept env rideId d srv) = srv) /\
  (forall b, fst (start env rideId b srv) = Fail code message ->
             snd (start env rideId b srv) = srv) /\
  (forall body, fst (complete env rideId body srv) = Fail code message ->
                snd (complete env rideId body srv) = srv) /\
  (forall userId, fst (cancel env rideId userId srv) = Fail code message ->
                  snd (cancel env rideId userId srv) = srv).
Proof. exact (failed_call_same_state env rideId srv code message). Qed.

Lemma failed_call_changes_nothing_witness :
  fst (cancel sample_env "ride-A" (JsString "demo-driver-2") srv_accepted)
  = Fail 403 "Not authorized" /\
  snd (cancel sample_env "ride-A" (JsString "demo-driver-2") srv_accepted)
  = srv_accepted.
Proof.
  assert (fst (cancel sample_env "ride-A" (JsString "demo-driver-2") srv_accepted)
          = Fail 403 "Not authorized") as Hres.
  { unfold cancel.
    assert (getRide "ride-A" (storage srv_accepted) = Some ride_A_accepted)
      as -> by (vm_compute; reflexivity).
    reflexivity. }
  split; [exact Hres|].
  destruct (failed_call_changes_nothing sample_env "ride-A" srv_accepted
              403 "Not authorized") as (_ & _ & _ & Hcancel).
  by apply Hcancel.
Defined.

(** X14. For a ride identifier that is not stored, accept, start and
    cancel answer 404 "Ride not found" and change nothing; complete does
    the same for a body its schema accepts, and answers 400 "Invalid
    request" for a rating outside [1, 5], the body being checked before
    the ride is looked up. *)
Theorem unknown_ride_not_found env rideId srv :
  getRide rideId (storage srv) = None ->
  (forall d, accept env rideId d srv = (Fail 404 "Ride not found", srv)) /\
  (forall b, start env rideId b srv = (Fail 404 "Ride not found", srv)) /\
  (forall userId, cancel env rideId userId srv = (Fail 404 "Ride not found", srv)) /\
  (forall body,
      complete env rideId body srv
      = (if rideCompleteSchema body then Fail 404 "Ride not found"
         else Fail 400 "Invalid request", srv)) /\
  error_kind (Fail 404 "Ride not found") = Some NotFound /\
  error_kind (Fail 400 "Invalid request") = Some ValidationError.
Proof.
  intros Hget. unfold accept, start, cancel, complete. rewrite Hget.
  repeat split. intros body. by destruct (rideCompleteSchema body).
Qed.

Lemma unknown_ride_not_found_witness :
  cancel sample_env "no-such-ride" (JsString "demo-customer-1")
    (init_server "2024-05-01T09:00:00.000Z")
  = (Fail 404 "Ride not found", init_server "2024-05-01T09:00:00.000Z").
Proof.
  by apply (unknown_ride_not_found sample_env "no-such-ride"
              (init_server "2024-05-01T09:00:00.000Z")).
Defined.

(* ===================================================================== *)
(** ** The life cycle of a stored ride *)
(* ===================================================================== *)

Lemma ride_evolves_refl env r : ride_evolves env r r.
Proof. split; [by repeat split | left; by repeat split]. Qed.

Lemma evolves_after_set env id ride r1 st st' k r :
  getRide id st = Some ride ->
  rides st' = JsMap.set id r1 (rides st) ->
  ride_evolves env ride r1 ->
  getRide k st = Some r ->
  exists r', getRide k st' = Some r' /\ ride_evolves env r r'.
Proof.
  intros Hride Hrides Hev Hr. rewrite (getRide_after_set _ _ _ _ _ Hrides).
  destruct (String.eqb_spec id k) as [->|Hne].
  - exists r1. split; [done|]. congruence.
  - exists r. split; [done | apply ride_evolves_refl].
Qed.

Lemma startedAt_rating_step ride body updates st :
  p_startedAt (fst (rating_step ride body updates st)) = p_startedAt updates.
Proof.
  unfold rating_step.
  repeat match goal with
         | |- context [if ?b then _ else _] => destruct b
         | |- context [match ?o with Some _ => _ | None => _ end] => destruct o
         end; simpl; auto.
Qed.

Lemma startedAt_completion_updates env ride :
  p_startedAt (completion_updates env ride) = None.
Proof. unfold completion_updates. by destruct (_ && _). Qed.

Lemma complete_evolves env ride body st :
  ride_evolves env ride
    (spread_ride ride (fst (rating_step ride body (completion_updates env ride) st))).
Proof.
  destruct (status_rating_step ride body (completion_updates env ride) st)
    as (Hs & Hd & Hc & Hf).
  pose proof (startedAt_rating_step ride body (completion_updates env ride) st)
    as Hstart.
  rewrite startedAt_completion_updates in Hstart.
  split; [by repeat split|]. simpl. rewrite Hs, Hd, Hc, Hf, Hstart.
  destruct (completion_updates_cases env ride)
    as [(Hin & -> & -> & -> & ->)| ->]; simpl.
  - do 3 right. left. by repeat split.
  - left. by repeat split.
Qed.

(** What one event does to the [rides] map: nothing, or one stored ride
    is replaced by a ride it evolves to, or a requested ride is set under
    the fresh identifier. *)
Lemma step_rides_cases srv env e :
  rides (storage (step srv (env, e))) = rides (storage srv)
  \/ (exists id ride v,
         getRide id (storage srv) = Some ride /\
         rides (storage (step srv (env, e)))
         = JsMap.set id v (rides (storage srv)) /\
         ride_evolves env ride v)
  \/ (exists body,
         e = EvRideRequest body /\
         rides (storage (step srv (env, e)))
         = JsMap.set (uuid env)
             (fst (createRide body (uuid env) (now env) (storage srv)))
             (rides (storage srv))).
Proof.
  destruct e as [wallet rl|body|rideId d|rideId b|rideId body|rideId userId
                 |ws message|ws];
    cbv beta iota delta [step].
  - left. unfold authConnect. by destruct (getUserByWallet _ _).
  - right. right. by exists body.
  - destruct (fst (accept env rideId d srv)) as [x| |] eqn:Hres.
    + destruct (accept_success _ _ _ _ _ Hres)
        as (ride & r1 & Hget & Hst & _ & _ & -> & Hrides & _).
      right. left. eexists rideId, ride, _.
      split; [exact Hget|]. split; [exact Hrides|].
      split; [by repeat split|]. right. left. simpl.
      split; [done|]. split; [done|]. split; [by eexists|]. by repeat split.
    + exfalso. revert Hres. unfold accept.
      destruct (getRide rideId (storage srv)) as [ride|]; [|done].
      destruct (negb (status_eqb (status ride) waiting)); [done|].
      destruct (getActiveRide d (storage srv)); [done|].
      by destruct (updateRide _ _ _).
    + left.
      by rewrite (proj1 (failed_call_same_state env rideId srv code message)
                    _ Hres).
  - unfold start.
    destruct (getRide rideId (storage srv)) as [ride|] eqn:Hget; [|by left].
    destruct (status_eqb (status ride) accepted) eqn:Hst; [|by left].
    simpl. destruct (negb (strict_eq _ _)); [by left|].
    rewrite (updateRide_found _ _ _ _ Hget). simpl.
    right. left. eexists rideId, ride, _.
    split; [exact Hget|]. split; [by rewrite storage_broadcast|].
    apply status_eqb_eq in Hst.
    split; [by repeat split|]. do 2 right. left. by repeat split.
  - destruct (rideCompleteSchema body) eqn:Hvalid;
      [|left; by unfold complete; rewrite Hvalid].
    destruct (getRide rideId (storage srv)) as [ride|] eqn:Hget;
      [|left; by unfold complete; rewrite Hvalid, Hget].
    destruct (complete_found env _ _ _ _ Hvalid Hget) as [_ Hst].
    right. left. eexists rideId, ride, _.
    split; [exact Hget|]. split; [by rewrite Hst|]. apply complete_evolves.
  - unfold cancel.
    destruct (getRide rideId (storage srv)) as [ride|] eqn:Hget; [|by left].
    destruct (negb (status_eqb (status ride) waiting)
              && negb (status_eqb (status ride) accepted)) eqn:Hst;
      [by left|].
    destruct (negb (strict_eq (js_string (customerId ride)) userId)
              && negb (strict_eq (js_nullable (driverId ride)) userId));
      [by left|].
    rewrite (updateRide_found _ _ _ _ Hget). simpl.
    right. left. eexists rideId, ride, _.
    split; [exact Hget|]. split; [by rewrite storage_broadcast|].
    split; [by repeat split|]. do 4 right. simpl.
    split; [|by repeat split].
    destruct (status ride); simpl in Hst; auto; discriminate.
  - destruct (storage_on_message env ws message srv) as [Heq|(id & loc & Heq)];
      [left; by rewrite Heq|].
    destruct (getRide id (storage srv)) as [ride|] eqn:Hget.
    + right. left. eexists id, ride, _. split; [exact Hget|].
      split; [by rewrite Heq, (updateRide_found _ _ _ _ Hget)|].
      split; [by repeat split | left; by repeat split].
    + left. rewrite Heq. unfold updateRide. unfold getRide in Hget.
      by rewrite Hget.
  - left. by rewrite storage_on_close.
Qed.

Lemma step_ride_evolves srv env e k r :
  getRide k (storage srv) = Some r ->
  ~ requests_ride_id k (env, e) ->
  exists r',
    getRide k (storage (step srv (env, e))) = Some r' /\ ride_evolves env r r'.
Proof.
  intros Hr Hreq.
  destruct (step_rides_cases srv env e)
    as [Heq|[(id & ride & v & Hget & Hrides & Hev)|(body & -> & Hrides)]].
  - exists r. unfold getRide. rewrite Heq.
    split; [done | apply ride_evolves_refl].
  - by eapply evolves_after_set.
  - exists r. split; [|apply ride_evolves_refl].
    rewrite (getRide_after_set _ _ _ _ _ Hrides).
    destruct (String.eqb_spec (uuid env) k) as [Heq|Hne]; [|done].
    by destruct Hreq.
Qed.

(** X15. One event changes a stored ride only along the life cycle.
    Unless the event is a ride request that reuses its identifier, a
    stored ride is still stored afterwards with the same identifier,
    customer, pickup, dropoff, estimated fare, stake and creation time, and
    its status, driver, time stamps and fare either are all unchanged or
    take one of four steps: waiting to accepted with a driver assigned;
    accepted to in_progress with [startedAt] set; in_progress to completed
    with [completedAt] set and [actualFare] the estimated fare; waiting or
    accepted to cancelled with [completedAt] set. *)
Theorem ride_evolves_step srv env e k r :
  getRide k (storage srv) = Some r ->
  ~ requests_ride_id k (env, e) ->
  exists r',
    getRide k (storage (step srv (env, e))) = Some r' /\ ride_evolves env r r'.
Proof. exact (step_ride_evolves srv env e k r). Qed.

Lemma ride_evolves_step_witness :
  exists r',
    getRide "ride-A"
      (storage (step srv_accepted
                  (sample_env, EvStart "ride-A" (JsString "demo-driver-1"))))
    = Some r' /\
    ride_evolves sample_env ride_A_accepted r'.
Proof.
  apply (ride_evolves_step srv_accepted sample_env
           (EvStart "ride-A" (JsString "demo-driver-1")) "ride-A" ride_A_accepted).
  - vm_compute; reflexivity.
  - simpl. tauto.
Defined.

(** X16. A ride that is [completed] or [cancelled] stays as it is: after
    any run in which no ride request reuses its identifier, it is still
    stored with the same status, driver, time stamps and fare. *)
Theorem terminal_status_is_final trace srv k r :
  getRide k (storage srv) = Some r ->
  status r = completed \/ status r = cancelled ->
  Forall (fun ee => ~ requests_ride_id k ee) trace ->
  exists r',
    getRide k (storage (run trace srv)) = Some r' /\
    status r' = status r /\ driverId r' = driverId r /\
    startedAt r' = startedAt r /\ completedAt r' = completedAt r /\
    actualFare r' = actualFare r.
Proof.
  intros Hr Hterm Hfresh. revert srv r Hr Hterm.
  induction Hfresh as [|[env e] trace Hee _ IH]; intros srv r Hr Hterm.
  - exists r. by repeat split.
  - destruct (step_ride_evolves srv env e k r Hr Hee) as (r1 & Hr1 & _ & Hev).
    assert (status r1 = status r /\ driverId r1 = driverId r /\
            startedAt r1 = startedAt r /\ completedAt r1 = completedAt r /\
            actualFare r1 = actualFare r) as (Hs & Hd & Hsa & Hc & Hf).
    { destruct Hev as [?|[(Hw & _)|[(Ha & _)|[(Hi & _)|([Hw|Ha] & _)]]]];
        [done|..]; destruct Hterm; congruence. }
    destruct (IH (step srv (env, e)) r1 Hr1) as (r' & Hr' & Hrest).
    { by rewrite Hs. }
    exists r'. split; [exact Hr'|]. rewrite <- Hs, <- Hd, <- Hsa, <- Hc, <- Hf.
    exact Hrest.
Qed.

Lemma terminal_status_is_final_witness :
  exists r',
    getRide "ride-A"
      (storage (run [(sample_env, EvAccept "ride-A" "demo-driver-1");
                     (sample_env, EvStart "ride-A" (JsString "demo-driver-1"))]
                  srv_cancelled)) = Some r' /\
    status r' = cancelled /\ driverId r' = None.
Proof.
  destruct (terminal_status_is_final
              [(sample_env, EvAccept "ride-A" "demo-driver-1");
               (sample_env, EvStart "ride-A" (JsString "demo-driver-1"))]
              srv_cancelled "ride-A" ride_A_cancelled)
    as (r' & Hr' & Hs & Hd & _).
  - vm_compute; reflexivity.
  - by right.
  - repeat constructor; simpl; tauto.
  - by exists r'.
Defined.

(** Whatever holds of requested rides and is kept by the steps of the
    life cycle holds of every stored ride of every reachable state. *)
Lemma reachable_rides_all (P : Ride -> Prop) :
  (forall created, rides_all (fun _ => P) (seedDemoData created)) ->
  (forall body id created st, P (fst (createRide body id created st))) ->
  (forall env r r', ride_evolves env r r' -> P r -> P r') ->
  forall srv, reachable srv -> rides_all (fun _ => P) (storage srv).
Proof.
  intros Hseed Hnew Hev.
  apply (reachable_invariant (fun srv => rides_all (fun _ => P) (storage srv)));
    [exact Hseed|].
  intros srv [env e] Hall.
  destruct (step_rides_cases srv env e)
    as [Heq|[(id & ride & v & Hget & Hrides & Hstep)|(body & -> & Hrides)]].
  - unfold rides_all. by rewrite Heq.
  - eapply rides_all_set; [exact Hall| |exact Hrides].
    eapply Hev; [exact Hstep|]. by eapply (rides_all_get (fun _ => P)).
  - eapply rides_all_set; [exact Hall| |exact Hrides]. apply Hnew.
Qed.

Lemma times_match_status_stored srv :
  reachable srv -> rides_all (fun _ => times_match_status) (storage srv).
Proof.
  intros Hreach.
  apply reachable_rides_all; [| |clear; intros env r r' Hstep Hr|done].
  - intros created k' r' Hin. simpl in Hin.
    repeat (apply elem_of_cons in Hin as [Hin|Hin];
            [injection Hin as -> ->; unfold times_match_status; simpl;
             intuition discriminate|]).
    by apply not_elem_of_nil in Hin.
  - intros body id created st. unfold times_match_status. simpl.
    intuition discriminate.
  - destruct Hstep as [(_ & _ & _ & _ & Hfare & _) Hcases].
    destruct Hr as (Hstart & Hdone & Hfee & Hnofee).
    unfold times_match_status.
    destruct Hcases
      as [(Hs & _ & Hsa & Hc & Hf)
         |[(Hw & Hs & _ & Hsa & Hc & Hf)
          |[(Ha & Hs & _ & Hsa & Hc & Hf)
           |[(Hi & Hs & _ & Hsa & Hc & Hf)
            |(Hwa & Hs & _ & Hsa & Hc & Hf)]]]];
      rewrite Hs, Hsa, Hc, Hf, ?Hfare;
      [done | rewrite Hw in * | rewrite Ha in * | rewrite Hi in *
      | destruct Hwa as [Hw|Ha]; [rewrite Hw in * | rewrite Ha in *]];
      clear - Hstart Hdone Hfee Hnofee;
      intuition (discriminate || congruence).
Qed.

(** X17. In every reachable state the time stamps and the fare of a
    stored ride fit its status: [startedAt] is set exactly for rides that
    are [in_progress] or [completed], [completedAt] exactly for rides that
    are [completed] or [cancelled], and [actualFare] is the estimated fare
    for a [completed] ride and null for every other ride. *)
Theorem times_match_status_reachable srv k r :
  reachable srv ->
  getRide k (storage srv) = Some r ->
  (startedAt r <> None <-> status r = in_progress \/ status r = completed) /\
  (completedAt r <> None <-> status r = completed \/ status r = cancelled) /\
  (status r = completed -> actualFare r = Some (estimatedFare r)) /\
  (status r <> completed -> actualFare r = None).
Proof.
  intros Hreach Hget.
  apply (rides_all_get (fun _ => times_match_status) k r (storage srv));
    [|exact Hget].
  by apply times_match_status_stored.
Qed.

Lemma times_match_status_reachable_witness :
  startedAt ride_A_in_progress <> None /\ completedAt ride_A_in_progress = None /\
  actualFare ride_A_in_progress = None.
Proof.
  assert (reachable srv_in_progress) as Hreach by (by eexists _, _).
  assert (getRide "ride-A" (storage srv_in_progress) = Some ride_A_in_progress)
    as Hget by (vm_compute; reflexivity).
  destruct (times_match_status_reachable srv_in_progress "ride-A"
              ride_A_in_progress Hreach Hget) as (Hstart & _ & _ & Hfee).
  split; [apply Hstart; by left|]. split; [reflexivity|].
  apply Hfee. discriminate.
Defined.

(** *** The whole life cycle *)

Lemma accept_ok env rideId d srv ride :
  getRide rideId (storage srv) = Some ride ->
  status ride = waiting ->
  getActiveRide d (storage srv) = None ->
  exists r1,
    fst (accept env rideId d srv) = JsonRide (Some r1) /\
    getRide rideId (storage (snd (accept env rideId d srv))) = Some r1 /\
    ride_evolves env ride r1 /\
    status r1 = accepted /\ driverId r1 = Some d /\
    completedAt r1 = completedAt ride.
Proof.
  intros Hget Hst Hact. unfold accept. rewrite Hget, Hst, Hact. simpl.
  rewrite (updateRide_found _ _ _ _ Hget). simpl.
  eexists. split; [reflexivity|]. rewrite storage_broadcast.
  unfold getRide. simpl. rewrite get_set_eq. split; [reflexivity|].
  split; [|done]. split; [by repeat split|]. right. left. simpl.
  split; [done|]. split; [done|]. split; [by eexists|]. by repeat split.
Qed.

Lemma start_ok env rideId d srv ride :
  getRide rideId (storage srv) = Some ride ->
  status ride = accepted -> driverId ride = Some d ->
  exists r2,
    fst (start env rideId (JsString d) srv) = JsonRide (Some r2) /\
    getRide rideId (storage (snd (start env rideId (JsString d) srv))) = Some r2 /\
    ride_evolves env ride r2 /\
    status r2 = in_progress /\ startedAt r2 = Some (now env) /\
    driverId r2 = Some d /\ completedAt r2 = completedAt ride.
Proof.
  intros Hget Hst Hd. unfold start. rewrite Hget, Hst, Hd. simpl.
  rewrite String.eqb_refl. simpl.
  rewrite (updateRide_found _ _ _ _ Hget). simpl.
  eexists. split; [reflexivity|]. rewrite storage_broadcast.
  unfold getRide. simpl. rewrite get_set_eq. split; [reflexivity|].
  split; [|by rewrite Hd]. split; [by repeat split|]. do 2 right. left.
  simpl. by rewrite Hd.
Qed.

(** X18. The three calls of a ride that goes well compose: when a
    waiting ride with no completion time is accepted for [d], who has no
    active ride, then started by [d], then completed with a body the
    schema accepts, every call answers with the ride, and the ride is
    finally stored as [completed] with driver [d], [startedAt] the time of
    the start, [completedAt] the time of the completion, [actualFare] the
    estimated fare, and the customer and request data it had. *)
Theorem lifecycle_happy_path env1 env2 env3 rideId d body srv ride :
  getRide rideId (storage srv) = Some ride ->
  status ride = waiting -> completedAt ride = None ->
  getActiveRide d (storage srv) = None ->
  rideCompleteSchema body = true ->
  let s1 := snd (accept env1 rideId d srv) in
  let s2 := snd (start env2 rideId (JsString d) s1) in
  let s3 := snd (complete env3 rideId body s2) in
  exists r1 r2 r3,
    fst (accept env1 rideId d srv) = JsonRide (Some r1) /\
    fst (start env2 rideId (JsString d) s1) = JsonRide (Some r2) /\
    fst (complete env3 rideId body s2) = JsonRide (Some r3) /\
    getRide rideId (storage s3) = Some r3 /\
    status r3 = completed /\ driverId r3 = Some d /\
    startedAt r3 = Some (now env2) /\ completedAt r3 = Some (now env3) /\
    actualFare r3 = Some (estimatedFare ride) /\
    customerId r3 = customerId ride /\ pickup r3 = pickup ride /\
    dropoff r3 = dropoff ride /\ estimatedFare r3 = estimatedFare ride /\
    stakedAmount r3 = stakedAmount ride.
Proof.
  intros Hget Hst Hdone Hact Hvalid s1 s2 s3.
  destruct (accept_ok env1 _ _ _ _ Hget Hst Hact)
    as (r1 & Hres1 & Hget1 & [Hsame1 _] & Hs1 & Hd1 & Hc1).
  destruct (start_ok env2 _ _ _ _ Hget1 Hs1 Hd1)
    as (r2 & Hres2 & Hget2 & [Hsame2 _] & Hs2 & Hsa2 & Hd2 & Hc2).
  fold s1 in Hget1, Hres2, Hget2. fold s2 in Hget2.
  destruct (complete_stored env3 _ _ _ _ Hvalid Hget2)
    as (r3 & Hres3 & Hget3 & Hs3 & Hc3 & Hf3 & Hd3 & Hcust3).
  fold s3 in Hget3.
  rewrite Hc1, Hdone in Hc2.
  assert (completion_updates env3 r2
          = {| p_driverId := None; p_status := Some completed;
               p_currentLocation := None; p_startedAt := None;
               p_completedAt := Some (Some (now env3));
               p_actualFare := Some (Some (estimatedFare r2));
               p_customerRating := None; p_driverRating := None;
               p_customerFeedback := None; p_driverFeedback := None |}) as Hupd.
  { unfold completion_updates. by rewrite Hs2, Hc2. }
  rewrite Hupd in Hs3, Hc3, Hf3. simpl in Hs3, Hc3, Hf3.
  destruct (complete_found env3 _ _ _ _ Hvalid Hget2) as [Hres3' _].
  destruct Hsame1 as (_ & Hcu1 & Hp1 & Hdp1 & He1 & Hsk1 & _).
  destruct Hsame2 as (_ & Hcu2 & Hp2 & Hdp2 & He2 & Hsk2 & _).
  assert (ride_evolves env3 r2 r3) as [(_ & Hcu3 & Hp3 & Hdp3 & He3 & Hsk3 & _) Hev3].
  { rewrite Hres3' in Hres3. injection Hres3 as <-. apply complete_evolves. }
  assert (startedAt r3 = startedAt r2) as Hsa3.
  { destruct Hev3 as [(_ & _ & ? & _)|[(? & _)|[(? & _)|[(_ & _ & _ & ? & _)|([?|?] & _)]]]];
      congruence. }
  exists r1, r2, r3. repeat split; try done; congruence.
Qed.

Lemma lifecycle_happy_path_witness :
  exists r3,
    getRide "demo-ride-1"
      (storage
         (snd (complete sample_env "demo-ride-1" driver_rates_5
                 (snd (start sample_env "demo-ride-1" (JsString "demo-driver-1")
                         (snd (accept sample_env "demo-ride-1" "demo-driver-1"
                                 (init_server "2024-05-01T09:00:00.000Z"))))))))
    = Some r3 /\
    status r3 = completed /\ (exists f, actualFare r3 = Some f /\ (f == 28.5)%Q).
Proof.
  set (srv := init_server "2024-05-01T09:00:00.000Z").
  edestruct (lifecycle_happy_path sample_env sample_env sample_env
               "demo-ride-1" "demo-driver-1" driver_rates_5 srv)
    as (r1 & r2 & r3 & _ & _ & _ & Hget & Hs & _ & _ & _ & Hf & _).
  - vm_compute; reflexivity.
  - reflexivity.
  - reflexivity.
  - vm_compute; reflexivity.
  - reflexivity.
  - exists r3. split; [exact Hget|]. split; [exact Hs|].
    eexists. split; [exact Hf | reflexivity].
Defined.

Lemma rated_party_user ride body st id u :
  rated_party ride body st = Some (id, u) -> getUser id st = Some u.
Proof.
  unfold rated_party. destruct (completedBy body).
  - destruct (driverId ride) as [d|]; [|done].
    destruct (truthy_str d); [|done].
    destruct (getUser d st) eqn:Hu; [|done]. by intros [= <- <-].
  - destruct (getUser (customerId ride) st) eqn:Hu; [|done]. by intros [= <- <-].
Qed.

(** X19. No lifecycle call moves money or changes who the users are.
    Accept, start and cancel leave the users untouched; complete adds and
    removes no user and, for every user, keeps identifier, wallet, role,
    name and balance: only the rating fields of the rated party change. *)
Theorem lifecycle_keeps_users env rideId srv :
  (forall d, users (storage (snd (accept env rideId d srv))) = users (storage srv)) /\
  (forall b, users (storage (snd (start env rideId b srv))) = users (storage srv)) /\
  (forall userId,
      users (storage (snd (cancel env rideId userId srv))) = users (storage srv)) /\
  (forall body id,
      match getUser id (storage (snd (complete env rideId body srv))),
            getUser id (storage srv) with
      | Some u', Some u =>
          user_id u' = user_id u /\ walletAddress u' = walletAddress u /\
          role u' = role u /\ name u' = name u /\ balance u' = balance u
      | None, None => True
      | _, _ => False
      end).
Proof.
  assert (forall srv', storage srv' = storage srv ->
                       users (storage srv') = users (storage srv)) as Hsame
    by (by intros srv' ->).
  split; [|split; [|split]].
  - intros d. unfold accept.
    destruct (getRide rideId (storage srv)) as [ride|] eqn:Hget; [|done].
    destruct (negb _); [done|]. destruct (getActiveRide _ _); [done|].
    rewrite (updateRide_found _ _ _ _ Hget). simpl. by rewrite storage_broadcast.
  - intros b. unfold start.
    destruct (getRide rideId (storage srv)) as [ride|] eqn:Hget; [|done].
    destruct (negb (status_eqb _ _)); [done|].
    destruct (negb (strict_eq _ _)); [done|].
    rewrite (updateRide_found _ _ _ _ Hget). simpl. by rewrite storage_broadcast.
  - intros userId. unfold cancel.
    destruct (getRide rideId (storage srv)) as [ride|] eqn:Hget; [|done].
    destruct (negb (status_eqb (status ride) waiting)
              && negb (status_eqb (status ride) accepted)); [done|].
    destruct (negb (strict_eq (js_string (customerId ride)) userId)
              && negb (strict_eq (js_nullable (driverId ride)) userId));
      [done|].
    rewrite (updateRide_found _ _ _ _ Hget). simpl. by rewrite storage_broadcast.
  - intros body id.
    destruct (rideCompleteSchema body) eqn:Hvalid.
    2:{ assert (snd (complete env rideId body srv) = srv) as ->
          by (by unfold complete; rewrite Hvalid).
        by destruct (getUser id (storage srv)). }
    destruct (getRide rideId (storage srv)) as [ride|] eqn:Hget.
    2:{ assert (snd (complete env rideId body srv) = srv) as ->
          by (by unfold complete; rewrite Hvalid, Hget).
        by destruct (getUser id (storage srv)). }
    unfold getUser. rewrite (users_complete _ _ _ _ _ Hvalid Hget).
    destruct (rating body) as [q|];
      [|by destruct (JsMap.get id (users (storage srv)))].
    destruct (rated_party ride body (storage srv)) as [[id0 u0]|] eqn:Hparty;
      [|by destruct (JsMap.get id (users (storage srv)))].
    apply rated_party_user in Hparty. unfold getUser in Hparty.
    destruct (String.eqb_spec id0 id) as [->|Hne].
    + rewrite get_set_eq, Hparty. by repeat split.
    + rewrite get_set_ne by done.
      by destruct (JsMap.get id (users (storage srv))).
Qed.

(* ===================================================================== *)
(** ** Frames on the live channel *)
(* ===================================================================== *)

Lemma map_fmap {A B : Type} (f : A -> B) (l : list A) : map f l = f <$> l.
Proof. induction l as [|x l IH]; simpl; [done|]. by rewrite IH. Qed.

(** The frames of one fan-out: one per selected subscriber. *)
Lemma fan_out_frames (frame : Frame) (P : nat -> Prop)
    `{!forall c, Decision (P c)} (subs : gset nat) :
  let frames := map (fun c => (c, frame)) (filter P (elements subs)) in
  NoDup frames /\
  (forall c f, (c, f) ∈ frames <-> f = frame /\ c ∈ subs /\ P c).
Proof.
  intros frames. unfold frames. rewrite map_fmap. split.
  - apply NoDup_fmap_2; [by intros c c' [= ->]|].
    apply NoDup_filter, NoDup_elements.
  - intros c f. rewrite list_elem_of_fmap. split.
    + intros (c' & [= -> ->] & [HP Hin]%list_elem_of_filter).
      by rewrite elem_of_elements in Hin.
    + intros (-> & Hin & HP). exists c. split; [done|].
      apply list_elem_of_filter. by rewrite elem_of_elements.
Qed.

Lemma broadcast_frames_spec env rideId payload srv :
  let srv' := broadcastRideStatus env rideId payload srv in
  exists frames,
    sent srv' = sent srv ++ frames /\
    NoDup frames /\
    (forall c f, (c, f) ∈ frames <->
                 f = FrameStatus payload /\ subscribed_to srv c rideId /\
                 isOpen env c = true) /\
    storage srv' = storage srv /\ same_registry srv srv' /\
    rideLocations srv' = rideLocations srv.
Proof.
  intros srv'. unfold srv', broadcastRideStatus, subscribed_to.
  destruct (rideSubscriptions srv !! rideId) as [subs|] eqn:Hsubs.
  - destruct (fan_out_frames (FrameStatus payload)
                (fun c => isOpen env c = true) subs) as [Hnd Hiff].
    eexists. split; [reflexivity|]. split; [exact Hnd|].
    split; [|by repeat split].
    intros c f. rewrite Hiff. split.
    + intros (-> & Hin & Hopen). split; [done|]. split; [by exists subs | done].
    + intros (-> & (subs' & [= <-] & Hin) & Hopen). by repeat split.
  - exists []. rewrite app_nil_r. split; [done|]. split; [apply NoDup_nil_2|].
    split; [|by repeat split].
    intros c f. split; [by intros ?%not_elem_of_nil|].
    by intros (_ & (subs & ? & _) & _).
Qed.

(** X20. [broadcastRideStatus] writes the status frame once to every
    connection that is subscribed to the ride and open, and to no other
    connection; it changes neither the store, nor the registry, nor the
    stored locations. *)
Theorem broadcastRideStatus_recipients env rideId payload srv :
  let srv' := broadcastRideStatus env rideId payload srv in
  exists frames,
    sent srv' = sent srv ++ frames /\
    NoDup frames /\
    (forall c f, (c, f) ∈ frames <->
                 f = FrameStatus payload /\ subscribed_to srv c rideId /\
                 isOpen env c = true) /\
    storage srv' = storage srv /\ same_registry srv srv' /\
    rideLocations srv' = rideLocations srv.
Proof. exact (broadcast_frames_spec env rideId payload srv). Qed.

(** What the [location_update] handler leaves in the state. *)
Lemma on_location_update_fields env ws rideId messageData srv :
  truthy_str rideId = true ->
  let srv' := on_location_update env ws (Some rideId) (Some messageData) srv in
  storage srv'
  = snd (updateRide rideId
           {| p_driverId := None; p_status := None;
              p_currentLocation :=
                Some (Some {| lat := d_lat messageData;
                              lng := d_lng messageData;
                              address := None |});
              p_startedAt := None; p_completedAt := None;
              p_actualFare := None; p_customerRating := None;
              p_driverRating := None; p_customerFeedback := None;
              p_driverFeedback := None |}
           (storage srv)) /\
  rideLocations srv'
  = <[rideId := location_sample env messageData]> (rideLocations srv) /\
  same_registry srv srv'.
Proof.
  intros Htruthy srv'. unfold srv', on_location_update. rewrite Htruthy.
  cbv zeta. cbn [rideSubscriptions with_storage with_locations].
  by destruct (rideSubscriptions srv !! rideId).
Qed.

(** X21. A [location_update] message with a non-empty ride identifier
    and data stores the sample for that ride in the relay, replacing any
    earlier one and leaving the samples of other rides alone; the time
    stamp of the sample is the one sent, or the clock when none or zero
    was sent. If the ride is stored, its [currentLocation] becomes the
    latitude and longitude of the sample, without address, whatever its
    status, and status and driver stay; if it is not stored, the store is
    unchanged but the relay keeps the sample. No other ride changes. *)
Theorem location_update_stores_sample env ws rideId messageData srv :
  truthy_str rideId = true ->
  let srv' := on_location_update env ws (Some rideId) (Some messageData) srv in
  rideLocations srv' !! rideId = Some (location_sample env messageData) /\
  (forall id, id <> rideId -> rideLocations srv' !! id = rideLocations srv !! id) /\
  match getRide rideId (storage srv) with
  | Some ride =>
      exists ride',
        getRide rideId (storage srv') = Some ride' /\
        currentLocation ride'
        = Some {| lat := d_lat messageData; lng := d_lng messageData;
                  address := None |} /\
        status ride' = status ride /\ driverId ride' = driverId ride
  | None => storage srv' = storage srv
  end /\
  (forall k, k <> rideId -> getRide k (storage srv') = getRide k (storage srv)) /\
  same_registry srv srv'.
Proof.
  intros Htruthy srv'.
  destruct (on_location_update_fields env ws rideId messageData srv Htruthy)
    as (Hst & Hloc & Hreg).
  fold srv' in Hst, Hloc, Hreg. rewrite Hst, Hloc.
  split; [apply lookup_insert_eq|].
  split; [intros id Hid; by apply lookup_insert_ne|].
  split; [|split; [|exact Hreg]].
  - destruct (getRide rideId (storage srv)) as [ride|] eqn:Hget.
    + rewrite (updateRide_found _ _ _ _ Hget). simpl.
      eexists. unfold getRide. simpl. rewrite get_set_eq.
      split; [reflexivity | by repeat split].
    + unfold updateRide. unfold getRide in Hget. by rewrite Hget.
  - intros k Hk.
    destruct (getRide rideId (storage srv)) as [ride|] eqn:Hget.
    + rewrite (updateRide_found _ _ _ _ Hget). unfold getRide. simpl.
      by apply get_set_ne.
    + unfold updateRide. unfold getRide in Hget. by rewrite Hget.
Qed.

Lemma location_update_stores_sample_witness :
  exists ride',
    getRide "ride-A"
      (storage (on_location_update sample_env 9 (Some "ride-A")
                  (Some {| d_lat := 37.78; d_lng := -122.41;
                           d_timestamp := None; d_speed := None |})
                  srv_cancelled)) = Some ride' /\
    status ride' = cancelled /\
    currentLocation ride'
    = Some {| lat := 37.78; lng := -122.41; address := None |}.
Proof.
  pose proof (location_update_stores_sample sample_env 9 "ride-A"
                {| d_lat := 37.78; d_lng := -122.41; d_timestamp := None;
                   d_speed := None |} srv_cancelled eq_refl) as H.
  cbv zeta in H. destruct H as (_ & _ & Hride & _).
  assert (getRide "ride-A" (storage srv_cancelled) = Some ride_A_cancelled)
    as Hget by (vm_compute; reflexivity).
  rewrite Hget in Hride. destruct Hride as (ride' & Hget' & Hloc & Hst & _).
  by exists ride'.
Defined.

(** X22. The fan-out of a [location_update] message: the sample is
    written once to every open connection subscribed to the ride, except
    the connection that sent it, and to nobody else. *)
Theorem location_update_fan_out env ws rideId messageData srv :
  truthy_str rideId = true ->
  let srv' := on_location_update env ws (Some rideId) (Some messageData) srv in
  exists frames,
    sent srv' = sent srv ++ frames /\
    NoDup frames /\
    (forall c f, (c, f) ∈ frames <->
                 f = FrameLocation (location_sample env messageData) /\
                 subscribed_to srv c rideId /\ c <> ws /\
                 isOpen env c = true).
Proof.
  intros Htruthy srv'. unfold srv', on_location_update, subscribed_to.
  rewrite Htruthy. fold (location_sample env messageData). simpl.
  destruct (rideSubscriptions srv !! rideId) as [subs|] eqn:Hsubs.
  - destruct (fan_out_frames (FrameLocation (location_sample env messageData))
                (fun c => negb (Nat.eqb c ws) && isOpen env c = true) subs)
      as [Hnd Hiff].
    eexists. split; [reflexivity|]. split; [exact Hnd|].
    intros c f. rewrite Hiff, andb_true_iff, negb_true_iff, Nat.eqb_neq. split.
    + intros (-> & Hin & Hne & Hopen). split; [done|].
      split; [by exists subs | done].
    + intros (-> & (subs' & [= <-] & Hin) & Hne & Hopen). by repeat split.
  - exists []. simpl. rewrite app_nil_r. split; [done|].
    split; [apply NoDup_nil_2|].
    intros c f. split; [by intros ?%not_elem_of_nil|].
    by intros (_ & (subs & ? & _) & _).
Qed.

Lemma location_update_fan_out_witness :
  exists frames,
    sent (on_location_update sample_env 1 (Some "r2")
            (Some {| d_lat := 37.78; d_lng := -122.41; d_timestamp := None;
                     d_speed := None |}) srv_live)
    = sent srv_live ++ frames /\
    forall f, (1, f) ∉ frames.
Proof.
  destruct (location_update_fan_out sample_env 1 "r2"
              {| d_lat := 37.78; d_lng := -122.41; d_timestamp := None;
                 d_speed := None |} srv_live eq_refl)
    as (frames & Hsent & _ & Hiff).
  exists frames. split; [exact Hsent|].
  intros f Hin. apply Hiff in Hin as (_ & _ & Hne & _). by apply Hne.
Defined.

(** X23. A late subscriber is not blind: once a [location_update] for a
    ride has been handled, a connection that subscribes to that ride is
    sent exactly that sample, with the subscription. *)
Theorem late_subscriber_gets_last_sample env ws0 ws rideId messageData srv :
  truthy_str rideId = true ->
  let s1 := on_location_update env ws0 (Some rideId) (Some messageData) srv in
  let s2 := on_subscribe ws (Some rideId) s1 in
  sent s2 = sent s1 ++ [(ws, FrameLocation (location_sample env messageData))].
Proof.
  intros Htruthy s1 s2.
  destruct (on_subscribe_fields ws rideId s1 Htruthy) as (_ & _ & Hsent & _).
  fold s2 in Hsent. rewrite Hsent. unfold location_frames.
  destruct (on_location_update_fields env ws0 rideId messageData srv Htruthy)
    as (_ & Hloc & _).
  fold s1 in Hloc. by rewrite Hloc, lookup_insert_eq.
Qed.

Lemma late_subscriber_gets_last_sample_witness :
  let s1 := on_location_update sample_env 9 (Some "r1")
              (Some {| d_lat := 37.78; d_lng := -122.41; d_timestamp := None;
                       d_speed := None |}) srv_live in
  exists sample,
    sent (on_subscribe 4 (Some "r1") s1) = sent s1 ++ [(4, FrameLocation sample)] /\
    upd_lat sample = 37.78%Q.
Proof.
  intros s1. eexists. split.
  - apply (late_subscriber_gets_last_sample sample_env 9 4 "r1"
             {| d_lat := 37.78; d_lng := -122.41; d_timestamp := None;
                d_speed := None |} srv_live eq_refl).
  - reflexivity.
Defined.

(* ===================================================================== *)
(** ** The relay and the status frames of the closing transitions *)
(* ===================================================================== *)

Lemma sent_broadcast_storage env rideId payload st srv :
  sent (broadcastRideStatus env rideId payload (with_storage st srv))
  = sent (broadcastRideStatus env rideId payload srv).
Proof.
  unfold broadcastRideStatus. simpl.
  by destruct (rideSubscriptions srv !! rideId).
Qed.

Lemma locations_broadcast env rideId payload srv :
  rideLocations (broadcastRideStatus env rideId payload srv) = rideLocations srv.
Proof. unfold broadcastRideStatus. by destruct (_ !! _). Qed.

(** X24. A successful cancel sends the frames of one [cancelled] status
    broadcast for the ride, and nothing else, and drops the ride's sample
    from the relay while keeping the samples of the other rides: a
    connection that subscribes to the ride afterwards is sent nothing. *)
Theorem cancel_notifies_and_clears env rideId userId srv ride' :
  fst (cancel env rideId userId srv) = JsonRide ride' ->
  let srv' := snd (cancel env rideId userId srv) in
  sent srv' = sent (broadcastRideStatus env rideId StCancelled srv) /\
  rideLocations srv' = delete rideId (rideLocations srv) /\
  forall ws, sent (on_subscribe ws (Some rideId) srv') = sent srv'.
Proof.
  intros Hres srv'.
  assert (sent srv' = sent (broadcastRideStatus env rideId StCancelled srv) /\
          rideLocations srv' = delete rideId (rideLocations srv)) as [Hsent Hloc].
  { unfold srv'. revert Hres. unfold cancel.
    destruct (getRide rideId (storage srv)) as [ride|] eqn:Hget; [|done].
    destruct (negb (status_eqb (status ride) waiting)
              && negb (status_eqb (status ride) accepted)); [done|].
    destruct (negb (strict_eq (js_string (customerId ride)) userId)
              && negb (strict_eq (js_nullable (driverId ride)) userId));
      [done|].
    rewrite (updateRide_found _ _ _ _ Hget). cbv beta iota zeta.
    intros _. cbn [snd sent rideLocations with_locations].
    by rewrite sent_broadcast_storage, locations_broadcast. }
  split; [exact Hsent|]. split; [exact Hloc|].
  intros ws. destruct (truthy_str rideId) eqn:Htruthy.
  - destruct (on_subscribe_fields ws rideId srv' Htruthy) as (_ & _ & -> & _).
    unfold location_frames. by rewrite Hloc, lookup_delete_eq, app_nil_r.
  - unfold on_subscribe. by rewrite Htruthy.
Qed.

Lemma cancel_notifies_and_clears_witness :
  let s1 := step srv_accepted
              (sample_env, EvMessage 7 (location_msg "ride-A" 37.78 (-122.41))) in
  let srv' := snd (cancel sample_env "ride-A" (JsString "demo-driver-1") s1) in
  rideLocations s1 !! "ride-A" <> None /\
  rideLocations srv' !! "ride-A" = None.
Proof.
  intros s1 srv'.
  assert (exists ride', fst (cancel sample_env "ride-A" (JsString "demo-driver-1") s1)
                        = JsonRide ride') as [ride' Hres].
  { eexists. unfold cancel.
    assert (getRide "ride-A" (storage s1)
            = Some (spread_ride ride_A_accepted
                      {| p_driverId := None; p_status := None;
                         p_currentLocation :=
                           Some (Some {| lat := 37.78; lng := -122.41;
                                         address := None |});
                         p_startedAt := None; p_completedAt := None;
                         p_actualFare := None; p_customerRating := None;
                         p_driverRating := None; p_customerFeedback := None;
                         p_driverFeedback := None |})) as ->.
    { unfold s1, step, on_message, location_msg.
      cbn [msg_type msg_rideId msg_data].
      destruct (on_location_update_fields sample_env 7 "ride-A"
                  {| d_lat := 37.78; d_lng := -122.41; d_timestamp := None;
                     d_speed := None |} srv_accepted eq_refl) as (-> & _).
      vm_compute. reflexivity. }
    vm_compute. reflexivity. }
  destruct (cancel_notifies_and_clears sample_env "ride-A"
              (JsString "demo-driver-1") s1 ride' Hres) as (_ & Hloc & _).
  fold srv' in Hloc. split.
  - unfold s1. rewrite (location_stored sample_env 7 "ride-A"); done.
  - by rewrite Hloc, lookup_delete_eq.
Defined.

(** X25. The complete handler and the live channel, in a reachable state
    and for a stored ride and a valid body: when the ride is in progress
    the call sends the frames of one [completed] status broadcast and drops
    the ride's sample from the relay; for a ride in any other status (so
    for every later call, with or without a rating) it sends no frame and
    leaves the relay as it is. The registry is untouched in both cases. *)
Theorem complete_notifies_once env rideId body srv ride :
  reachable srv ->
  rideCompleteSchema body = true ->
  getRide rideId (storage srv) = Some ride ->
  let srv' := snd (complete env rideId body srv) in
  (status ride = in_progress ->
   sent srv' = sent (broadcastRideStatus env rideId StCompleted srv) /\
   rideLocations srv' = delete rideId (rideLocations srv)) /\
  (status ride <> in_progress ->
   sent srv' = sent srv /\ rideLocations srv' = rideLocations srv) /\
  same_registry srv srv'.
Proof.
  intros Hreach Hvalid Hget srv'.
  split; [|split; [|apply same_registry_complete]].
  - intros Hst.
    assert (completedAt ride = None) as Hdone.
    { pose proof (rides_all_get _ _ _ _ (times_match_status_stored srv Hreach) Hget)
        as (_ & Hc & _).
      destruct (completedAt ride) eqn:E; [|done].
      assert (Some s <> None) as Hs by done.
      apply Hc in Hs as [Hs|Hs]; congruence. }
    unfold srv', complete. rewrite Hvalid, Hget. cbv beta iota zeta.
    assert (p_status (completion_updates env ride) = Some completed) as Hup.
    { unfold completion_updates. by rewrite Hst, Hdone. }
    pose proof (proj1 (status_rating_step ride body (completion_updates env ride)
                         (storage srv))) as Hkeep.
    destruct (rating_step ride body (completion_updates env ride) (storage srv))
      as [updates st].
    simpl in Hkeep. rewrite Hup in Hkeep.
    destruct (updateRide rideId updates st) as [updatedRide st'].
    cbn [snd negb]. rewrite Hkeep. cbn [snd sent rideLocations with_locations].
    by rewrite sent_broadcast_storage, locations_broadcast.
  - intros Hst.
    unfold srv', complete. rewrite Hvalid, Hget. cbv beta iota zeta.
    assert (p_status (completion_updates env ride) = None) as Hup.
    { unfold completion_updates.
      destruct (status_eqb (status ride) in_progress) eqn:E; [|done].
      by apply status_eqb_eq in E. }
    pose proof (proj1 (status_rating_step ride body (completion_updates env ride)
                         (storage srv))) as Hkeep.
    destruct (rating_step ride body (completion_updates env ride) (storage srv))
      as [updates st].
    simpl in Hkeep. rewrite Hup in Hkeep.
    destruct (updateRide rideId updates st) as [updatedRide st'].
    cbn [snd negb]. by rewrite Hkeep.
Qed.

Lemma complete_notifies_once_witness :
  let srv' := snd (complete sample_env "ride-A" driver_rates_5 srv_in_progress) in
  sent srv' = sent (broadcastRideStatus sample_env "ride-A" StCompleted
                      srv_in_progress) /\
  rideLocations srv' = delete "ride-A" (rideLocations srv_in_progress).
Proof.
  intros srv'.
  assert (reachable srv_in_progress) as Hreach by (by eexists _, _).
  assert (getRide "ride-A" (storage srv_in_progress) = Some ride_A_in_progress)
    as Hget by (vm_compute; reflexivity).
  destruct (complete_notifies_once sample_env "ride-A" driver_rates_5
              srv_in_progress ride_A_in_progress Hreach eq_refl Hget)
    as (Hdone & _).
  apply Hdone. reflexivity.
Defined.

(* ===================================================================== *)
(** ** Leaving the registry *)
(* ===================================================================== *)

Lemma not_subscribed_without_variable ws srv :
  registry_ok srv -> subscribedRideId srv !! ws = None ->
  forall id, ~ subscribed_to srv ws id.
Proof.
  intros (_ & Hown & _) Hvar id Hsub. apply Hown in Hsub. congruence.
Qed.

(** What the registry looks like once [ws] was dropped from the ride it
    watched, in a state whose registry is in order. *)
Lemma dropped_everywhere ws srv srv' :
  registry_ok srv ->
  rideSubscriptions srv' = registry_after_leaving ws srv ->
  (forall id, ~ subscribed_to srv' ws id) /\
  (forall ws' id, ws' <> ws ->
                  (subscribed_to srv' ws' id <-> subscribed_to srv ws' id)).
Proof.
  intros Hok Hreg.
  destruct (registry_after_leaving_ok ws srv Hok) as (_ & Hb & Hc & Hd).
  unfold subscribed_to. rewrite Hreg. split.
  - intros id (subs & Hsubs & Hin). by eapply Hb.
  - intros ws' id Hne. split.
    + intros (subs & Hsubs & Hin). by eapply Hc.
    + by apply Hd.
Qed.

Lemma on_unsubscribe_fields ws srv :
  registry_ok srv ->
  let srv' := on_unsubscribe ws srv in
  rideSubscriptions srv' = registry_after_leaving ws srv /\
  subscribedRideId srv' = delete ws (subscribedRideId srv) /\
  sent srv' = sent srv /\ storage srv' = storage srv /\
  rideLocations srv' = rideLocations srv.
Proof.
  intros (_ & _ & Htruthy). unfold on_unsubscribe, registry_after_leaving.
  destruct (subscribedRideId srv !! ws) as [cur|] eqn:Hvar.
  - rewrite (Htruthy _ _ Hvar). by repeat split.
  - repeat split. by rewrite delete_id.
Qed.

Lemma on_close_fields ws srv :
  registry_ok srv ->
  let srv' := on_close ws srv in
  rideSubscriptions srv' = registry_after_leaving ws srv /\
  subscribedRideId srv' = subscribedRideId srv /\
  sent srv' = sent srv /\ storage srv' = storage srv /\
  rideLocations srv' = rideLocations srv.
Proof.
  intros (_ & _ & Htruthy). unfold on_close, registry_after_leaving.
  destruct (subscribedRideId srv !! ws) as [cur|] eqn:Hcur; [|done].
  by rewrite (Htruthy _ _ Hcur).
Qed.

(** The REST handlers never touch the registry. *)
Lemma same_registry_rest env e srv :
  (forall ws msg, e <> EvMessage ws msg) -> (forall ws, e <> EvClose ws) ->
  same_registry srv (step srv (env, e)).
Proof.
  intros Hmsg Hclose.
  destruct e as [wallet rl|body|rideId d|rideId b|rideId body|rideId userId
                |ws message|ws]; cbv beta iota delta [step].
  - unfold authConnect. destruct (getUserByWallet _ _); by split.
  - done.
  - apply same_registry_accept.
  - apply same_registry_start.
  - apply same_registry_complete.
  - apply same_registry_cancel.
  - by destruct (Hmsg ws message).
  - by destruct (Hclose ws).
Qed.

(** The [subscribedRideId] variable of a connection is written by the
    messages of that connection only. *)
Lemma variable_step_other env e srv ws :
  (forall msg, e <> EvMessage ws msg) ->
  subscribedRideId (step srv (env, e)) !! ws = subscribedRideId srv !! ws.
Proof.
  intros Hmsg.
  destruct e as [wallet rl|body|rideId d|rideId b|rideId body|rideId userId
                |ws' message|ws'];
    try (match goal with
         | |- context [step srv (env, ?ev)] =>
             assert (same_registry srv (step srv (env, ev))) as [_ Hsame]
               by (apply same_registry_rest; intros; discriminate);
             by rewrite Hsame
         end).
  - assert (ws' <> ws) as Hne by (intros ->; by apply (Hmsg message)).
    cbv beta iota delta [step]. destruct message as [[ty rideId data]|]; [|done].
    unfold on_message. cbn [msg_type msg_rideId msg_data]. destruct ty.
    + by rewrite (proj2 (same_registry_location env ws' rideId data srv)).
    + done.
    + destruct rideId as [rideId|]; [|done].
      destruct (truthy_str rideId) eqn:Htruthy.
      * destruct (on_subscribe_fields ws' rideId srv Htruthy) as (_ & -> & _).
        by apply lookup_insert_ne.
      * unfold on_subscribe. by rewrite Htruthy.
    + unfold on_unsubscribe.
      destruct (subscribedRideId srv !! ws') as [cur|]; [|done].
      destruct (truthy_str cur); [|done]. simpl. by apply lookup_delete_ne.
  - cbv beta iota delta [step]. unfold on_close.
    destruct (subscribedRideId srv !! ws') as [cur|]; [|done].
    by destruct (truthy_str cur).
Qed.

(** The subscriptions of a connection are changed by its own messages and
    its own close only. *)
Lemma subscriptions_step_other env e srv ws :
  registry_ok srv ->
  (forall msg, e <> EvMessage ws msg) -> e <> EvClose ws ->
  forall id, subscribed_to (step srv (env, e)) ws id <-> subscribed_to srv ws id.
Proof.
  intros Hok Hmsg Hclose id.
  destruct e as [wallet rl|body|rideId d|rideId b|rideId body|rideId userId
                |ws' message|ws'];
    try (match goal with
         | |- context [step srv (env, ?ev)] =>
             assert (same_registry srv (step srv (env, ev))) as [Hsame _]
               by (apply same_registry_rest; intros; discriminate);
             unfold subscribed_to; by rewrite Hsame
         end).
  - assert (ws <> ws') as Hne by (intros ->; by apply (Hmsg message)).
    cbv beta iota delta [step]. destruct message as [[ty rideId data]|]; [|done].
    unfold on_message. cbn [msg_type msg_rideId msg_data]. destruct ty.
    + unfold subscribed_to.
      by rewrite (proj1 (same_registry_location env ws' rideId data srv)).
    + done.
    + destruct rideId as [rideId|]; [|done].
      destruct (truthy_str rideId) eqn:Htruthy.
      * destruct (on_subscribe_spec ws' rideId srv Hok Htruthy) as (_ & _ & Hoth).
        by apply Hoth.
      * unfold on_subscribe. by rewrite Htruthy.
    + destruct (on_unsubscribe_fields ws' srv Hok) as (Hreg & _).
      by apply (dropped_everywhere ws' srv _ Hok Hreg).
  - assert (ws <> ws') as Hne by (intros ->; by apply Hclose).
    cbv beta iota delta [step].
    destruct (on_close_fields ws' srv Hok) as (Hreg & _).
    by apply (dropped_everywhere ws' srv _ Hok Hreg).
Qed.

(** X26. In a reachable state, after [unsubscribe] the connection is in
    the subscriber set of no ride and its [subscribedRideId] is null; the
    subscriptions of every other connection are what they were; no frame
    is sent and neither the store nor the relay changes; and a second
    [unsubscribe] changes nothing at all. *)
Theorem unsubscribe_leaves_every_ride ws srv :
  reachable srv ->
  let srv' := on_unsubscribe ws srv in
  (forall id, ~ subscribed_to srv' ws id) /\
  subscribedRideId srv' !! ws = None /\
  (forall ws' id, ws' <> ws ->
                  (subscribed_to srv' ws' id <-> subscribed_to srv ws' id)) /\
  sent srv' = sent srv /\ storage srv' = storage srv /\
  rideLocations srv' = rideLocations srv /\
  on_unsubscribe ws srv' = srv'.
Proof.
  intros Hreach srv'. pose proof (registry_ok_reachable srv Hreach) as Hok.
  destruct (on_unsubscribe_fields ws srv Hok) as (Hreg & Hvar & Hsent & Hst & Hloc).
  fold srv' in Hreg, Hvar, Hsent, Hst, Hloc.
  destruct (dropped_everywhere ws srv srv' Hok Hreg) as [Hout Hothers].
  assert (subscribedRideId srv' !! ws = None) as Hnull
    by (by rewrite Hvar, lookup_delete_eq).
  repeat split; try done; try apply Hothers; try done.
  unfold on_unsubscribe at 1. by rewrite Hnull.
Qed.

Lemma unsubscribe_leaves_every_ride_witness :
  ~ subscribed_to (on_unsubscribe 1 srv_live) 1 "r2" /\
  on_unsubscribe 1 (on_unsubscribe 1 srv_live) = on_unsubscribe 1 srv_live.
Proof.
  assert (reachable srv_live) as Hreach by (by eexists _, _).
  destruct (unsubscribe_leaves_every_ride 1 srv_live Hreach)
    as (Hout & _ & _ & _ & _ & _ & Hidem).
  split; [apply Hout | exact Hidem].
Defined.

(** X27. In a reachable state, closing a connection removes it from the
    registry exactly as [unsubscribe] does: afterwards it is in the
    subscriber set of no ride, so no later status broadcast writes to it,
    and the subscriptions of the other connections are what they were.
    Only the connection's [subscribedRideId] variable keeps its value. *)
Theorem close_leaves_every_ride ws srv :
  reachable srv ->
  let srv' := on_close ws srv in
  rideSubscriptions srv' = rideSubscriptions (on_unsubscribe ws srv) /\
  subscribedRideId srv' = subscribedRideId srv /\
  (forall id, ~ subscribed_to srv' ws id) /\
  (forall ws' id, ws' <> ws ->
                  (subscribed_to srv' ws' id <-> subscribed_to srv ws' id)) /\
  (forall env id payload frame,
     (ws, frame) ∉ drop (length (sent srv'))
                        (sent (broadcastRideStatus env id payload srv'))) /\
  sent srv' = sent srv /\ storage srv' = storage srv /\
  rideLocations srv' = rideLocations srv.
Proof.
  intros Hreach srv'. pose proof (registry_ok_reachable srv Hreach) as Hok.
  destruct (on_unsubscribe_fields ws srv Hok) as (Hreg & _).
  destruct (on_close_fields ws srv Hok) as (Hreg' & Hvar & Hsent & Hst & Hloc).
  fold srv' in Hreg', Hvar, Hsent, Hst, Hloc.
  destruct (dropped_everywhere ws srv srv' Hok Hreg') as [Hout Hothers].
  split; [by rewrite Hreg', Hreg|]. split; [done|]. split; [done|].
  split; [done|]. split; [|done].
  intros env id payload frame Hin.
  destruct (broadcast_frames_spec env id payload srv')
    as (frames & Hfr & _ & Hiff & _).
  cbv zeta in Hfr. rewrite Hfr, drop_app_length in Hin.
  apply Hiff in Hin as (_ & Hsub & _). by apply (Hout id).
Qed.

Lemma close_leaves_every_ride_witness :
  ~ subscribed_to (on_close 1 srv_live) 1 "r2" /\
  subscribedRideId (on_close 1 srv_live) = subscribedRideId srv_live.
Proof.
  assert (reachable srv_live) as Hreach by (by eexists _, _).
  destruct (close_leaves_every_ride 1 srv_live Hreach) as (_ & Hvar & Hout & _).
  split; [apply Hout | exact Hvar].
Defined.

(** X28. Subscribing and then unsubscribing is a round trip: in a
    reachable state, for a connection that watches no ride, [subscribe]
    to any ride followed by [unsubscribe] gives back the registry and the
    [subscribedRideId] variables of before, whether or not the ride had
    other subscribers. *)
Theorem subscribe_unsubscribe_round_trip ws rideId srv :
  reachable srv ->
  subscribedRideId srv !! ws = None ->
  same_registry srv (on_unsubscribe ws (on_subscribe ws (Some rideId) srv)).
Proof.
  intros Hreach Hvar. pose proof (registry_ok_reachable srv Hreach) as Hok.
  destruct (truthy_str rideId) eqn:Htruthy; cycle 1.
  { unfold on_subscribe. rewrite Htruthy. unfold on_unsubscribe.
    by rewrite Hvar. }
  destruct (on_subscribe_fields ws rideId srv Htruthy) as (Hreg & Hcur & _).
  set (s1 := on_subscribe ws (Some rideId) srv) in *.
  assert (registry_after_leaving ws srv = rideSubscriptions srv) as Hleft
    by (unfold registry_after_leaving; by rewrite Hvar).
  rewrite Hleft in Hreg.
  unfold on_unsubscribe. rewrite Hcur, lookup_insert_eq, Htruthy.
  split; simpl.
  - rewrite Hreg. apply map_eq. intros id.
    rewrite lookup_drop_subscriber.
    case_decide as Hid;
      [subst id | by rewrite lookup_add_subscriber, decide_False].
    rewrite lookup_add_subscriber, decide_True by done.
    destruct (rideSubscriptions srv !! rideId) as [subs|] eqn:Hsubs; simpl.
    + assert (ws ∉ subs) as Hnot.
      { intros Hin.
        apply (not_subscribed_without_variable ws srv Hok Hvar rideId).
        by exists subs. }
      assert ((subs ∪ {[ws]}) ∖ {[ws]} = subs) as ->.
      { apply set_eq. intros x.
        rewrite elem_of_difference, elem_of_union, elem_of_singleton.
        split; [by intros [[Hx|Hx] Hne] | intros Hx].
        split; [by left | by intros ->]. }
      destruct Hok as (Hne & _). rewrite decide_False; [done|].
      by apply (Hne rideId).
    + rewrite decide_True; [done|].
      by rewrite union_empty_l_L, difference_diag_L.
  - rewrite Hcur. by apply delete_insert_id.
Qed.

Lemma subscribe_unsubscribe_round_trip_witness :
  same_registry srv_live
    (on_unsubscribe 5 (on_subscribe 5 (Some "r2") srv_live)).
Proof.
  assert (reachable srv_live) as Hreach by (by eexists _, _).
  apply (subscribe_unsubscribe_round_trip 5 "r2" srv_live Hreach).
  unfold srv_live, trace_live, run. cbn [foldl].
  by rewrite !variable_step_other by (intros msg; discriminate).
Defined.

(** X29. The subscriptions of a connection are changed by that
    connection only: in a reachable state, no REST call, no message of
    another connection and no close of another connection changes the
    rides the connection is subscribed to or its [subscribedRideId]; and
    the REST calls leave the whole registry as it is. *)
Theorem subscriptions_changed_by_owner_only env e srv ws :
  reachable srv ->
  (forall msg, e <> EvMessage ws msg) -> e <> EvClose ws ->
  (forall id, subscribed_to (step srv (env, e)) ws id <-> subscribed_to srv ws id) /\
  subscribedRideId (step srv (env, e)) !! ws = subscribedRideId srv !! ws /\
  ((forall ws' msg, e <> EvMessage ws' msg) -> (forall ws', e <> EvClose ws') ->
   same_registry srv (step srv (env, e))).
Proof.
  intros Hreach Hmsg Hclose. split; [|split].
  - by apply subscriptions_step_other; [apply registry_ok_reachable|..].
  - by apply variable_step_other.
  - apply same_registry_rest.
Qed.

Lemma subscriptions_changed_by_owner_only_witness :
  subscribed_to (step srv_live (sample_env, EvMessage 2 (subscribe_msg "r2"))) 1 "r2"
  <-> subscribed_to srv_live 1 "r2".
Proof.
  assert (reachable srv_live) as Hreach by (by eexists _, _).
  apply (subscriptions_changed_by_owner_only sample_env
           (EvMessage 2 (subscribe_msg "r2")) srv_live 1 Hreach);
    [intros msg|]; discriminate.
Defined.
